(** * goclj: the lexer (package parse) and the tree transforms (package format)

    A shallow embedding of the scanner state machine of [parse] and of
    the rewrite passes of [format/transform.go], with the properties the
    specification states about them. *)

From Stdlib Require Import ZArith String Ascii Lia Permutation Sorted OrderedTypeEx.
From stdpp Require Import base list.

(** ** Part I: the lexer *)

Module Lex.

Local Open Scope Z_scope.

(** Go's [rune] is an [int32] code point; [int] is taken to be 64 bits
    wide, and additions on it wrap around. *)
Definition rune := Z.

Definition int (z : Z) : Z := (z + 2 ^ 63) mod 2 ^ 64 - 2 ^ 63.

Definition ch (c : ascii) : rune := Z.of_N (N_of_ascii c).

Definition runes (s : string) : list rune := map ch (list_ascii_of_string s).

(** [Pos] is a position in source text. *)
Record Pos := mkPos { Name : string; Offset : Z; Line : Z; Col : Z }.

Inductive tokType :=
| tokEOF
| tokApostrophe | tokAtSign | tokBacktick | tokBool | tokCharLiteral
| tokCircumflex | tokComment | tokDispatch | tokKeyword | tokLambdaArg
| tokLeftBrace | tokLeftBracket | tokLeftParen | tokNil | tokNumber
| tokOctothorpe | tokRightBrace | tokRightBracket | tokRightParen
| tokString | tokSymbol | tokTilde
| tokError.

(** A token is a single lexeme produced by the scanner.  [val] is kept
    as the runes of the Go string. *)
Record token := mkToken { typ : tokType; pos : Pos; val : list rune }.

(** *** The input: a [bufio.Reader]

    The reader is the sequence of results its [ReadRune] will deliver:
    decoded runes with their width in bytes, then either [io.EOF] or
    another error.  [unread] is the rune [UnreadRune] can give back; it
    is only available right after a successful [ReadRune]. *)
Record Reader := mkReader {
  pending : list (rune * Z);
  failure : option string;
  unread : option (rune * Z)
}.

Inductive readResult :=
| ReadOk (r : rune) (w : Z)
| ReadEOF
| ReadErr (e : string).

Definition ReadRune (b : Reader) : readResult * Reader :=
  match pending b with
  | (r, w) :: rest => (ReadOk r w, mkReader rest (failure b) (Some (r, w)))
  | [] =>
      match failure b with
      | None => (ReadEOF, mkReader [] None None)
      | Some e => (ReadErr e, mkReader [] (Some e) None)
      end
  end.

Definition UnreadRune (b : Reader) : option Reader :=
  match unread b with
  | Some x => Some (mkReader (x :: pending b) (failure b) None)
  | None => None
  end.

(** *** The scanner state

    [pos], [start] and [lastPos] are pointers in the source; no [Pos] is
    reachable from two of them (or from a token and the scanner) while
    it is written to, so they are kept as values.  [tokens] is what has
    been sent on the channel so far, oldest first. *)
Record lexer := mkLexer {
  name : string;
  input : Reader;
  lpos : Pos;
  start : Pos;
  lastPos : option Pos;
  tokens : list token;
  lval : list rune
}.

Definition set_input (b : Reader) (l : lexer) : lexer :=
  mkLexer (name l) b (lpos l) (start l) (lastPos l) (tokens l) (lval l).

Definition send (t : token) (l : lexer) : lexer :=
  mkLexer (name l) (input l) (lpos l) (start l) (lastPos l) (tokens l ++ [t]) (lval l).

(** A panic unwinds to [run] with the scanner as it was left. *)
Inductive panicVal :=
| inputReadErr (e : string)
| fatal (msg : string).

Inductive result (A : Type) :=
| Ret (a : A) (l : lexer)
| Panic (p : panicVal) (l : lexer)
| OutOfFuel.
Arguments Ret {A} a l.
Arguments Panic {A} p l.
Arguments OutOfFuel {A}.

Definition M (A : Type) := lexer -> result A.

Definition ret {A} (a : A) : M A := fun l => Ret a l.

Definition bind {A B} (m : M A) (k : A -> M B) : M B :=
  fun l =>
    match m l with
    | Ret a l' => k a l'
    | Panic p l' => Panic p l'
    | OutOfFuel => OutOfFuel
    end.

Notation "x <- m ;; k" := (bind m (fun x => k))
  (at level 90, m at level 89, k at level 90, right associativity).
Notation "m ;;; k" := (bind m (fun _ => k))
  (at level 90, right associativity).

Definition modify (f : lexer -> lexer) : M unit := fun l => Ret tt (f l).

(** The position after reading rune [r] of width [w] at [p]. *)
Definition advance (p : Pos) (r : rune) (w : Z) : Pos :=
  if r =? ch "010"
  then mkPos (Name p) (int (Offset p + w)) (int (Line p + 1)) 1
  else mkPos (Name p) (int (Offset p + w)) (Line p) (int (Col p + w)).

(** [next] returns the rune read and whether the input is at its end. *)
Definition next : M (rune * bool) := fun l =>
  match ReadRune (input l) with
  | (ReadEOF, b) => Ret (0, true) (set_input b l)
  | (ReadErr e, b) => Panic (inputReadErr e) (set_input b l)
  | (ReadOk r w, b) =>
      Ret (r, false)
          (mkLexer (name l) b (advance (lpos l) r w) (start l)
                   (Some (lpos l)) (tokens l) (lval l ++ [r]))
  end.

Definition back : M unit := fun l =>
  match lastPos l with
  | None => Panic (fatal "back() call not preceded by a next()") l
  | Some p =>
      match UnreadRune (input l) with
      | None => Panic (fatal "should not happen") l
      | Some b =>
          match lval l with
          | [] => Panic (fatal "slice bounds out of range") (set_input b l)
          | _ :: _ =>
              Ret tt (mkLexer (name l) b p (start l) None (tokens l)
                              (removelast (lval l)))
          end
      end
  end.

Definition skip : M unit :=
  modify (fun l => mkLexer (name l) (input l) (lpos l) (lpos l) (lastPos l)
                           (tokens l) []).

Definition emit (t : tokType) : M unit :=
  modify (fun l => send (mkToken t (start l) (lval l)) l) ;;; skip.

Definition synth (t : tokType) (v : list rune) : M unit :=
  modify (fun l => send (mkToken t (start l) v) l).

(** A state of the scanner; Go's [nil] state is [None]. *)
Inductive stateFn :=
| lexOuter | lexWhitespace | lexComment | lexString | lexCharLiteral
| lexKeyword | lexLambdaArg | lexDispatch | lexNumber | lexSymbol.

Definition errorf (msg : list rune) : M (option stateFn) :=
  modify (fun l => send (mkToken tokError (start l) msg) l) ;;; ret None.

Definition scanError (e : string) (l : lexer) : lexer :=
  send (mkToken tokError (start l) (runes "error while scanning: " ++ runes e)) l.

Definition eof : M (option stateFn) := emit tokEOF ;;; ret None.

(** A reader over ASCII text, ending with [io.EOF]. *)
Definition text (s : string) : Reader :=
  mkReader (map (fun c => (ch c, 1)) (list_ascii_of_string s)) None None.

(** The scanner as [lex] creates it. *)
Definition fresh (nm : string) (b : Reader) : lexer :=
  mkLexer nm b (mkPos nm 0 1 1) (mkPos nm 0 1 1) None [] [].

(** The position reached from [p] by reading [rs]. *)
Definition advance_all (p : Pos) (rs : list (rune * Z)) : Pos :=
  fold_left (fun q rw => advance q (fst rw) (snd rw)) rs p.

(** What a consumer sees of a token: its kind and its text. *)
Definition shape (t : token) : tokType * list rune := (typ t, val t).

Definition terminal (t : token) : bool :=
  match typ t with
  | tokEOF | tokError => true
  | _ => false
  end.

(** [located inp p0 t]: the text of [t] is a run of the input [inp], and
    the position of [t] is the one reached from [p0] at the start of that
    run. *)
Definition located (inp : list (rune * Z)) (p0 : Pos) (t : token) : Prop :=
  exists pre mid post,
    inp = pre ++ mid ++ post /\ val t = map fst mid /\ pos t = advance_all p0 pre.

(** [doubled inp t]: the text of [t] is a ['#'] of the input with the
    rune that follows it. *)
Definition doubled (inp : list (rune * Z)) (t : token) : Prop :=
  exists pre c w1 w2 post,
    inp = pre ++ (ch "#", w1) :: (c, w2) :: post /\ val t = [ch "#"; c].

Definition boundary_ok (inp : list (rune * Z)) (p0 : Pos) (t : token) : Prop :=
  match typ t with
  | tokError => True
  | tokDispatch => doubled inp t
  | _ => located inp p0 t
  end.

(** The kinds of the tokens sent by [emit]: all but the error tokens and
    the dispatch tokens. *)
Definition scanned (t : tokType) : bool :=
  match t with
  | tokError | tokDispatch => false
  | _ => true
  end.

(** [followsTo skipped inp p ts r q]: the tokens [ts] sent by [emit]
    are, in their order, runs of the input [inp] (read from position [p])
    that follow one another, each after a gap of runes that were
    discarded, all of them [skipped] runes, and each token has the
    position at the start of its run; [r] is the input after the last of
    these runs and [q] the position there. *)
Inductive followsTo (skipped : rune -> bool) :
  list (rune * Z) -> Pos -> list token -> list (rune * Z) -> Pos -> Prop :=
| follows_nil inp p : followsTo skipped inp p [] inp p
| follows_run gap run rest p t ts r q :
    Forall (fun x => skipped (fst x) = true) gap ->
    scanned (typ t) = true ->
    val t = map fst run ->
    pos t = advance_all p gap ->
    followsTo skipped rest (advance_all p (gap ++ run)) ts r q ->
    followsTo skipped (gap ++ run ++ rest) p (t :: ts) r q
| follows_other inp p t ts r q :
    scanned (typ t) = false ->
    followsTo skipped inp p ts r q ->
    followsTo skipped inp p (t :: ts) r q.

Definition successive (skipped : rune -> bool) (inp : list (rune * Z)) (p0 : Pos)
    (ts : list token) : Prop :=
  exists r q, followsTo skipped inp p0 ts r q.

(** [tracks skipped inp p ts r q]: how the tokens [ts], all of them, lie
    in the input [inp], read from position [p]; [r] is the input that is
    left after them and [q] the position there.
    - A token sent by [emit] has for text the run of runes consumed since
      the previous emission or discard, the runes discarded before it
      being [skipped] runes, and for position the start of that run.
    - A dispatch token stands where a ['#'] is discarded; its text is
      that ['#'] with the rune [c] that follows, and [c] is not consumed
      and not discarded: the token after it is scanned from [c] on.
      Nothing is said of the position of a dispatch token.
    - An error token has the position at which the text that was being
      scanned starts; it consumes nothing. *)
Inductive tracks (skipped : rune -> bool) :
  list (rune * Z) -> Pos -> list token -> list (rune * Z) -> Pos -> Prop :=
| tracks_nil inp p : tracks skipped inp p [] inp p
| tracks_run gap run rest p t ts r q :
    Forall (fun x => skipped (fst x) = true) gap ->
    scanned (typ t) = true ->
    val t = map fst run ->
    pos t = advance_all p gap ->
    tracks skipped rest (advance_all p (gap ++ run)) ts r q ->
    tracks skipped (gap ++ run ++ rest) p (t :: ts) r q
| tracks_dispatch gap w c w2 rest p t ts r q :
    Forall (fun x => skipped (fst x) = true) gap ->
    typ t = tokDispatch ->
    val t = [ch "#"; c] ->
    skipped c = false ->
    tracks skipped ((c, w2) :: rest) (advance_all p (gap ++ [(ch "#", w)])) ts r q ->
    tracks skipped (gap ++ (ch "#", w) :: (c, w2) :: rest) p (t :: ts) r q
| tracks_error gap rest p t ts r q :
    Forall (fun x => skipped (fst x) = true) gap ->
    typ t = tokError ->
    pos t = advance_all p gap ->
    tracks skipped (gap ++ rest) p ts r q ->
    tracks skipped (gap ++ rest) p (t :: ts) r q.

Section Scanner.

(** Go's [unicode] tables beyond Latin-1 are taken as given. *)
Variables wideSpace wideLetter wideDigit : rune -> bool.

Definition latin1 (r : rune) : bool := (0 <=? r) && (r <=? 255).

Definition unicode_IsSpace (r : rune) : bool :=
  if latin1 r
  then (r =? 9) || (r =? 10) || (r =? 11) || (r =? 12) || (r =? 13)
       || (r =? 32) || (r =? 133) || (r =? 160)
  else wideSpace r.

Definition unicode_IsDigit (r : rune) : bool :=
  if latin1 r then (ch "0" <=? r) && (r <=? ch "9") else wideDigit r.

Definition unicode_IsLetter (r : rune) : bool :=
  if latin1 r
  then ((ch "A" <=? r) && (r <=? ch "Z")) || ((ch "a" <=? r) && (r <=? ch "z"))
       || (r =? 170) || (r =? 181) || (r =? 186)
       || ((192 <=? r) && (r <=? 214)) || ((216 <=? r) && (r <=? 246))
       || ((248 <=? r) && (r <=? 255))
  else wideLetter r.

Definition isWhitespace (r : rune) : bool :=
  unicode_IsSpace r || (r =? ch ",").

Definition isSymbolChar (r : rune) : bool :=
  if unicode_IsLetter r || unicode_IsDigit r then true
  else existsb (Z.eqb r) (runes "*+!-_?/.:$=><&").

(** The runes the scanner reads without sending them in a token: white
    space, which [lexWhitespace] skips, and the ['#'] that [lexDispatch]
    skips. *)
Definition discarded (r : rune) : bool := isWhitespace r || (r =? ch "#").

(** The loops read at most the runes that are left, once more for the
    end of input. *)
Definition remaining (l : lexer) : nat := S (length (pending (input l))).

Fixpoint scanWhile_loop (fuel : nat) (f : rune -> bool) : M unit :=
  match fuel with
  | O => fun _ => OutOfFuel
  | S fuel' =>
      re <- next ;;
      if (snd re : bool) then ret tt
      else if negb (f (fst re)) then back
      else scanWhile_loop fuel' f
  end.

Definition scanWhile (f : rune -> bool) : M unit :=
  fun l => scanWhile_loop (remaining l) f l.

Fixpoint scanUntil_loop (fuel : nat) (set : list rune) : M unit :=
  match fuel with
  | O => fun _ => OutOfFuel
  | S fuel' =>
      re <- next ;;
      if (snd re : bool) then ret tt
      else if existsb (Z.eqb (fst re)) set then ret tt
      else scanUntil_loop fuel' set
  end.

Definition scanUntil (set : string) : M unit :=
  fun l => scanUntil_loop (remaining l) (runes set) l.

Definition lexWhitespace_fn : M (option stateFn) :=
  scanWhile isWhitespace ;;; skip ;;; ret (Some lexOuter).

Definition lexComment_fn : M (option stateFn) :=
  scanUntil (String "010" EmptyString) ;;; emit tokComment ;;; ret (Some lexOuter).

Fixpoint lexString_loop (fuel : nat) (escaped : bool) : M (option stateFn) :=
  match fuel with
  | O => fun _ => OutOfFuel
  | S fuel' =>
      re <- next ;;
      if (snd re : bool)
      then errorf (runes "reached EOF before string closing quote")
      else if fst re =? ch "034" then
             if negb escaped then emit tokString ;;; ret (Some lexOuter)
             else lexString_loop fuel' false
           else if fst re =? ch "\" then lexString_loop fuel' (negb escaped)
           else lexString_loop fuel' false
  end.

Definition lexString_fn : M (option stateFn) :=
  fun l => lexString_loop (remaining l) false l.

Definition lexCharLiteral_fn : M (option stateFn) :=
  re <- next ;;
  if (snd re : bool) then errorf (runes "invalid character literal")
  else scanWhile isSymbolChar ;;; emit tokCharLiteral ;;; ret (Some lexOuter).

Definition lexKeyword_fn : M (option stateFn) :=
  scanWhile isSymbolChar ;;; emit tokKeyword ;;; ret (Some lexOuter).

Definition lexLambdaArg_fn : M (option stateFn) :=
  scanWhile isSymbolChar ;;; emit tokLambdaArg ;;; ret (Some lexOuter).

Definition lexNumber_fn : M (option stateFn) :=
  scanWhile isSymbolChar ;;; emit tokNumber ;;; ret (Some lexOuter).

Definition lexSymbol_fn : M (option stateFn) :=
  scanWhile isSymbolChar ;;; emit tokSymbol ;;; ret (Some lexOuter).

Definition lexDispatch_fn : M (option stateFn) :=
  re <- next ;;
  if (snd re : bool) then emit tokOctothorpe ;;; ret None
  else
    v <- (fun l => Ret (lval l) l) ;;
    back ;;; skip ;;;
    if existsb (Z.eqb (fst re)) [ch "{"; ch "("; ch "'"; ch "034"; ch "_"]
    then synth tokDispatch v ;;; ret (Some lexOuter)
    else ret (Some lexOuter).

(** The single-character tokens of [lexOuter]. *)
Definition single (r : rune) : option tokType :=
  if r =? ch "'" then Some tokApostrophe
  else if r =? ch "@" then Some tokAtSign
  else if r =? ch "`" then Some tokBacktick
  else if r =? ch "^" then Some tokCircumflex
  else if r =? ch "{" then Some tokLeftBrace
  else if r =? ch "[" then Some tokLeftBracket
  else if r =? ch "(" then Some tokLeftParen
  else if r =? ch "}" then Some tokRightBrace
  else if r =? ch "]" then Some tokRightBracket
  else if r =? ch ")" then Some tokRightParen
  else if r =? ch "~" then Some tokTilde
  else None.

Definition lexOuter_fn : M (option stateFn) :=
  re <- next ;;
  if (snd re : bool) then eof
  else
    let r := fst re in
    if r =? ch ";" then ret (Some lexComment)
    else if r =? ch "034" then ret (Some lexString)
    else if r =? ch "\" then ret (Some lexCharLiteral)
    else if r =? ch ":" then ret (Some lexKeyword)
    else if r =? ch "%" then ret (Some lexLambdaArg)
    else if r =? ch "#" then ret (Some lexDispatch)
    else if (r =? ch "+") || (r =? ch "-") then
      re2 <- next ;;
      if (snd re2 : bool) then emit tokSymbol ;;; eof
      else
        back ;;;
        if (ch "0" <=? fst re2) && (fst re2 <=? ch "9")
        then ret (Some lexNumber)
        else ret (Some lexSymbol)
    else
      match single r with
      | Some t => emit t ;;; ret (Some lexOuter)
      | None =>
          if isWhitespace r then ret (Some lexWhitespace)
          else if (ch "0" <=? r) && (r <=? ch "9") then ret (Some lexNumber)
          else if isSymbolChar r then ret (Some lexSymbol)
          else errorf (runes "unrecognized token starting with " ++ [r])
      end.

Definition call (s : stateFn) : M (option stateFn) :=
  match s with
  | lexOuter => lexOuter_fn
  | lexWhitespace => lexWhitespace_fn
  | lexComment => lexComment_fn
  | lexString => lexString_fn
  | lexCharLiteral => lexCharLiteral_fn
  | lexKeyword => lexKeyword_fn
  | lexLambdaArg => lexLambdaArg_fn
  | lexDispatch => lexDispatch_fn
  | lexNumber => lexNumber_fn
  | lexSymbol => lexSymbol_fn
  end.

(** The loop of [run]: [for state := lexOuter; state != nil; state = state(l)]. *)
Fixpoint run_loop (fuel : nat) (state : option stateFn) : M unit :=
  match state with
  | None => ret tt
  | Some s =>
      match fuel with
      | O => fun _ => OutOfFuel
      | S fuel' => st <- call s ;; run_loop fuel' st
      end
  end.

(** What the consumer of the channel can observe of a run: the tokens
    sent, and whether the channel was closed, left open by the recovery
    from a read error, or abandoned by a panic. *)
Inductive outcome :=
| Closed (ts : list token)
| Recovered (ts : list token)
| Crashed (msg : string) (ts : list token)
| Diverged.

Definition run (l : lexer) : outcome :=
  match run_loop (2 * remaining l) (Some lexOuter) l with
  | Ret _ l' => Closed (tokens l')
  | Panic (inputReadErr e) l' => Recovered (tokens (scanError e l'))
  | Panic (fatal msg) l' => Crashed msg (tokens l')
  | OutOfFuel => Diverged
  end.

Definition lex (nm : string) (b : Reader) : outcome :=
  run (fresh nm b).

(** *** The invariant of a run

    [inp] is what the reader held when the scanner was created and [p0]
    the position it started from.  [Inv b c l]: the scanner [l] has read
    [b ++ c] of [inp]; [b] lies before [start l], and [c] is the run
    read since, whose runes are [lval l]. *)
Section Invariant.

Variable inp : list (rune * Z).
Variable p0 : Pos.
Variable fl : option string.

(** The kinds that [emit] is called with between two terminal tokens:
    [tokBool] and [tokNil] are not among them. *)
Definition plain (t : tokType) : bool :=
  match t with
  | tokEOF | tokError | tokDispatch | tokBool | tokNil => false
  | _ => true
  end.

Definition lexical (t : token) : bool :=
  match typ t with
  | tokBool | tokNil => false
  | _ => true
  end.

Definition sound (ts : list token) : Prop :=
  Forall (boundary_ok inp p0) ts
  /\ Forall (fun t => terminal t = false) ts
  /\ Forall (fun t => lexical t = true) ts.

Definition skippable (rs : list (rune * Z)) : Prop :=
  Forall (fun x => discarded (fst x) = true) rs.

(** [path R b c ts pend]: the tokens [ts] lie in the input as [R] says,
    up to some point [b1] of [b]; what was read since is a gap of
    discarded runes, the current run [c] and the input ahead [pend]. *)
Definition path
    (R : list (rune * Z) -> Pos -> list token -> list (rune * Z) -> Pos -> Prop)
    (b c : list (rune * Z)) (ts : list token) (pend : list (rune * Z)) : Prop :=
  exists b1 gap,
    b = b1 ++ gap
    /\ skippable gap
    /\ R inp p0 ts (gap ++ c ++ pend) (advance_all p0 b1).

(** The input fails at its end as [fl] says, and the tokens sent lie in
    the input as [followsTo] and [tracks] say. *)
Definition trail (b c : list (rune * Z)) (l : lexer) : Prop :=
  failure (input l) = fl
  /\ path (followsTo discarded) b c (tokens l) (pending (input l))
  /\ path (tracks discarded) b c (tokens l) (pending (input l)).

Definition Inv (b c : list (rune * Z)) (l : lexer) : Prop :=
  inp = b ++ c ++ pending (input l)
  /\ start l = advance_all p0 b
  /\ lpos l = advance_all (start l) c
  /\ lval l = map fst c
  /\ sound (tokens l)
  /\ trail b c l.

(** The scanner stopped of its own accord: what it sent ends with the
    only terminal token, or with the octothorpe of [lexDispatch]; an
    end-of-input token has no text and stands at the end of the input,
    all of which has been read; when the input ends with a read error,
    the last token is an error token. *)
Definition ends (sent : list token) : Prop :=
  Forall (boundary_ok inp p0) sent
  /\ Forall (fun t => lexical t = true) sent
  /\ successive discarded inp p0 sent
  /\ (exists r q, tracks discarded inp p0 sent r q)
  /\ exists ts t,
       sent = ts ++ [t]
       /\ Forall (fun t => terminal t = false) ts
       /\ (terminal t = true
           \/ (typ t = tokOctothorpe /\ exists pre w, inp = pre ++ [(ch "#", w)]))
       /\ (typ t = tokEOF ->
           pos t = advance_all p0 inp /\ val t = []
           /\ followsTo discarded inp p0 sent [] (advance_all p0 inp)
           /\ tracks discarded inp p0 sent [] (advance_all p0 inp))
       /\ (fl = None \/ typ t = tokError).

Definition Final (l : lexer) : Prop := ends (tokens l).

Definition state_pre (s : stateFn) (c : list (rune * Z)) : Prop :=
  match s with
  | lexOuter => c = []
  | lexWhitespace => skippable c
  | lexDispatch => exists w, c = [(ch "#", w)]
  | _ => True
  end.

Definition rank (s : stateFn) (b c : list (rune * Z)) : nat :=
  match s with
  | lexOuter => S (2 * length (b ++ c))
  | _ => 2 * length (b ++ c)
  end.

(** [ok m l Q]: run from [l], [m] returns in a state that satisfies [Q],
    or stops on the read error of the input, all of which has been read,
    in a state that satisfies the invariant. *)
Definition ok {A} (r : result A) (Q : A -> lexer -> Prop) : Prop :=
  match r with
  | Ret a l' => Q a l'
  | Panic (inputReadErr e) l' =>
      fl = Some e /\ pending (input l') = [] /\ exists b c, Inv b c l'
  | Panic (fatal _) _ => False
  | OutOfFuel => False
  end.

Ltac inv_split := split; [|split; [|split; [|split; [|split]]]].

Lemma isWhitespace_discarded r : isWhitespace r = true -> discarded r = true.
Proof. unfold discarded. intros ->. reflexivity. Qed.

Lemma octothorpe_discarded : discarded (ch "#") = true.
Proof. unfold discarded. rewrite Z.eqb_refl. apply orb_true_r. Qed.

(** The runes that make a dispatch token are not discarded. *)
Lemma dispatch_rune_kept r :
  existsb (Z.eqb r) [ch "{"; ch "("; ch "'"; ch "034"; ch "_"] = true ->
  discarded r = false.
Proof.
  intros H. cbn [existsb] in H.
  repeat match type of H with
         | _ || _ = true => apply orb_true_iff in H as [H|H]
         end;
    try discriminate H; apply Z.eqb_eq in H; subst; vm_compute; reflexivity.
Qed.

Lemma followsTo_run_snoc sk i p ts gap run r' q t :
  followsTo sk i p ts (gap ++ run ++ r') q ->
  Forall (fun x => sk (fst x) = true) gap ->
  scanned (typ t) = true -> val t = map fst run -> pos t = advance_all q gap ->
  followsTo sk i p (ts ++ [t]) r' (advance_all q (gap ++ run)).
Proof.
  intros H Hg Hs Hv Hp. remember (gap ++ run ++ r') as r eqn:E.
  induction H as [i p|g u rest p t' ts r q Hg' Hs' Hv' Hp' H IH|i p t' ts r q Hs' H IH];
    subst; simpl.
  - apply follows_run; auto. constructor.
  - apply follows_run; auto.
  - apply follows_other; auto.
Qed.

Lemma followsTo_other_snoc sk i p ts r q t :
  followsTo sk i p ts r q -> scanned (typ t) = false ->
  followsTo sk i p (ts ++ [t]) r q.
Proof.
  intros H Hs.
  induction H as [i p|g u rest p t' ts r q Hg' Hs' Hv' Hp' H IH|i p t' ts r q Hs' H IH];
    simpl.
  - apply follows_other; [exact Hs|constructor].
  - apply follows_run; auto.
  - apply follows_other; auto.
Qed.

Lemma tracks_run_snoc sk i p ts gap run r' q t :
  tracks sk i p ts (gap ++ run ++ r') q ->
  Forall (fun x => sk (fst x) = true) gap ->
  scanned (typ t) = true -> val t = map fst run -> pos t = advance_all q gap ->
  tracks sk i p (ts ++ [t]) r' (advance_all q (gap ++ run)).
Proof.
  intros H Hg Hs Hv Hp. remember (gap ++ run ++ r') as r eqn:E.
  induction H; subst; simpl.
  - apply tracks_run; auto. constructor.
  - apply tracks_run; auto.
  - apply tracks_dispatch; auto.
  - apply tracks_error; auto.
Qed.

Lemma tracks_dispatch_snoc sk i p ts gap w c w2 r' q t :
  tracks sk i p ts (gap ++ (ch "#", w) :: (c, w2) :: r') q ->
  Forall (fun x => sk (fst x) = true) gap ->
  typ t = tokDispatch -> val t = [ch "#"; c] -> sk c = false ->
  tracks sk i p (ts ++ [t]) ((c, w2) :: r') (advance_all q (gap ++ [(ch "#", w)])).
Proof.
  intros H Hg Hs Hv Hc. remember (gap ++ (ch "#", w) :: (c, w2) :: r') as r eqn:E.
  induction H; subst; simpl.
  - apply tracks_dispatch; auto. constructor.
  - apply tracks_run; auto.
  - apply tracks_dispatch; auto.
  - apply tracks_error; auto.
Qed.

Lemma tracks_error_snoc sk i p ts gap r' q t :
  tracks sk i p ts (gap ++ r') q ->
  Forall (fun x => sk (fst x) = true) gap ->
  typ t = tokError -> pos t = advance_all q gap ->
  tracks sk i p (ts ++ [t]) (gap ++ r') q.
Proof.
  intros H Hg Hs Hp. remember (gap ++ r') as r eqn:E.
  induction H; subst; simpl.
  - apply tracks_error; auto. constructor.
  - apply tracks_run; auto.
  - apply tracks_dispatch; auto.
  - apply tracks_error; auto.
Qed.

Lemma advance_all_app p xs ys :
  advance_all p (xs ++ ys) = advance_all (advance_all p xs) ys.
Proof. unfold advance_all. apply fold_left_app. Qed.

(** One more rune in the current run. *)
Lemma path_read R b c ts x pend :
  path R b c ts (x :: pend) -> path R b (c ++ [x]) ts pend.
Proof.
  intros (b1 & gap & Hb & Hg & H). exists b1, gap.
  split; [exact Hb|]. split; [exact Hg|]. now rewrite <- !app_assoc.
Qed.

(** The current run is discarded. *)
Lemma path_skip R b c ts pend :
  path R b c ts pend -> skippable c -> path R (b ++ c) [] ts pend.
Proof.
  intros (b1 & gap & Hb & Hg & H) Hc. exists b1, (gap ++ c).
  split; [now rewrite Hb, <- app_assoc|].
  split; [apply Forall_app; split; assumption|].
  simpl. now rewrite <- app_assoc.
Qed.

(** The current run is sent as a token. *)
Lemma follows_emit b c ts pend t :
  path (followsTo discarded) b c ts pend ->
  scanned (typ t) = true -> val t = map fst c -> pos t = advance_all p0 b ->
  followsTo discarded inp p0 (ts ++ [t]) pend (advance_all p0 (b ++ c)).
Proof.
  intros (b1 & gap & Hb & Hg & H) Hs Hv Hp. subst b.
  rewrite <- app_assoc, advance_all_app.
  apply followsTo_run_snoc; auto. now rewrite Hp, advance_all_app.
Qed.

Lemma tracks_emit b c ts pend t :
  path (tracks discarded) b c ts pend ->
  scanned (typ t) = true -> val t = map fst c -> pos t = advance_all p0 b ->
  tracks discarded inp p0 (ts ++ [t]) pend (advance_all p0 (b ++ c)).
Proof.
  intros (b1 & gap & Hb & Hg & H) Hs Hv Hp. subst b.
  rewrite <- app_assoc, advance_all_app.
  apply tracks_run_snoc; auto. now rewrite Hp, advance_all_app.
Qed.

(** After a token has been sent, the next run starts where it ended. *)
Lemma path_start R b ts pend :
  R inp p0 ts pend (advance_all p0 b) -> path R b [] ts pend.
Proof.
  intros H. exists b, []. split; [now rewrite app_nil_r|]. split; [constructor|].
  exact H.
Qed.

(** An error token or a dispatch token is no run of [followsTo]. *)
Lemma follows_aside b c ts pend t :
  path (followsTo discarded) b c ts pend -> scanned (typ t) = false ->
  path (followsTo discarded) b c (ts ++ [t]) pend.
Proof.
  intros (b1 & gap & Hb & Hg & H) Hs. exists b1, gap.
  split; [exact Hb|]. split; [exact Hg|]. now apply followsTo_other_snoc.
Qed.

(** An error token, at the start of the current run. *)
Lemma tracks_error_here b c ts pend t :
  path (tracks discarded) b c ts pend ->
  typ t = tokError -> pos t = advance_all p0 b ->
  exists r q, tracks discarded inp p0 (ts ++ [t]) r q.
Proof.
  intros (b1 & gap & Hb & Hg & H) Ht Hp. subst b.
  eexists. eexists. apply tracks_error_snoc; eauto.
  now rewrite Hp, advance_all_app.
Qed.

Lemma ok_bind {A B} (m : M A) (k : A -> M B) l (Q : A -> lexer -> Prop)
    (R : B -> lexer -> Prop) :
  ok (m l) Q -> (forall a l', Q a l' -> ok (k a l') R) -> ok (bind m k l) R.
Proof.
  intros H HK. unfold bind.
  destruct (m l) as [a l'|[e|msg] l'|]; simpl in *; auto.
Qed.

Lemma ok_weaken {A} (r : result A) (Q Q' : A -> lexer -> Prop) :
  ok r Q -> (forall a l', Q a l' -> Q' a l') -> ok r Q'.
Proof. unfold ok. destruct r as [a l'|[e|msg] l'|]; auto. Qed.

Lemma Inv_length b c l : Inv b c l ->
  length inp = (length (b ++ c) + length (pending (input l)))%nat.
Proof.
  intros (H & _). rewrite H at 1. rewrite !length_app. lia.
Qed.

(** [next]: one more rune in the current run, or the end of the input. *)
Lemma next_ok b c l : Inv b c l ->
  ok (next l) (fun re l' =>
    if (snd re : bool)
    then Inv b c l' /\ pending (input l') = [] /\ fl = None
    else exists w,
      Inv b (c ++ [(fst re, w)]) l'
      /\ pending (input l) = (fst re, w) :: pending (input l')
      /\ back l' = Ret tt (mkLexer (name l)
                             (mkReader (pending (input l)) (failure (input l)) None)
                             (lpos l) (start l) None (tokens l) (lval l))).
Proof.
  intros (Hin & Hs & Hp & Hv & Ht & Hfl & Hf & Hk).
  unfold next, ReadRune.
  destruct (pending (input l)) as [|[r w] rest] eqn:Hpend.
  - destruct (failure (input l)) eqn:Hfail; simpl.
    + split; [now rewrite <- Hfl|]. split; [reflexivity|].
      exists b, c. inv_split; simpl; auto.
      split; [exact Hfl|]. split; assumption.
    + split; [|split; [reflexivity|now rewrite <- Hfl]]. inv_split; simpl; auto.
      split; [exact Hfl|]. split; assumption.
  - simpl. exists w. split; [|split; [reflexivity|]].
    + inv_split; simpl; auto.
      * rewrite Hin. now rewrite <- !app_assoc.
      * rewrite advance_all_app, <- Hp. reflexivity.
      * rewrite map_app, Hv. reflexivity.
      * split; [exact Hfl|]. split; now apply path_read.
    + unfold back. simpl. destruct (lval l ++ [r]) eqn:E.
      * now destruct (lval l).
      * rewrite <- E, removelast_last. reflexivity.
Qed.

Lemma Inv_forget b c l :
  Inv b c l ->
  Inv b c (mkLexer (name l) (mkReader (pending (input l)) (failure (input l)) None)
                   (lpos l) (start l) None (tokens l) (lval l)).
Proof. intros (Hin & Hs & Hp & Hv & Ht & Htr). inv_split; simpl; auto. Qed.

(** [skip] discards the current run. *)
Lemma skip_ok b c l : Inv b c l -> skippable c ->
  ok (skip l) (fun _ l' => Inv (b ++ c) [] l' /\ input l' = input l).
Proof.
  intros (Hin & Hs & Hp & Hv & Ht & Hfl & Hf & Hk) Hc. simpl.
  split; [|reflexivity]. inv_split; simpl; auto.
  - now rewrite <- app_assoc.
  - now rewrite advance_all_app, <- Hs, <- Hp.
  - split; [exact Hfl|]. split; now apply path_skip.
Qed.

Lemma located_cur b c l t : Inv b c l ->
  located inp p0 (mkToken t (start l) (lval l)).
Proof.
  intros (Hin & Hs & Hp & Hv & Ht & Htr).
  exists b, c, (pending (input l)). simpl. auto.
Qed.

(** Sending the current run as a token. *)
Lemma trail_emit b c l t : Inv b c l -> scanned t = true ->
  followsTo discarded inp p0 (tokens l ++ [mkToken t (start l) (lval l)])
            (pending (input l)) (advance_all p0 (b ++ c))
  /\ tracks discarded inp p0 (tokens l ++ [mkToken t (start l) (lval l)])
            (pending (input l)) (advance_all p0 (b ++ c)).
Proof.
  intros (Hin & Hs & Hp & Hv & Ht & Hfl & Hf & Hk) Hsc.
  split; [apply follows_emit with (c := c)|apply tracks_emit with (c := c)]; auto.
Qed.

Lemma plain_scanned t : plain t = true -> scanned t = true.
Proof. destruct t; try discriminate; reflexivity. Qed.

Lemma sound_snoc ts t :
  sound ts -> boundary_ok inp p0 t -> terminal t = false -> lexical t = true ->
  sound (ts ++ [t]).
Proof.
  intros (H1 & H2 & H3) H4 H5 H6.
  split; [|split]; apply Forall_app; split; auto.
Qed.

Lemma emit_ok b c l t : Inv b c l -> plain t = true ->
  ok (emit t l) (fun _ l' => Inv (b ++ c) [] l' /\ input l' = input l).
Proof.
  intros HI Hpl. pose proof (located_cur b c l t HI) as Hloc.
  pose proof (trail_emit b c l t HI (plain_scanned t Hpl)) as [Hfol Htrk].
  destruct HI as (Hin & Hs & Hp & Hv & Ht & Hfl & _). simpl.
  split; [|reflexivity]. inv_split; simpl; auto.
  - now rewrite <- app_assoc.
  - now rewrite advance_all_app, <- Hs, <- Hp.
  - apply sound_snoc; auto.
    + unfold boundary_ok. simpl. destruct t; try discriminate; exact Hloc.
    + unfold terminal. simpl. destruct t; try discriminate; reflexivity.
    + unfold lexical. simpl. destruct t; try discriminate; reflexivity.
  - split; [exact Hfl|]. split; now apply path_start.
Qed.

Lemma Final_snoc ts t l :
  tokens l = ts ++ [t] -> sound ts -> boundary_ok inp p0 t -> lexical t = true ->
  successive discarded inp p0 (ts ++ [t]) ->
  (exists r q, tracks discarded inp p0 (ts ++ [t]) r q) ->
  (terminal t = true
   \/ (typ t = tokOctothorpe /\ exists pre w, inp = pre ++ [(ch "#", w)])) ->
  (typ t = tokEOF ->
   pos t = advance_all p0 inp /\ val t = []
   /\ followsTo discarded inp p0 (ts ++ [t]) [] (advance_all p0 inp)
   /\ tracks discarded inp p0 (ts ++ [t]) [] (advance_all p0 inp)) ->
  (fl = None \/ typ t = tokError) ->
  Final l.
Proof.
  intros E (H1 & H2 & H3) H4 H5 Hsucc Htrk H6 H7 H8. unfold Final. rewrite E.
  split; [|split; [|split; [|split]]].
  - apply Forall_app; split; auto.
  - apply Forall_app; split; auto.
  - exact Hsucc.
  - exact Htrk.
  - exists ts, t. auto.
Qed.

Lemma eof_ok b l : Inv b [] l -> pending (input l) = [] -> fl = None ->
  ok (eof l) (fun st l' => st = None /\ Final l').
Proof.
  intros HI Hnil Hnone. pose proof (located_cur b [] l tokEOF HI) as Hloc.
  pose proof (trail_emit b [] l tokEOF HI eq_refl) as [Hfol Htrk].
  destruct HI as (Hin & Hs & Hp & Hv & Ht & Htr). simpl. split; [reflexivity|].
  rewrite Hnil in *. rewrite !app_nil_r in *. subst b.
  eapply Final_snoc; simpl; eauto.
  eexists. eexists. exact Hfol.
Qed.

Lemma errorf_ok b c l msg : Inv b c l ->
  ok (errorf msg l) (fun st l' => st = None /\ Final l').
Proof.
  intros (Hin & Hs & Hp & Hv & Ht & Hfl & Hf & Hk). simpl.
  split; [reflexivity|].
  eapply Final_snoc; simpl; eauto; try exact I.
  - destruct (follows_aside b c _ _ (mkToken tokError (start l) msg) Hf eq_refl)
      as (b1 & gap & _ & _ & H).
    eexists. eexists. exact H.
  - now apply (tracks_error_here b c (tokens l) (pending (input l))).
  - discriminate.
Qed.

Lemma pending_shrinks b c x l l1 :
  Inv b c l -> Inv b (c ++ [x]) l1 ->
  length (pending (input l)) = S (length (pending (input l1))).
Proof.
  intros H H1. apply Inv_length in H, H1.
  rewrite !length_app in *. simpl in *. lia.
Qed.

(** [scanWhile f] adds to the current run runes that satisfy [f]. *)
Lemma scanWhile_loop_ok f b : forall fuel c l,
  Inv b c l -> (length (pending (input l)) < fuel)%nat ->
  ok (scanWhile_loop fuel f l)
     (fun _ l' => exists c', Inv b (c ++ c') l'
                             /\ Forall (fun x => f (fst x) = true) c').
Proof.
  induction fuel as [|fuel IH]; intros c l HI Hlen; [lia|].
  simpl. eapply ok_bind; [apply next_ok, HI|].
  intros [r e] l1 H1. simpl in *. destruct e.
  - exists []. rewrite app_nil_r. split; [apply H1|constructor].
  - destruct H1 as (w & HI1 & Hpd & Hback). destruct (f r) eqn:Ef; simpl.
    + eapply ok_weaken.
      * apply IH; [exact HI1|]. pose proof (pending_shrinks _ _ _ _ _ HI HI1). lia.
      * simpl. intros _ l' (c' & HI' & Hall). exists ((r, w) :: c').
        split; [now rewrite <- app_assoc in HI'|]. constructor; assumption.
    + rewrite Hback. simpl. exists []. rewrite app_nil_r.
      split; [now apply Inv_forget|constructor].
Qed.

Lemma scanWhile_ok f b c l : Inv b c l ->
  ok (scanWhile f l)
     (fun _ l' => exists c', Inv b (c ++ c') l'
                             /\ Forall (fun x => f (fst x) = true) c').
Proof. intros HI. apply scanWhile_loop_ok; [exact HI|]. unfold remaining. lia. Qed.

Lemma scanUntil_loop_ok set b : forall fuel c l,
  Inv b c l -> (length (pending (input l)) < fuel)%nat ->
  ok (scanUntil_loop fuel set l) (fun _ l' => exists c', Inv b (c ++ c') l').
Proof.
  induction fuel as [|fuel IH]; intros c l HI Hlen; [lia|].
  simpl. eapply ok_bind; [apply next_ok, HI|].
  intros [r e] l1 H1. simpl in *. destruct e.
  - exists []. rewrite app_nil_r. apply H1.
  - destruct H1 as (w & HI1 & Hpd & Hback). destruct (existsb (Z.eqb r) set); simpl.
    + exists [(r, w)]. exact HI1.
    + eapply ok_weaken.
      * apply IH; [exact HI1|]. pose proof (pending_shrinks _ _ _ _ _ HI HI1). lia.
      * simpl. intros _ l' (c' & HI'). exists ((r, w) :: c').
        now rewrite <- app_assoc in HI'.
Qed.

Lemma scanUntil_ok set b c l : Inv b c l ->
  ok (scanUntil set l) (fun _ l' => exists c', Inv b (c ++ c') l').
Proof. intros HI. apply scanUntil_loop_ok; [exact HI|]. unfold remaining. lia. Qed.

(** What a state other than [lexOuter] hands back. *)
Definition toOuter (b c : list (rune * Z)) (st : option stateFn) (l' : lexer) : Prop :=
  match st with
  | Some s' => s' = lexOuter /\ exists c', Inv (b ++ c ++ c') [] l'
  | None => Final l'
  end.

Lemma emit_toOuter t b c c' l : Inv b (c ++ c') l -> plain t = true ->
  ok ((emit t ;;; ret (Some lexOuter)) l) (toOuter b c).
Proof.
  intros HI Hpl. eapply ok_bind; [apply emit_ok; eauto|].
  simpl. intros _ l' [HI' _]. split; [reflexivity|]. exists c'. exact HI'.
Qed.

Lemma scan_emit_toOuter f t b c l : Inv b c l -> plain t = true ->
  ok ((scanWhile f ;;; emit t ;;; ret (Some lexOuter)) l) (toOuter b c).
Proof.
  intros HI Hpl. eapply ok_bind; [apply scanWhile_ok, HI|].
  simpl. intros _ l' (c' & HI' & _). now apply (emit_toOuter t b c c').
Qed.

Lemma lexString_loop_ok b c0 : forall fuel esc c l,
  Inv b (c0 ++ c) l -> (length (pending (input l)) < fuel)%nat ->
  ok (lexString_loop fuel esc l) (toOuter b c0).
Proof.
  induction fuel as [|fuel IH]; intros esc c l HI Hlen; [lia|].
  simpl. eapply ok_bind; [apply next_ok, HI|].
  intros [r e] l1 H1. simpl in *. destruct e.
  - eapply ok_weaken; [eapply errorf_ok; apply H1|]. simpl. now intros st l' [-> HF].
  - destruct H1 as (w & HI1 & Hpd & Hback).
    pose proof (pending_shrinks _ _ _ _ _ HI HI1) as Hsh.
    rewrite <- app_assoc in HI1.
    destruct (r =? ch "034"); [destruct esc; simpl|destruct (r =? ch "\")].
    + apply (IH false (c ++ [(r, w)])); [exact HI1|lia].
    + apply (emit_toOuter tokString b c0 (c ++ [(r, w)])); [exact HI1|reflexivity].
    + apply (IH (negb esc) (c ++ [(r, w)])); [exact HI1|lia].
    + apply (IH false (c ++ [(r, w)])); [exact HI1|lia].
Qed.

Lemma single_plain r t : single r = Some t -> plain t = true.
Proof.
  unfold single.
  repeat match goal with
         | |- context [if ?x then _ else _] => destruct x
         end; intros [= <-]; reflexivity.
Qed.

(** What a call of a state leaves: the next state with its precondition
    and a higher rank, or a scanner that has stopped. *)
Definition after (s : stateFn) (b c : list (rune * Z))
    (st : option stateFn) (l' : lexer) : Prop :=
  match st with
  | Some s' =>
      exists b' c', Inv b' c' l' /\ state_pre s' c' /\ (rank s b c < rank s' b' c')%nat
  | None => Final l'
  end.

Lemma toOuter_after s b c st l' :
  s <> lexOuter -> toOuter b c st l' -> after s b c st l'.
Proof.
  intros Hs. destruct st as [s'|]; simpl; [|tauto].
  intros (-> & c' & HI). exists (b ++ c ++ c'), []. split; [exact HI|].
  split; [reflexivity|].
  destruct s; try congruence; simpl; rewrite ?length_app; lia.
Qed.

Lemma lexDispatch_ok b c l : Inv b c l -> state_pre lexDispatch c ->
  ok (lexDispatch_fn l) (toOuter b c).
Proof.
  intros HI (w1 & ->). unfold lexDispatch_fn.
  eapply ok_bind; [apply next_ok, HI|].
  intros [r e] l1 H1. simpl in H1. destruct e; simpl.
  - destruct H1 as (HI1 & Hnil & Hnone).
    pose proof (located_cur _ _ _ tokOctothorpe HI1) as Hloc.
    pose proof (trail_emit _ _ _ tokOctothorpe HI1 eq_refl) as [Hfol Htrk].
    destruct HI1 as (Hin & Hs & Hp & Hv & Ht & Htr).
    eapply Final_snoc; simpl; eauto.
    + eexists. eexists. exact Hfol.
    + right. split; [reflexivity|]. exists b, w1. rewrite Hin, Hnil. reflexivity.
    + discriminate.
  - destruct H1 as (w & HI1 & Hpd & Hback). unfold bind at 1.
    unfold bind at 1. rewrite Hback. unfold bind at 1.
    assert (Hsharp : skippable [(ch "#", w1)]).
    { constructor; [apply octothorpe_discarded|constructor]. }
    pose proof (skip_ok _ _ _ (Inv_forget _ _ _ HI) Hsharp) as [Hsk _].
    simpl in Hsk. unfold skip, modify.
    match goal with |- context [if ?x then _ else _] => destruct x eqn:Hfive end.
    + apply dispatch_rune_kept in Hfive.
      simpl. split; [reflexivity|]. exists []. simpl.
      destruct Hsk as (Hin & Hs & Hp & Hv & Ht & Hfl & Hf & _).
      destruct HI1 as (Hin1 & _ & _ & Hv1 & _).
      inv_split; simpl; auto.
      * apply sound_snoc; auto.
        unfold boundary_ok. simpl. exists b, r, w1, w, (pending (input l1)).
        simpl. rewrite Hv1. split; [|reflexivity]. rewrite Hin1. reflexivity.
      * split; [exact Hfl|]. split; [now apply follows_aside|].
        destruct HI as (_ & _ & _ & _ & _ & _ & _ & b1 & gap & Hb & Hg & Hk).
        apply path_start. cbn [tokens send input pending]. rewrite Hpd.
        cbn [app] in Hk. rewrite Hpd in Hk. subst b.
        rewrite <- app_assoc, advance_all_app.
        apply tracks_dispatch_snoc; auto.
    + simpl. split; [reflexivity|]. exists []. exact Hsk.
Qed.

Lemma lexOuter_ok b l : Inv b [] l ->
  ok (lexOuter_fn l) (after lexOuter b []).
Proof.
  intros HI. unfold lexOuter_fn.
  eapply ok_bind; [apply next_ok, HI|].
  intros [r e] l1 H1. simpl in H1. destruct e; cbn [fst snd].
  - destruct H1 as (HI1 & Hnil & Hnone).
    eapply ok_weaken; [eapply eof_ok; eassumption|]. simpl. now intros st l' [-> HF].
  - destruct H1 as (w & HI1 & Hpd & Hback). simpl in HI1.
    assert (Hgo : forall s', state_pre s' [(r, w)] -> s' <> lexOuter ->
                    ok (ret (Some s') l1) (after lexOuter b [])).
    { intros s' Hpre Hne. simpl. exists b, [(r, w)]. split; [exact HI1|].
      split; [exact Hpre|]. rewrite ?app_nil_r.
      destruct s'; try congruence; simpl; rewrite ?length_app; simpl; lia. }
    destruct (r =? ch ";"); [now apply Hgo|].
    destruct (r =? ch "034"); [now apply Hgo|].
    destruct (r =? ch "\"); [now apply Hgo|].
    destruct (r =? ch ":"); [now apply Hgo|].
    destruct (r =? ch "%"); [now apply Hgo|].
    destruct (r =? ch "#") eqn:Eh.
    { apply Hgo; [|discriminate]. apply Z.eqb_eq in Eh. subst r. now exists w. }
    destruct ((r =? ch "+") || (r =? ch "-")).
    { eapply ok_bind; [apply next_ok, HI1|].
      intros [r2 e2] l2 H2. simpl in H2. destruct e2; cbn [fst snd].
      - destruct H2 as (HI2 & Hnil2 & Hnone2).
        eapply ok_bind; [apply emit_ok; eauto|].
        simpl. intros _ l3 [HI3 Hin3].
        assert (Hnil3 : pending (input l3) = []) by now rewrite Hin3.
        pose proof (eof_ok _ _ HI3 Hnil3 Hnone2) as H3.
        simpl in H3. apply H3.
      - destruct H2 as (w2 & HI2 & Hpd2 & Hback2). unfold bind. rewrite Hback2.
        assert (HI1' := Inv_forget _ _ _ HI1).
        destruct ((ch "0" <=? r2) && (r2 <=? ch "9")); simpl;
          exists b, [(r, w)]; (split; [exact HI1'|]); (split; [exact I|]);
          rewrite ?app_nil_r, ?length_app; simpl; lia. }
    destruct (single r) as [t|] eqn:Esingle.
    { eapply ok_bind; [apply emit_ok; eauto using single_plain|].
      simpl. intros _ l2 [HI2 _]. exists (b ++ [(r, w)]), []. split; [exact HI2|].
      split; [reflexivity|]. rewrite ?app_nil_r, ?length_app. simpl. lia. }
    destruct (isWhitespace r) eqn:Ews.
    { apply Hgo; [|discriminate].
      constructor; [now apply isWhitespace_discarded|constructor]. }
    destruct ((ch "0" <=? r) && (r <=? ch "9")); [now apply Hgo|].
    destruct (isSymbolChar r); [now apply Hgo|].
    eapply ok_weaken; [eapply errorf_ok; apply HI1|]. simpl. now intros st l' [-> HF].
Qed.

Lemma call_ok s b c l : Inv b c l -> state_pre s c ->
  ok (call s l) (after s b c).
Proof.
  intros HI Hpre. destruct s; simpl call.
  - simpl in Hpre. subst c. now apply lexOuter_ok.
  - eapply ok_weaken; [|intros st l'; now apply toOuter_after].
    unfold lexWhitespace_fn. eapply ok_bind; [apply scanWhile_ok, HI|].
    simpl. intros _ l1 (c' & HI1 & Hall). split; [reflexivity|]. exists c'.
    assert (Hsk : skippable (c ++ c')).
    { apply Forall_app. split; [exact Hpre|].
      eapply Forall_impl; [exact Hall|]. intros x. apply isWhitespace_discarded. }
    pose proof (skip_ok _ _ _ HI1 Hsk) as [HI2 _]. exact HI2.
  - eapply ok_weaken; [|intros st l'; now apply toOuter_after].
    unfold lexComment_fn. eapply ok_bind; [apply scanUntil_ok, HI|].
    simpl. intros _ l1 (c' & HI1). now apply (emit_toOuter tokComment b c c').
  - eapply ok_weaken; [|intros st l'; now apply toOuter_after].
    unfold lexString_fn. apply (lexString_loop_ok b c (remaining l) false []).
    + now rewrite app_nil_r.
    + unfold remaining. lia.
  - eapply ok_weaken; [|intros st l'; now apply toOuter_after].
    unfold lexCharLiteral_fn. eapply ok_bind; [apply next_ok, HI|].
    intros [r e] l1 H1. simpl in H1. destruct e; cbn [fst snd].
    + eapply ok_weaken; [eapply errorf_ok; apply H1|]. simpl. now intros st l' [-> HF].
    + destruct H1 as (w & HI1 & _).
      eapply ok_weaken; [apply scan_emit_toOuter; [exact HI1|reflexivity]|].
      intros [s'|] l'; simpl; [|tauto]. intros (-> & c' & HI').
      split; [reflexivity|]. exists ((r, w) :: c').
      now rewrite <- !app_assoc in HI'.
  - eapply ok_weaken; [|intros st l'; now apply toOuter_after].
    now apply scan_emit_toOuter.
  - eapply ok_weaken; [|intros st l'; now apply toOuter_after].
    now apply scan_emit_toOuter.
  - eapply ok_weaken; [|intros st l'; now apply toOuter_after].
    now apply lexDispatch_ok.
  - eapply ok_weaken; [|intros st l'; now apply toOuter_after].
    now apply scan_emit_toOuter.
  - eapply ok_weaken; [|intros st l'; now apply toOuter_after].
    now apply scan_emit_toOuter.
Qed.

Lemma rank_bound s b c l : Inv b c l -> (rank s b c <= 2 * length inp + 1)%nat.
Proof.
  intros HI. apply Inv_length in HI. destruct s; simpl; lia.
Qed.

Lemma run_loop_ok : forall fuel s b c l,
  Inv b c l -> state_pre s c ->
  (2 * length inp + 1 < fuel + rank s b c)%nat ->
  ok (run_loop fuel (Some s) l) (fun _ l' => Final l').
Proof.
  induction fuel as [|fuel IH]; intros s b c l HI Hpre Hfuel.
  - pose proof (rank_bound s _ _ _ HI). lia.
  - simpl. eapply ok_bind; [apply call_ok; eauto|].
    intros [s'|] l' Ha; simpl in Ha.
    + destruct Ha as (b' & c' & HI' & Hpre' & Hrank).
      apply (IH s' b' c'); auto. lia.
    + destruct fuel; exact Ha.
Qed.

End Invariant.

(** *** Whole runs *)

Lemma Inv_fresh nm b :
  Inv (pending b) (mkPos nm 0 1 1) (failure b) [] [] (fresh nm b).
Proof.
  unfold Inv, sound, trail, path. simpl.
  repeat split; try constructor; exists [], [];
    (split; [reflexivity|]); split; constructor.
Qed.

(** How a run ends: the channel is closed after the tokens of [ends], or
    the read error of the input, met when all of it had been read, is
    reported in an error token after sound tokens that follow one another
    in the input. *)
Lemma lex_stops nm b :
  match lex nm b with
  | Closed ts => ends (pending b) (mkPos nm 0 1 1) (failure b) ts
  | Recovered ts =>
      exists ts' t e,
        ts = ts' ++ [t] /\ typ t = tokError
        /\ failure b = Some e
        /\ val t = runes "error while scanning: " ++ runes e
        /\ sound (pending b) (mkPos nm 0 1 1) ts'
        /\ successive discarded (pending b) (mkPos nm 0 1 1) ts'
        /\ (exists r q, tracks discarded (pending b) (mkPos nm 0 1 1) ts r q)
  | Crashed _ _ => False
  | Diverged => False
  end.
Proof.
  assert (H : ok (pending b) (mkPos nm 0 1 1) (failure b)
                (run_loop (2 * remaining (fresh nm b)) (Some lexOuter) (fresh nm b))
                (fun _ l' => Final (pending b) (mkPos nm 0 1 1) (failure b) l')).
  { apply run_loop_ok with (b := []) (c := []).
    - apply Inv_fresh.
    - reflexivity.
    - unfold remaining. simpl. lia. }
  unfold lex, run.
  destruct (run_loop _ _ _) as [[] l'|[e|msg] l'|]; unfold ok in H.
  - exact H.
  - destruct H as (Hfl & Hnil & b' & c' & HI).
    destruct HI as (_ & Hst & _ & _ & Hs & _ & (b1 & gap & _ & _ & Hf) & Hk).
    exists (tokens l'), (mkToken tokError (start l')
                          (runes "error while scanning: " ++ runes e)), e.
    split; [reflexivity|]. split; [reflexivity|]. split; [exact Hfl|].
    split; [reflexivity|]. split; [exact Hs|].
    split; [eexists; eexists; exact Hf|].
    eapply tracks_error_here; [exact Hk|reflexivity|exact Hst].
  - exact H.
  - exact H.
Qed.


(** The tokens sent end with the only terminal token, unless the input
    ends with a ['#'] that [lexDispatch] meets at the end of the input:
    then the octothorpe is the last token and the channel is closed
    after it. *)
Theorem one_terminal_token nm b :
  exists ts t,
    (lex nm b = Closed (ts ++ [t]) \/ lex nm b = Recovered (ts ++ [t]))
    /\ Forall (fun t => terminal t = false) ts
    /\ (terminal t = true
        \/ (typ t = tokOctothorpe /\ exists pre w, pending b = pre ++ [(ch "#", w)])).
Proof.
  pose proof (lex_stops nm b) as H. destruct (lex nm b) as [ts|ts| |].
  - destruct H as (_ & _ & _ & _ & ts' & t & -> & Hn & Ht & _).
    exists ts', t. auto.
  - destruct H as (ts' & t & e & -> & Ht & _ & _ & (_ & Hn & _) & _).
    exists ts', t. split; [now right|]. split; [exact Hn|].
    left. unfold terminal. now rewrite Ht.
  - contradiction.
  - contradiction.
Qed.

(** C1: on the input ["#"] the scanner sends the octothorpe and closes
    the channel: no end-of-input token and no error token is sent. *)
Theorem lone_octothorpe_unterminated nm :
  lex nm (text "#") = Closed [mkToken tokOctothorpe (mkPos nm 0 1 1) [ch "#"]].
Proof. vm_compute. reflexivity. Qed.

Definition shapes (o : outcome) : option (list (tokType * list rune)) :=
  match o with
  | Closed ts => Some (map shape ts)
  | _ => None
  end.

(** C2 (as amended): ["#_foo"] is a dispatch token ["#_"] and then the
    symbol ["_foo"], the second rune of the dispatch token being scanned
    again; after ["# "] and after ["#"] the symbols ["foo"] and ["bar"]
    are scanned as usual. *)
Theorem dispatch_lookahead nm :
  shapes (lex nm (text "#_foo"))
  = Some [(tokDispatch, runes "#_"); (tokSymbol, runes "_foo"); (tokEOF, [])]
  /\ (exists pre, shapes (lex nm (text "# foo"))
                  = Some (pre ++ [(tokSymbol, runes "foo"); (tokEOF, [])]))
  /\ (exists pre, shapes (lex nm (text "#bar"))
                  = Some (pre ++ [(tokSymbol, runes "bar"); (tokEOF, [])])).
Proof.
  split; [vm_compute; reflexivity|]. split; exists []; vm_compute; reflexivity.
Qed.

(** The double quote, and a string in double quotes. *)
Definition dq : string := String "034" EmptyString.

Definition quoted (s : string) : string := (dq ++ s ++ dq)%string.

(** C5 (as amended): the text of the string token is the literal with
    its two quotes; the escaped quote does not end it.  Without a closing
    quote the only token is the error. *)
Theorem string_tokens nm :
  shapes (lex nm (text (quoted ("a\" ++ dq ++ "b"))))
  = Some [(tokString, runes (quoted ("a\" ++ dq ++ "b"))); (tokEOF, [])]
  /\ shapes (lex nm (text (dq ++ "unterminated")))
     = Some [(tokError, runes "reached EOF before string closing quote")].
Proof. split; vm_compute; reflexivity. Qed.


(** *** Comments *)

Definition newline : rune := ch "010".

(** The input ahead is [body ++ tl], where [body] holds no newline and
    [tl] is empty at the end of the input or starts with the newline. *)
Definition line_ahead (l : lexer) (body tl : list (rune * Z)) : Prop :=
  Forall (fun x => fst x <> newline) body
  /\ pending (input l) = body ++ tl
  /\ match tl with
     | [] => failure (input l) = None
     | x :: _ => fst x = newline
     end.

Lemma scanUntil_newline body : forall fuel l tl,
  line_ahead l body tl ->
  (length body < fuel)%nat ->
  exists l',
    scanUntil_loop fuel [newline] l = Ret tt l'
    /\ tokens l' = tokens l
    /\ start l' = start l
    /\ lval l' = lval l ++ map fst body ++ map fst (firstn 1 tl)
    /\ pending (input l') = skipn 1 tl.
Proof.
  induction body as [|[r w] body IH]; intros fuel l tl (Hb & Hp & Htl) Hfuel;
    (destruct fuel as [|fuel]; [simpl in Hfuel; lia|]).
  - simpl in Hp. simpl scanUntil_loop. unfold bind, next, ReadRune. rewrite Hp.
    destruct tl as [|[r w] rest].
    + rewrite Htl. simpl. eexists. split; [reflexivity|]. simpl.
      now rewrite app_nil_r.
    + simpl in Htl. subst r. simpl. rewrite ?Z.eqb_refl. simpl.
      eexists. split; [reflexivity|]. simpl. auto.
  - simpl in Hp. simpl scanUntil_loop. unfold bind, next, ReadRune. rewrite Hp.
    cbn [fst snd existsb]. inversion Hb as [|? ? Hr Hb']; subst. simpl in Hr.
    apply Z.eqb_neq in Hr. rewrite Hr. cbn [orb].
    match goal with |- context [scanUntil_loop fuel _ ?l1] =>
      destruct (IH fuel l1 tl) as (l' & E & Ht & Hs & Hv & Hpe)
    end.
    + repeat split; auto.
    + simpl in Hfuel. lia.
    + exists l'. rewrite E. repeat split; auto.
      rewrite Hv. simpl. now rewrite <- app_assoc.
Qed.

(** C4 (as amended): [lexComment] reads to the end of the line, the
    newline included, and sends what it has read as one comment token;
    the newline is the last rune of the comment's text, and scanning goes
    on after it.  At the end of the input the comment ends there. *)
Theorem comment_token l body tl :
  line_ahead l body tl ->
  exists l',
    lexComment_fn l = Ret (Some lexOuter) l'
    /\ tokens l' = tokens l ++ [mkToken tokComment (start l)
                                 (lval l ++ map fst body ++ map fst (firstn 1 tl))]
    /\ pending (input l') = skipn 1 tl
    /\ lval l' = [].
Proof.
  intros H.
  destruct (scanUntil_newline body (remaining l) l tl H) as (l1 & E & Ht & Hs & Hv & Hp).
  - destruct H as (_ & Hp & _). unfold remaining. rewrite Hp, length_app. lia.
  - unfold lexComment_fn, bind, scanUntil.
    change (runes (String "010" EmptyString)) with [newline]. rewrite E.
    simpl. eexists. split; [reflexivity|]. simpl.
    rewrite Ht, Hs, Hv. auto.
Qed.


(** *** The tokens of a run, all together *)

(** The tokens sent by [emit] are runs of the input that follow one
    another in the order they are sent: nothing is sent twice or out of
    order, and the runes between two runs are white space (commas
    included) or the ['#'] that [lexDispatch] skips.  Error tokens and the
    two-rune dispatch tokens stand outside this sequence. *)
Theorem tokens_in_order nm b :
  exists ts,
    (lex nm b = Closed ts \/ lex nm b = Recovered ts)
    /\ successive discarded (pending b) (mkPos nm 0 1 1) ts.
Proof.
  pose proof (lex_stops nm b) as H. destruct (lex nm b) as [ts|ts| |].
  - exists ts. split; [now left|]. apply H.
  - exists ts. split; [now right|].
    destruct H as (ts' & t & e & -> & Ht & _ & _ & _ & (r & q & Hf) & _).
    exists r, q. apply followsTo_other_snoc; [exact Hf|]. now rewrite Ht.
  - contradiction.
  - contradiction.
Qed.

(** An end-of-input token is sent only when the input ended without a
    read error; it has no text, its position is the one reached by
    reading the whole input, and the runs of the tokens together with the
    discarded runes make up the whole input. *)
Theorem eof_token_at_end nm b ts t :
  lex nm b = Closed (ts ++ [t]) -> typ t = tokEOF ->
  failure b = None
  /\ val t = []
  /\ pos t = advance_all (mkPos nm 0 1 1) (pending b)
  /\ followsTo discarded (pending b) (mkPos nm 0 1 1) (ts ++ [t]) [] (pos t).
Proof.
  intros E Ht. pose proof (lex_stops nm b) as H. rewrite E in H.
  destruct H as (_ & _ & _ & _ & ts0 & t0 & E0 & _ & _ & Heof & Hfl).
  apply app_inj_tail in E0 as [<- <-].
  destruct (Heof Ht) as (Hp & Hv & Hf & _).
  split; [|split; [exact Hv|split; [exact Hp|now rewrite Hp]]].
  destruct Hfl as [Hfl|Hfl]; [exact Hfl|]. rewrite Ht in Hfl. discriminate.
Qed.

(** The scanner never sends a [tokBool] or a [tokNil]: [true], [false]
    and [nil] leave it as symbols. *)
Theorem no_literal_tokens nm b :
  exists ts,
    (lex nm b = Closed ts \/ lex nm b = Recovered ts)
    /\ Forall (fun t => typ t <> tokBool /\ typ t <> tokNil) ts.
Proof.
  assert (Hlex : forall t, lexical t = true -> typ t <> tokBool /\ typ t <> tokNil).
  { intros t. unfold lexical. destruct (typ t); intros H; split; congruence. }
  pose proof (lex_stops nm b) as H. destruct (lex nm b) as [ts|ts| |].
  - exists ts. split; [now left|].
    destruct H as (_ & H & _). eapply Forall_impl; [exact H|exact Hlex].
  - exists ts. split; [now right|].
    destruct H as (ts' & t & e & -> & Ht & _ & _ & (_ & _ & H) & _).
    apply Forall_app. split; [eapply Forall_impl; [exact H|exact Hlex]|].
    constructor; [|constructor]. rewrite Ht. split; discriminate.
  - contradiction.
  - contradiction.
Qed.

(** When the input ends with [io.EOF], [run] ends by closing the channel:
    no read error is reported. *)
Theorem no_read_error_closes nm b :
  failure b = None -> exists ts, lex nm b = Closed ts.
Proof.
  intros Hnone. pose proof (lex_stops nm b) as H. destruct (lex nm b) as [ts|ts| |].
  - now exists ts.
  - destruct H as (ts' & t & e & _ & _ & He & _). congruence.
  - contradiction.
  - contradiction.
Qed.

(** When the input ends with a read error [e], the scanner sends no
    end-of-input token: either [run] recovers from the panic of [next]
    and the last token is the error token of [scanError], with the text
    of [e], the channel being left open; or the scanner had stopped
    before, on an error token of its own. *)
Theorem read_error_outcome nm b e :
  failure b = Some e ->
  (exists ts p,
     lex nm b = Recovered
                  (ts ++ [mkToken tokError p (runes "error while scanning: " ++ runes e)]))
  \/ (exists ts t, lex nm b = Closed (ts ++ [t]) /\ typ t = tokError).
Proof.
  intros He. pose proof (lex_stops nm b) as H. destruct (lex nm b) as [ts|ts| |].
  - right. destruct H as (_ & _ & _ & _ & ts0 & t0 & -> & _ & _ & _ & [Hfl|Hfl]);
      [congruence|]. now exists ts0, t0.
  - left. destruct H as (ts' & t & e' & -> & Ht & He' & Hv & _).
    exists ts', (pos t). destruct t as [ty p v]. simpl in *. subst ty v.
    congruence.
  - contradiction.
  - contradiction.
Qed.

(** *** The primitives, one at a time *)

(** The scanner after [next] has read [r], of width [w], before [rest]. *)
Definition afterRead (l : lexer) (r : rune) (w : Z) (rest : list (rune * Z)) : lexer :=
  mkLexer (name l) (mkReader rest (failure (input l)) (Some (r, w)))
          (advance (lpos l) r w) (start l) (Some (lpos l)) (tokens l)
          (lval l ++ [r]).

(** The scanner after that rune has been given back. *)
Definition givenBack (l : lexer) : lexer :=
  mkLexer (name l) (mkReader (pending (input l)) (failure (input l)) None)
          (lpos l) (start l) None (tokens l) (lval l).

Lemma next_read l r w rest :
  pending (input l) = (r, w) :: rest -> next l = Ret (r, false) (afterRead l r w rest).
Proof. intros Hp. unfold next, ReadRune. rewrite Hp. reflexivity. Qed.

Lemma next_eof l :
  pending (input l) = [] -> failure (input l) = None ->
  next l = Ret (0, true) (set_input (mkReader [] None None) l).
Proof. intros Hp Hf. unfold next, ReadRune. rewrite Hp, Hf. reflexivity. Qed.

Lemma back_read l r w rest :
  pending (input l) = (r, w) :: rest ->
  back (afterRead l r w rest) = Ret tt (givenBack l).
Proof.
  intros Hp. unfold back, afterRead, givenBack. simpl.
  destruct (lval l ++ [r]) eqn:E; [now destruct (lval l)|].
  rewrite <- E, removelast_last, Hp. reflexivity.
Qed.

Ltac decide_runes :=
  repeat match goal with
         | |- context [ch ?a =? ch ?b] =>
             let v := eval vm_compute in (ch a =? ch b) in
             change (ch a =? ch b) with v
         end;
  cbv iota; cbn [orb].

(** [back] undoes a [next] that has read a rune: the position, the text
    of the current run and the input are as before; only the single rune
    of backup is used up. *)
Theorem next_then_back l r l' :
  next l = Ret (r, false) l' ->
  exists l'',
    back l' = Ret tt l''
    /\ lpos l'' = lpos l /\ lval l'' = lval l
    /\ start l'' = start l /\ tokens l'' = tokens l
    /\ pending (input l'') = pending (input l)
    /\ failure (input l'') = failure (input l)
    /\ lastPos l'' = None.
Proof.
  unfold next, ReadRune.
  destruct (pending (input l)) as [|[r1 w] rest] eqn:Hp.
  - destruct (failure (input l)); discriminate.
  - intros [= <- <-]. unfold back. simpl.
    destruct (lval l ++ [r1]) eqn:E; [now destruct (lval l)|].
    rewrite <- E, removelast_last. eexists. split; [reflexivity|]. simpl.
    repeat split.
Qed.

(** A single rune of backup is supported: a [back] right after a [back]
    panics. *)
Theorem back_twice_panics l l' :
  back l = Ret tt l' ->
  back l' = Panic (fatal "back() call not preceded by a next()") l'.
Proof.
  unfold back. destruct (lastPos l); [|discriminate].
  destruct (UnreadRune (input l)); [|discriminate].
  destruct (lval l); [discriminate|]. intros [= <-]. reflexivity.
Qed.

(** Where a scan stops: at the end of the input, or at a rune that [f]
    rejects. *)
Definition stopsAt (f : rune -> bool) (l : lexer) (rest : list (rune * Z)) : Prop :=
  match rest with
  | [] => failure (input l) = None
  | x :: _ => f (fst x) = false
  end.

(** [ahead f l run rest]: the input ahead is [run], all of whose runes
    satisfy [f], and then [rest], where a scan with [f] stops. *)
Definition ahead (f : rune -> bool) (l : lexer) (run rest : list (rune * Z)) : Prop :=
  pending (input l) = run ++ rest
  /\ Forall (fun x => f (fst x) = true) run
  /\ stopsAt f l rest.

(** [scanWhile f] reads the longest run of runes that satisfy [f], and
    no more: the rune that stopped it is given back. *)
Lemma scanWhile_run f run : forall fuel l rest,
  ahead f l run rest -> (length run < fuel)%nat ->
  exists l',
    scanWhile_loop fuel f l = Ret tt l'
    /\ tokens l' = tokens l
    /\ start l' = start l
    /\ lval l' = lval l ++ map fst run
    /\ lpos l' = advance_all (lpos l) run
    /\ pending (input l') = rest.
Proof.
  induction run as [|[r w] run IH]; intros fuel l rest (Hp & Hall & Hstop) Hfuel;
    (destruct fuel as [|fuel]; [simpl in Hfuel; lia|]).
  - simpl in Hp. simpl scanWhile_loop. unfold bind, next, ReadRune. rewrite Hp.
    destruct rest as [|[r w] rest].
    + simpl in Hstop. rewrite Hstop. simpl. eexists. split; [reflexivity|]. simpl.
      now rewrite app_nil_r.
    + simpl in Hstop. cbn [fst snd]. rewrite Hstop. cbn [negb].
      unfold back. simpl.
      destruct (lval l ++ [r]) eqn:E; [now destruct (lval l)|].
      rewrite <- E, removelast_last. eexists. split; [reflexivity|]. simpl.
      now rewrite app_nil_r.
  - simpl in Hp. simpl scanWhile_loop. unfold bind, next, ReadRune. rewrite Hp.
    cbn [fst snd]. inversion Hall as [|? ? Hr Hall']; subst. simpl in Hr.
    rewrite Hr. cbn [negb].
    match goal with |- context [scanWhile_loop fuel f ?l1] =>
      destruct (IH fuel l1 rest) as (l' & E & Ht & Hs & Hv & Hpo & Hpe)
    end.
    + split; [reflexivity|]. split; [exact Hall'|].
      destruct rest; simpl in *; auto.
    + simpl in Hfuel. lia.
    + exists l'. rewrite E. repeat split; auto.
      rewrite Hv. simpl. now rewrite <- app_assoc.
Qed.

Lemma scanWhile_ahead f l run rest :
  ahead f l run rest ->
  exists l',
    scanWhile f l = Ret tt l'
    /\ tokens l' = tokens l
    /\ start l' = start l
    /\ lval l' = lval l ++ map fst run
    /\ lpos l' = advance_all (lpos l) run
    /\ pending (input l') = rest.
Proof.
  intros H. apply scanWhile_run; [exact H|].
  destruct H as (Hp & _). unfold remaining. rewrite Hp, length_app. lia.
Qed.

(** [lexWhitespace] reads the white space ahead, all of it, and discards
    it together with what had been read: no token is sent, and the next
    token starts at the first rune that is no white space. *)
Theorem lexWhitespace_skips l run rest :
  ahead isWhitespace l run rest ->
  exists l',
    lexWhitespace_fn l = Ret (Some lexOuter) l'
    /\ tokens l' = tokens l
    /\ lval l' = []
    /\ start l' = advance_all (lpos l) run
    /\ lpos l' = advance_all (lpos l) run
    /\ pending (input l') = rest.
Proof.
  intros H. destruct (scanWhile_ahead _ _ _ _ H) as (l1 & E & Ht & Hs & Hv & Hpo & Hpe).
  unfold lexWhitespace_fn, bind. rewrite E. simpl.
  eexists. split; [reflexivity|]. simpl. auto.
Qed.

(** The token kind of the states that scan symbol characters. *)
Definition kindOf (s : stateFn) : option tokType :=
  match s with
  | lexKeyword => Some tokKeyword
  | lexLambdaArg => Some tokLambdaArg
  | lexNumber => Some tokNumber
  | lexSymbol => Some tokSymbol
  | _ => None
  end.

(** [lexKeyword], [lexLambdaArg], [lexNumber] and [lexSymbol] send one
    token of their kind: its text is what had been read, with the
    longest run of symbol characters ahead; a number is scanned like a
    symbol, so ["3foo"] is one number token. *)
Theorem symbol_like_token s t l run rest :
  kindOf s = Some t ->
  ahead isSymbolChar l run rest ->
  exists l',
    call s l = Ret (Some lexOuter) l'
    /\ tokens l' = tokens l ++ [mkToken t (start l) (lval l ++ map fst run)]
    /\ lval l' = []
    /\ start l' = advance_all (lpos l) run
    /\ pending (input l') = rest.
Proof.
  intros Hk H.
  destruct (scanWhile_ahead _ _ _ _ H) as (l1 & E & Ht & Hs & Hv & Hpo & Hpe).
  destruct s; try discriminate Hk; injection Hk as <-; simpl call;
    unfold lexKeyword_fn, lexLambdaArg_fn, lexNumber_fn, lexSymbol_fn, bind;
    rewrite E; simpl; (eexists; split; [reflexivity|]); simpl;
    rewrite Ht, Hs, Hv; repeat split; auto.
Qed.

(** [lexCharLiteral] takes the rune after the backslash, whatever it is,
    and the symbol characters after it, and sends them with the backslash
    as one character-literal token. *)
Theorem char_literal_token l r w run rest :
  pending (input l) = (r, w) :: run ++ rest ->
  Forall (fun x => isSymbolChar (fst x) = true) run ->
  stopsAt isSymbolChar l rest ->
  exists l',
    lexCharLiteral_fn l = Ret (Some lexOuter) l'
    /\ tokens l' = tokens l ++ [mkToken tokCharLiteral (start l)
                                 (lval l ++ r :: map fst run)]
    /\ lval l' = []
    /\ pending (input l') = rest.
Proof.
  intros Hp Hall Hstop.
  unfold lexCharLiteral_fn, bind at 1. rewrite (next_read _ _ _ _ Hp). cbn [fst snd].
  destruct (scanWhile_ahead isSymbolChar (afterRead l r w (run ++ rest)) run rest)
    as (l2 & E & Ht & Hs & Hv & Hpo & Hpe).
  - split; [reflexivity|]. split; [exact Hall|]. destruct rest; simpl in *; auto.
  - unfold bind. rewrite E. simpl. eexists. split; [reflexivity|]. simpl.
    rewrite Ht, Hs, Hv. simpl. rewrite <- app_assoc. auto.
Qed.

(** *** Strings *)

Definition quote : rune := ch "034".

Definition backslash : rune := ch "\".

(** The number of backslashes that end [rs], after [k] of them. *)
Definition backslashes (k : nat) (rs : list rune) : nat :=
  fold_left (fun k r => if r =? backslash then S k else O) rs k.

(** Every quote of [body] comes after an odd number of backslashes. *)
Definition quotes_escaped (k : nat) (body : list (rune * Z)) : Prop :=
  forall pre w post,
    body = pre ++ (quote, w) :: post -> Nat.odd (backslashes k (map fst pre)) = true.

(** The same, as a test. *)
Fixpoint quotes_escapedb (k : nat) (body : list (rune * Z)) : bool :=
  match body with
  | [] => true
  | x :: body' =>
      (negb (fst x =? quote) || Nat.odd k)
      && quotes_escapedb (if fst x =? backslash then S k else O) body'
  end.

Lemma quotes_escapedb_spec body : forall k,
  quotes_escapedb k body = true -> quotes_escaped k body.
Proof.
  induction body as [|[r w] body IH]; intros k H pre w' post E.
  - now destruct pre.
  - simpl in H. apply andb_true_iff in H as [H1 H2].
    destruct pre as [|x pre]; simpl in E; injection E as E1 E2.
    + subst r. unfold quote in H1. rewrite Z.eqb_refl in H1. exact H1.
    + subst x. simpl. apply (IH _ H2 pre w' post E2).
Qed.

Lemma quotes_escaped_tail k r w body :
  quotes_escaped k ((r, w) :: body) ->
  quotes_escaped (if r =? backslash then S k else O) body.
Proof.
  intros H pre w' post E. apply (H ((r, w) :: pre) w' post). now rewrite E.
Qed.

Lemma lexString_step fuel k l r w rest :
  pending (input l) = (r, w) :: rest ->
  r <> quote \/ Nat.odd k = true ->
  lexString_loop (S fuel) (Nat.odd k) l
  = lexString_loop fuel (Nat.odd (if r =? backslash then S k else O))
      (mkLexer (name l) (mkReader rest (failure (input l)) (Some (r, w)))
               (advance (lpos l) r w) (start l) (Some (lpos l)) (tokens l)
               (lval l ++ [r])).
Proof.
  intros Hp Hq. simpl lexString_loop. unfold bind at 1, next, ReadRune. rewrite Hp.
  cbn [fst snd]. fold quote. fold backslash.
  destruct (r =? quote) eqn:Eq.
  - apply Z.eqb_eq in Eq. destruct Hq as [Hq|Hq]; [contradiction|].
    rewrite Hq. subst r. reflexivity.
  - destruct (r =? backslash); [|reflexivity].
    now rewrite Nat.odd_succ, <- Nat.negb_odd.
Qed.

(** The loop of [lexString], from [k] backslashes before the input
    ahead. *)
Lemma lexString_closes body : forall fuel k l w rest,
  pending (input l) = body ++ (quote, w) :: rest ->
  quotes_escaped k body ->
  Nat.odd (backslashes k (map fst body)) = false ->
  (length body < fuel)%nat ->
  exists l',
    lexString_loop fuel (Nat.odd k) l = Ret (Some lexOuter) l'
    /\ tokens l' = tokens l ++ [mkToken tokString (start l)
                                 (lval l ++ map fst body ++ [quote])]
    /\ lval l' = []
    /\ pending (input l') = rest.
Proof.
  induction body as [|[r w1] body IH]; intros fuel k l w rest Hp Hq Hodd Hfuel;
    (destruct fuel as [|fuel]; [simpl in Hfuel; lia|]).
  - simpl in *. unfold bind at 1, next, ReadRune. rewrite Hp. cbn [fst snd].
    fold quote. rewrite Z.eqb_refl, Hodd. simpl.
    eexists. split; [reflexivity|]. simpl. auto.
  - simpl in Hp. rewrite (lexString_step fuel k l r w1 _ Hp).
    + match goal with |- context [lexString_loop fuel _ ?l1] =>
        destruct (IH fuel (if r =? backslash then S k else O) l1 w rest)
          as (l' & E & Ht & Hv & Hpe)
      end.
      * reflexivity.
      * eapply quotes_escaped_tail, Hq.
      * exact Hodd.
      * simpl in Hfuel. lia.
      * exists l'. rewrite E. split; [reflexivity|]. rewrite Ht. simpl.
        rewrite <- app_assoc. auto.
    + destruct (Z.eq_dec r quote) as [->|Hne]; [right|now left].
      apply (Hq [] w1 body). reflexivity.
Qed.

(** The closing quote of a string is the first quote that comes after an
    even number of backslashes: [lexString] sends what had been read and
    the input up to that quote as one string token, and scanning goes on
    after the quote. *)
Theorem string_closing_quote l body w rest :
  pending (input l) = body ++ (quote, w) :: rest ->
  quotes_escaped 0 body ->
  Nat.even (backslashes 0 (map fst body)) = true ->
  exists l',
    lexString_fn l = Ret (Some lexOuter) l'
    /\ tokens l' = tokens l ++ [mkToken tokString (start l)
                                 (lval l ++ map fst body ++ [quote])]
    /\ lval l' = []
    /\ pending (input l') = rest.
Proof.
  intros Hp Hq Hev. unfold lexString_fn.
  apply (lexString_closes body (remaining l) 0%nat l w rest Hp Hq).
  - now rewrite <- Nat.negb_even, Hev.
  - unfold remaining. rewrite Hp, length_app. simpl. lia.
Qed.

Lemma lexString_open body : forall fuel k l,
  pending (input l) = body ->
  failure (input l) = None ->
  quotes_escaped k body ->
  (length body < fuel)%nat ->
  exists l',
    lexString_loop fuel (Nat.odd k) l = Ret None l'
    /\ tokens l' = tokens l
                   ++ [mkToken tokError (start l)
                         (runes "reached EOF before string closing quote")].
Proof.
  induction body as [|[r w1] body IH]; intros fuel k l Hp Hf Hq Hfuel;
    (destruct fuel as [|fuel]; [simpl in Hfuel; lia|]).
  - simpl. unfold bind at 1, next, ReadRune. rewrite Hp, Hf. simpl.
    eexists. split; reflexivity.
  - rewrite (lexString_step fuel k l r w1 _ Hp).
    + match goal with |- context [lexString_loop fuel _ ?l1] =>
        destruct (IH fuel (if r =? backslash then S k else O) l1)
          as (l' & E & Ht)
      end.
      * reflexivity.
      * exact Hf.
      * eapply quotes_escaped_tail, Hq.
      * simpl in Hfuel. lia.
      * exists l'. rewrite E. split; [reflexivity|]. exact Ht.
    + destruct (Z.eq_dec r quote) as [->|Hne]; [right|now left].
      apply (Hq [] w1 body). reflexivity.
Qed.

(** When every quote ahead is escaped, [lexString] reads the whole input
    and sends one error token; the text read is not sent. *)
Theorem string_unterminated l :
  failure (input l) = None ->
  quotes_escaped 0 (pending (input l)) ->
  exists l',
    lexString_fn l = Ret None l'
    /\ tokens l' = tokens l
                   ++ [mkToken tokError (start l)
                         (runes "reached EOF before string closing quote")].
Proof.
  intros Hf Hq. unfold lexString_fn.
  apply (lexString_open (pending (input l)) (remaining l) 0%nat l eq_refl Hf Hq).
  unfold remaining. lia.
Qed.

(** *** Looking ahead *)

(** After a sign, [lexOuter] looks at the next rune and gives it back:
    a digit makes the sign the start of a number, any other rune the
    start of a symbol, and nothing is sent yet. *)
Theorem sign_lookahead l s w r2 w2 rest :
  pending (input l) = (s, w) :: (r2, w2) :: rest ->
  s = ch "+" \/ s = ch "-" ->
  exists l',
    lexOuter_fn l
    = Ret (Some (if (ch "0" <=? r2) && (r2 <=? ch "9") then lexNumber else lexSymbol)) l'
    /\ tokens l' = tokens l
    /\ lval l' = lval l ++ [s]
    /\ lpos l' = advance (lpos l) s w
    /\ pending (input l') = (r2, w2) :: rest.
Proof.
  intros Hp Hs. unfold lexOuter_fn, bind at 1. rewrite (next_read _ _ _ _ Hp).
  cbn [fst snd].
  assert (Hp1 : pending (input (afterRead l s w ((r2, w2) :: rest)))
                = (r2, w2) :: rest) by reflexivity.
  exists (givenBack (afterRead l s w ((r2, w2) :: rest))).
  split; [|repeat split].
  destruct Hs as [-> | ->]; decide_runes;
    unfold bind at 1; rewrite (next_read _ _ _ _ Hp1); cbn [fst snd];
    unfold bind at 1; rewrite (back_read _ _ _ _ Hp1);
    destruct ((ch "0" <=? r2) && (r2 <=? ch "9")); reflexivity.
Qed.

(** A sign that ends the input is a symbol of its own, and the
    end-of-input token follows it. *)
Theorem sign_at_end l s w :
  pending (input l) = [(s, w)] -> failure (input l) = None ->
  s = ch "+" \/ s = ch "-" ->
  exists l',
    lexOuter_fn l = Ret None l'
    /\ tokens l' = tokens l
                   ++ [mkToken tokSymbol (start l) (lval l ++ [s]);
                       mkToken tokEOF (advance (lpos l) s w) []].
Proof.
  intros Hp Hf Hs. unfold lexOuter_fn, bind at 1. rewrite (next_read _ _ _ _ Hp).
  cbn [fst snd].
  assert (Hp1 : pending (input (afterRead l s w [])) = []) by reflexivity.
  assert (Hf1 : failure (input (afterRead l s w [])) = None) by exact Hf.
  destruct Hs as [-> | ->]; decide_runes;
    unfold bind at 1; rewrite (next_eof _ Hp1 Hf1); cbn [fst snd];
    (eexists; split; [reflexivity|]); cbn -[advance]; rewrite <- app_assoc;
    reflexivity.
Qed.

(** [lexDispatch] looks at the rune after the ['#'] and gives it back,
    so that it is scanned again; the ['#'] is discarded.  Before one of
    [{ ( ' _] and the double quote it sends a dispatch token, whose text
    is what had been read with that rune, and whose position is the one
    after the ['#']; before any other rune it sends nothing. *)
Theorem dispatch_gives_back l r w rest :
  pending (input l) = (r, w) :: rest ->
  exists l',
    lexDispatch_fn l = Ret (Some lexOuter) l'
    /\ tokens l'
       = tokens l
         ++ (if existsb (Z.eqb r) [ch "{"; ch "("; ch "'"; ch "034"; ch "_"]
             then [mkToken tokDispatch (lpos l) (lval l ++ [r])]
             else [])
    /\ lval l' = []
    /\ start l' = lpos l
    /\ lpos l' = lpos l
    /\ pending (input l') = (r, w) :: rest.
Proof.
  intros Hp. unfold lexDispatch_fn, bind at 1. rewrite (next_read _ _ _ _ Hp).
  cbn [fst snd]. unfold bind at 1. unfold bind at 1.
  rewrite (back_read _ _ _ _ Hp). unfold bind at 1, skip, modify.
  destruct (existsb (Z.eqb r) _); (eexists; split; [reflexivity|]); cbn;
    rewrite ?app_nil_r; repeat split; auto.
Qed.


(** *** Where symbols end *)

(** The runes that start something other than a symbol, a keyword or a
    number (the single-character tokens, the semicolon, the backslash,
    the percent sign, the ['#'], the double quote and white space) are no
    symbol characters: [scanWhile isSymbolChar] stops before them. *)
Theorem delimiters_end_symbols r :
  single r <> None \/ In r (runes ";\%#") \/ r = quote
  \/ (latin1 r = true /\ isWhitespace r = true) ->
  isSymbolChar r = false.
Proof.
  intros [H|[H|[H|[Hl H]]]].
  - unfold single in H.
    repeat match type of H with
           | context [if ?x =? ?c then _ else _] =>
               destruct (Z.eqb_spec x c); [subst; vm_compute; reflexivity|]
           end.
    congruence.
  - simpl in H. destruct H as [<-|[<-|[<-|[<-|[]]]]]; vm_compute; reflexivity.
  - subst. vm_compute. reflexivity.
  - unfold isWhitespace, unicode_IsSpace in H. rewrite Hl in H.
    repeat match type of H with
           | _ || _ = true => apply orb_true_iff in H as [H|H]
           end;
      apply Z.eqb_eq in H; subst; vm_compute; reflexivity.
Qed.


End Scanner.

(** *** Concrete runs

    Tables that hold no rune beyond Latin-1; the inputs below are ASCII
    and never consult them. *)
Definition noWide : rune -> bool := fun _ => false.

Definition lexASCII (nm : string) (s : string) : outcome :=
  lex noWide noWide noWide nm (text s).

Definition nl : string := String "010" EmptyString.

(** C2, as stated, fails: the symbol after the dispatch token ["#_"] of
    ["#_foo"] is not ["foo"]. *)
Lemma dispatch_lookahead_counterexample :
  ~ exists rest,
      shapes (lexASCII "src" "#_foo")
      = Some ((tokDispatch, runes "#_") :: (tokSymbol, runes "foo") :: rest).
Proof. intros [rest H]. vm_compute in H. discriminate H. Qed.





(** C4, as stated, fails: the comment token of [";c"], newline, ["b"]
    holds the newline. *)
Lemma comment_token_counterexample :
  exists t rest,
    lexASCII "src" (";c" ++ nl ++ "b") = Closed (t :: rest)
    /\ typ t = tokComment
    /\ In newline (val t).
Proof.
  exists (mkToken tokComment (mkPos "src" 0 1 1) [ch ";"; ch "c"; newline]).
  exists [mkToken tokSymbol (mkPos "src" 3 2 1) [ch "b"];
          mkToken tokEOF (mkPos "src" 4 2 2) []].
  split; [vm_compute; reflexivity|]. split; [reflexivity|].
  cbn [val]. right. right. left. reflexivity.
Qed.

(** The scanner after [lexOuter] has read the [';'] of [";c"], newline,
    ["b"]. *)
Definition in_comment : lexer :=
  mkLexer "src"
    (mkReader [(ch "c", 1); (newline, 1); (ch "b", 1)] None (Some (ch ";", 1)))
    (mkPos "src" 1 1 2) (mkPos "src" 0 1 1) (Some (mkPos "src" 0 1 1))
    [] [ch ";"].

Lemma comment_token_witness :
  line_ahead in_comment [(ch "c", 1)] [(newline, 1); (ch "b", 1)]
  /\ exists l',
       lexComment_fn in_comment = Ret (Some lexOuter) l'
       /\ tokens l' = [mkToken tokComment (mkPos "src" 0 1 1)
                                 [ch ";"; ch "c"; newline]]
       /\ pending (input l') = [(ch "b", 1)]
       /\ lval l' = [].
Proof.
  assert (H : line_ahead in_comment [(ch "c", 1)] [(newline, 1); (ch "b", 1)]).
  { split; [|split; vm_compute; reflexivity]. constructor; [discriminate|constructor]. }
  split; [exact H|].
  exact (comment_token in_comment [(ch "c", 1)] [(newline, 1); (ch "b", 1)] H).
Defined.

(** C5, as stated, fails: the text of the string token is not the
    content between the quotes. *)
Lemma string_tokens_counterexample :
  ~ exists rest,
      shapes (lexASCII "src" (quoted ("a\" ++ dq ++ "b")))
      = Some ((tokString, runes ("a\" ++ dq ++ "b")) :: rest).
Proof. intros [rest H]. vm_compute in H. discriminate H. Qed.


(** *** Instances of the properties of a run *)

Definition abTokens : list token :=
  [mkToken tokSymbol (mkPos "src" 0 1 1) [ch "a"];
   mkToken tokSymbol (mkPos "src" 2 1 3) [ch "b"]].

Definition abEOF : token := mkToken tokEOF (mkPos "src" 3 1 4) [].

Lemma eof_token_at_end_witness :
  lex noWide noWide noWide "src" (text "a b") = Closed (abTokens ++ [abEOF])
  /\ typ abEOF = tokEOF
  /\ failure (text "a b") = None
  /\ val abEOF = []
  /\ pos abEOF = advance_all (mkPos "src" 0 1 1) (pending (text "a b"))
  /\ followsTo (discarded noWide) (pending (text "a b")) (mkPos "src" 0 1 1)
               (abTokens ++ [abEOF]) [] (pos abEOF).
Proof.
  assert (E : lex noWide noWide noWide "src" (text "a b") = Closed (abTokens ++ [abEOF]))
    by (vm_compute; reflexivity).
  split; [exact E|]. split; [reflexivity|].
  exact (eof_token_at_end noWide noWide noWide "src" (text "a b") abTokens abEOF
           E eq_refl).
Defined.

Lemma no_read_error_closes_witness :
  failure (text "a") = None /\ exists ts, lex noWide noWide noWide "src" (text "a") = Closed ts.
Proof.
  split; [reflexivity|].
  exact (no_read_error_closes noWide noWide noWide "src" (text "a") eq_refl).
Defined.

(** A reader that delivers ["a"] and then fails. *)
Definition broken : Reader := mkReader [(ch "a", 1)] (Some "boom"%string) None.

Lemma read_error_outcome_witness :
  failure broken = Some "boom"%string
  /\ ((exists ts p,
         lex noWide noWide noWide "src" broken
         = Recovered (ts ++ [mkToken tokError p
                               (runes "error while scanning: " ++ runes "boom")]))
      \/ (exists ts t,
            lex noWide noWide noWide "src" broken = Closed (ts ++ [t])
            /\ typ t = tokError)).
Proof.
  split; [reflexivity|].
  exact (read_error_outcome noWide noWide noWide "src" broken "boom" eq_refl).
Defined.

Definition atStart (s : string) : lexer := fresh "src" (text s).

(** The scanner that has read the first rune of [s], the rune [c]. *)
Definition afterFirst (c : ascii) (s : string) : lexer :=
  afterRead (atStart (String c s)) (ch c) 1 (pending (text s)).

Lemma next_then_back_witness :
  next (atStart "ab") = Ret (ch "a", false) (afterFirst "a" "b")
  /\ exists l'',
       back (afterFirst "a" "b") = Ret tt l''
       /\ lpos l'' = lpos (atStart "ab") /\ lval l'' = lval (atStart "ab")
       /\ start l'' = start (atStart "ab") /\ tokens l'' = tokens (atStart "ab")
       /\ pending (input l'') = pending (input (atStart "ab"))
       /\ failure (input l'') = failure (input (atStart "ab"))
       /\ lastPos l'' = None.
Proof.
  assert (E : next (atStart "ab") = Ret (ch "a", false) (afterFirst "a" "b"))
    by (vm_compute; reflexivity).
  split; [exact E|].
  exact (next_then_back (atStart "ab") (ch "a") (afterFirst "a" "b") E).
Defined.

Lemma back_twice_panics_witness :
  back (afterFirst "a" "b") = Ret tt (givenBack (atStart "ab"))
  /\ back (givenBack (atStart "ab"))
     = Panic (fatal "back() call not preceded by a next()") (givenBack (atStart "ab")).
Proof.
  assert (E : back (afterFirst "a" "b") = Ret tt (givenBack (atStart "ab")))
    by (vm_compute; reflexivity).
  split; [exact E|].
  exact (back_twice_panics (afterFirst "a" "b") (givenBack (atStart "ab")) E).
Defined.

Lemma lexWhitespace_skips_witness :
  ahead (isWhitespace noWide) (afterFirst " " ", a") (pending (text ", ")) (pending (text "a"))
  /\ exists l',
       lexWhitespace_fn noWide (afterFirst " " ", a") = Ret (Some lexOuter) l'
       /\ tokens l' = tokens (afterFirst " " ", a")
       /\ lval l' = []
       /\ start l' = advance_all (lpos (afterFirst " " ", a")) (pending (text ", "))
       /\ lpos l' = advance_all (lpos (afterFirst " " ", a")) (pending (text ", "))
       /\ pending (input l') = pending (text "a").
Proof.
  assert (H : ahead (isWhitespace noWide) (afterFirst " " ", a")
                    (pending (text ", ")) (pending (text "a"))).
  { split; [reflexivity|]. split; [|vm_compute; reflexivity].
    repeat constructor. }
  split; [exact H|].
  exact (lexWhitespace_skips noWide (afterFirst " " ", a") _ _ H).
Defined.

Lemma symbol_like_token_witness :
  kindOf lexNumber = Some tokNumber
  /\ ahead (isSymbolChar noWide noWide) (afterFirst "3" "foo)")
           (pending (text "foo")) (pending (text ")"))
  /\ exists l',
       call noWide noWide noWide lexNumber (afterFirst "3" "foo)")
       = Ret (Some lexOuter) l'
       /\ tokens l' = tokens (afterFirst "3" "foo)")
                      ++ [mkToken tokNumber (start (afterFirst "3" "foo)"))
                            (lval (afterFirst "3" "foo)")
                             ++ map fst (pending (text "foo")))]
       /\ lval l' = []
       /\ start l' = advance_all (lpos (afterFirst "3" "foo)")) (pending (text "foo"))
       /\ pending (input l') = pending (text ")").
Proof.
  assert (H : ahead (isSymbolChar noWide noWide) (afterFirst "3" "foo)")
                    (pending (text "foo")) (pending (text ")"))).
  { split; [reflexivity|]. split; [|vm_compute; reflexivity].
    repeat constructor. }
  split; [reflexivity|]. split; [exact H|].
  exact (symbol_like_token noWide noWide noWide lexNumber tokNumber
           (afterFirst "3" "foo)") _ _ eq_refl H).
Defined.

Lemma char_literal_token_witness :
  pending (input (afterFirst "\" "(b c"))
  = (ch "(", 1) :: pending (text "b") ++ pending (text " c")
  /\ Forall (fun x => isSymbolChar noWide noWide (fst x) = true) (pending (text "b"))
  /\ stopsAt (isSymbolChar noWide noWide) (afterFirst "\" "(b c") (pending (text " c"))
  /\ exists l',
       lexCharLiteral_fn noWide noWide (afterFirst "\" "(b c") = Ret (Some lexOuter) l'
       /\ tokens l' = tokens (afterFirst "\" "(b c")
                      ++ [mkToken tokCharLiteral (start (afterFirst "\" "(b c"))
                            (lval (afterFirst "\" "(b c")
                             ++ ch "(" :: map fst (pending (text "b")))]
       /\ lval l' = []
       /\ pending (input l') = pending (text " c").
Proof.
  assert (H1 : pending (input (afterFirst "\" "(b c"))
               = (ch "(", 1) :: pending (text "b") ++ pending (text " c"))
    by reflexivity.
  assert (H2 : Forall (fun x => isSymbolChar noWide noWide (fst x) = true)
                      (pending (text "b"))) by (repeat constructor).
  assert (H3 : stopsAt (isSymbolChar noWide noWide) (afterFirst "\" "(b c")
                       (pending (text " c"))) by (vm_compute; reflexivity).
  split; [exact H1|]. split; [exact H2|]. split; [exact H3|].
  exact (char_literal_token noWide noWide (afterFirst "\" "(b c") (ch "(") 1
           (pending (text "b")) (pending (text " c")) H1 H2 H3).
Defined.

(** The text [a\], quote, [b]: its quote is escaped. *)
Definition escapedBody : list (rune * Z) :=
  pending (text ("a\" ++ dq ++ "b")).

(** The scanner that has read the opening quote of the literal with the
    text [s]; [tl] follows the literal. *)
Definition inString (s tl : string) : lexer :=
  afterRead (atStart (dq ++ s ++ tl)) quote 1 (pending (text (s ++ tl))).

Lemma string_closing_quote_witness :
  pending (input (inString ("a\" ++ dq ++ "b") (dq ++ " c")))
  = escapedBody ++ (quote, 1) :: pending (text " c")
  /\ quotes_escaped 0 escapedBody
  /\ Nat.even (backslashes 0 (map fst escapedBody)) = true
  /\ exists l',
       lexString_fn (inString ("a\" ++ dq ++ "b") (dq ++ " c")) = Ret (Some lexOuter) l'
       /\ tokens l' = tokens (inString ("a\" ++ dq ++ "b") (dq ++ " c"))
                      ++ [mkToken tokString
                            (start (inString ("a\" ++ dq ++ "b") (dq ++ " c")))
                            (lval (inString ("a\" ++ dq ++ "b") (dq ++ " c"))
                             ++ map fst escapedBody ++ [quote])]
       /\ lval l' = []
       /\ pending (input l') = pending (text " c").
Proof.
  assert (H1 : pending (input (inString ("a\" ++ dq ++ "b") (dq ++ " c")))
               = escapedBody ++ (quote, 1) :: pending (text " c")) by reflexivity.
  assert (H2 : quotes_escaped 0 escapedBody)
    by (apply quotes_escapedb_spec; vm_compute; reflexivity).
  assert (H3 : Nat.even (backslashes 0 (map fst escapedBody)) = true)
    by (vm_compute; reflexivity).
  split; [exact H1|]. split; [exact H2|]. split; [exact H3|].
  exact (string_closing_quote (inString ("a\" ++ dq ++ "b") (dq ++ " c"))
           escapedBody 1 (pending (text " c")) H1 H2 H3).
Defined.

Lemma string_unterminated_witness :
  failure (input (inString ("a\" ++ dq) "")) = None
  /\ quotes_escaped 0 (pending (input (inString ("a\" ++ dq) "")))
  /\ exists l',
       lexString_fn (inString ("a\" ++ dq) "") = Ret None l'
       /\ tokens l' = tokens (inString ("a\" ++ dq) "")
                      ++ [mkToken tokError (start (inString ("a\" ++ dq) ""))
                            (runes "reached EOF before string closing quote")].
Proof.
  assert (H2 : quotes_escaped 0 (pending (input (inString ("a\" ++ dq) ""))))
    by (apply quotes_escapedb_spec; vm_compute; reflexivity).
  split; [reflexivity|]. split; [exact H2|].
  exact (string_unterminated (inString ("a\" ++ dq) "") eq_refl H2).
Defined.

Lemma sign_lookahead_witness :
  pending (input (atStart "-1 x")) = (ch "-", 1) :: (ch "1", 1) :: pending (text " x")
  /\ (ch "-" = ch "+" \/ ch "-" = ch "-")
  /\ exists l',
       lexOuter_fn noWide noWide noWide (atStart "-1 x")
       = Ret (Some (if (ch "0" <=? ch "1") && (ch "1" <=? ch "9")
                    then lexNumber else lexSymbol)) l'
       /\ tokens l' = tokens (atStart "-1 x")
       /\ lval l' = lval (atStart "-1 x") ++ [ch "-"]
       /\ lpos l' = advance (lpos (atStart "-1 x")) (ch "-") 1
       /\ pending (input l') = (ch "1", 1) :: pending (text " x").
Proof.
  split; [reflexivity|]. split; [right; reflexivity|].
  exact (sign_lookahead noWide noWide noWide (atStart "-1 x") (ch "-") 1 (ch "1") 1
           (pending (text " x")) eq_refl (or_intror eq_refl)).
Defined.

Lemma sign_at_end_witness :
  pending (input (atStart "+")) = [(ch "+", 1)]
  /\ failure (input (atStart "+")) = None
  /\ (ch "+" = ch "+" \/ ch "+" = ch "-")
  /\ exists l',
       lexOuter_fn noWide noWide noWide (atStart "+") = Ret None l'
       /\ tokens l' = tokens (atStart "+")
                      ++ [mkToken tokSymbol (start (atStart "+"))
                            (lval (atStart "+") ++ [ch "+"]);
                          mkToken tokEOF (advance (lpos (atStart "+")) (ch "+") 1) []].
Proof.
  split; [reflexivity|]. split; [reflexivity|]. split; [left; reflexivity|].
  exact (sign_at_end noWide noWide noWide (atStart "+") (ch "+") 1
           eq_refl eq_refl (or_introl eq_refl)).
Defined.

Lemma dispatch_gives_back_witness :
  pending (input (afterFirst "#" "{1}")) = (ch "{", 1) :: pending (text "1}")
  /\ exists l',
       lexDispatch_fn (afterFirst "#" "{1}") = Ret (Some lexOuter) l'
       /\ tokens l'
          = tokens (afterFirst "#" "{1}")
            ++ (if existsb (Z.eqb (ch "{")) [ch "{"; ch "("; ch "'"; ch "034"; ch "_"]
                then [mkToken tokDispatch (lpos (afterFirst "#" "{1}"))
                        (lval (afterFirst "#" "{1}") ++ [ch "{"])]
                else [])
       /\ lval l' = []
       /\ start l' = lpos (afterFirst "#" "{1}")
       /\ lpos l' = lpos (afterFirst "#" "{1}")
       /\ pending (input l') = (ch "{", 1) :: pending (text "1}").
Proof.
  split; [reflexivity|].
  exact (dispatch_gives_back (afterFirst "#" "{1}") (ch "{") 1 (pending (text "1}"))
           eq_refl).
Defined.


Lemma delimiters_end_symbols_witness :
  (single (ch ")") <> None \/ In (ch ")") (runes ";\%#") \/ ch ")" = quote
   \/ (latin1 (ch ")") = true /\ isWhitespace noWide (ch ")") = true))
  /\ isSymbolChar noWide noWide (ch ")") = false.
Proof.
  assert (H : single (ch ")") <> None) by discriminate.
  split; [left; exact H|].
  exact (delimiters_end_symbols noWide noWide noWide (ch ")") (or_introl H)).
Defined.


End Lex.

(** ** Part II: the tree transforms *)

Module Format.

Local Open Scope string_scope.
Local Open Scope list_scope.

#[local] Set Warnings "-register-all".

(** Modelled from the spec: the nodes of package [parse], which the
    transforms read through [Children], [SetChildren] and type tests.
    The composite nodes (list, map, vector, function literal, set) hold
    an ordered sequence of children; symbols, keywords, strings, numbers
    and comments hold their literal text; a newline node stands for one
    newline of the source. *)
Inductive nodeType := ListNode | MapNode | VectorNode | FnLiteralNode | SetNode.

Inductive Node :=
| Composite (t : nodeType) (children : list Node)
| SymbolNode (Val : string)
| KeywordNode (Val : string)
| StringNode (Val : string)
| NumberNode (Val : string)
| CommentNode (Text : string)
| NewlineNode.

(** Modelled from the spec: a tree holds its top-level forms, with the
    newlines and comments between them. *)
Record Tree := mkTree { Roots : list Node }.

(** Modelled from the spec: [Children] gives the ordered children of a
    node, none for a node that is not composite, and [SetChildren]
    replaces them as a whole. *)
Definition Children (n : Node) : list Node :=
  match n with
  | Composite _ cs => cs
  | _ => []
  end.

(** Modelled from the spec: see [Children]. *)
Definition SetChildren (n : Node) (cs : list Node) : Node :=
  match n with
  | Composite t _ => Composite t cs
  | _ => n
  end.

(** Modelled from the spec: the type tests of package [goclj]; this one
    is the test for a newline node. *)
Definition Newline (n : Node) : bool :=
  match n with NewlineNode => true | _ => false end.

(** Modelled from the spec: the test for a comment node. *)
Definition Comment (n : Node) : bool :=
  match n with CommentNode _ => true | _ => false end.

(** Modelled from the spec: the test for a keyword node. *)
Definition Keyword (n : Node) : bool :=
  match n with KeywordNode _ => true | _ => false end.

(** Modelled from the spec: the test for a vector node. *)
Definition Vector (n : Node) : bool :=
  match n with Composite VectorNode _ => true | _ => false end.

(** Modelled from the spec: [FnFormSymbol n syms] holds of a list whose
    first child is one of the symbols [syms], [FnFormKeyword n kws] of a
    list whose first child is one of the keywords [kws]. *)
Definition FnFormSymbol (n : Node) (syms : list string) : bool :=
  match n with
  | Composite ListNode (SymbolNode v :: _) => existsb (String.eqb v) syms
  | _ => false
  end.

(** Modelled from the spec: see [FnFormSymbol]. *)
Definition FnFormKeyword (n : Node) (kws : list string) : bool :=
  match n with
  | Composite ListNode (KeywordNode v :: _) => existsb (String.eqb v) kws
  | _ => false
  end.

Inductive Transform :=
| TransformSortImportRequire
| TransformRemoveTrailingNewlines
| TransformFixDefnArglistNewline
| TransformFixDefmethodDispatchValNewline
| TransformRemoveExtraBlankLines.

(** A [map[Transform]bool] is read only by indexing, which yields
    [false] for an absent key. *)
Definition Transforms := Transform -> bool.

Definition DefaultTransforms : Transforms := fun _ => true.

(** An [importRequire] is an import/require with associated comment
    nodes, kept by their text. *)
Record importRequire := mkIR {
  CommentsAbove : list string;
  CommentBeside : option string;
  IRNode : Node
}.

Abbreviation importRequireList := (list importRequire).

Definition listOrVector (node : Node) : bool :=
  match node with
  | Composite ListNode _ | Composite VectorNode _ => true
  | _ => false
  end.

(** The comparison of [Less] on the nodes of two entries. *)
Definition lessNode (n1 n2 : Node) : bool :=
  match n1 with
  | SymbolNode s1 =>
      match n2 with
      | SymbolNode s2 => String.ltb s1 s2
      | _ => true
      end
  | _ =>
      if listOrVector n1 then
        if listOrVector n2 then
          match Children n1, Children n2 with
          | [], _ => true
          | _ :: _, [] => false
          | SymbolNode p1 :: _, SymbolNode p2 :: _ => String.ltb p1 p2
          | SymbolNode _ :: _, _ :: _ => true
          | _ :: _, _ :: _ => false
          end
        else false
      else false
  end.

(** [Len], [Swap] and [Less] of [sort.Interface]; an index out of range
    panics in the source and is never asked for by [Stable]. *)
Definition Len (l : importRequireList) : nat := length l.

Definition Swap (l : importRequireList) (i j : nat) : importRequireList :=
  match l !! i, l !! j with
  | Some a, Some b => <[j := a]> (<[i := b]> l)
  | _, _ => l
  end.

Definition Less (l : importRequireList) (i j : nat) : bool :=
  match l !! i, l !! j with
  | Some a, Some b => lessNode (IRNode a) (IRNode b)
  | _, _ => false
  end.

(** [sort.Stable] of Go's library, as the insertion sort it runs on a
    slice of up to 20 elements: [for i := 1; i < n; i++], the inner loop
    moves element [i] down while it is less than the one before it.
    Longer slices are sorted in blocks of 20 that are then merged, to the
    same result whenever [Less] is a strict weak order. *)
Fixpoint sift (l : importRequireList) (j : nat) : importRequireList :=
  match j with
  | O => l
  | S j' => if Less l j j' then sift (Swap l j j') j' else l
  end.

Definition Stable (l : importRequireList) : importRequireList :=
  fold_left sift (seq 1 (Len l - 1)) l.

(** The state of the loop of [sortImportRequire]. *)
Record scanState := mkScan {
  sorted : importRequireList;
  lineComments : list string;
  afterSemanticNode : bool
}.

(** [sorted[len(sorted)-1].CommentBeside = node]; it panics on an empty
    [sorted]. *)
Definition setBeside (l : importRequireList) (c : string) : option importRequireList :=
  match rev l with
  | [] => None
  | ir :: before =>
      Some (rev before ++ [mkIR (CommentsAbove ir) (Some c) (IRNode ir)])
  end.

Definition scanNode (st : scanState) (node : Node) : option scanState :=
  match node with
  | CommentNode c =>
      if afterSemanticNode st
      then match setBeside (sorted st) c with
           | Some l => Some (mkScan l (lineComments st) (afterSemanticNode st))
           | None => None
           end
      else Some (mkScan (sorted st) (lineComments st ++ [c]) (afterSemanticNode st))
  | NewlineNode => Some (mkScan (sorted st) (lineComments st) false)
  | _ => Some (mkScan (sorted st ++ [mkIR (lineComments st) None node]) [] true)
  end.

Fixpoint scanNodes (st : scanState) (nodes : list Node) : option scanState :=
  match nodes with
  | [] => Some st
  | node :: rest =>
      match scanNode st node with
      | Some st' => scanNodes st' rest
      | None => None
      end
  end.

Definition emitLine (c : string) : list Node := [CommentNode c; NewlineNode].

Definition emitEntry (ir : importRequire) : list Node :=
  flat_map emitLine (CommentsAbove ir)
  ++ [IRNode ir]
  ++ match CommentBeside ir with
     | Some c => [CommentNode c]
     | None => []
     end
  ++ [NewlineNode].

(** [if len(newNodes) >= 2 && !goclj.Comment(newNodes[len(newNodes)-2])]:
    drop the last node. *)
Definition dropTrailing (newNodes : list Node) : list Node :=
  if (2 <=? length newNodes)%nat
     && negb (match newNodes !! (length newNodes - 2)%nat with
              | Some n => Comment n
              | None => false
              end)
  then removelast newNodes
  else newNodes.

(** [None] stands for a run-time panic: the type assertion of the
    caller on a node that is no list, [nodes[1:]] of no nodes, an index
    into an empty [sorted]. *)
Definition sortImportRequire (n : Node) : option Node :=
  match n with
  | Composite ListNode (n0 :: rest) =>
      match scanNodes (mkScan [] [] false) rest with
      | Some st =>
          Some (Composite ListNode
                  (dropTrailing
                     ([n0] ++ flat_map emitEntry (Stable (sorted st))
                           ++ flat_map emitLine (lineComments st))))
      | None => None
      end
  | _ => None
  end.

Fixpoint sortEach (nodes : list Node) : option (list Node) :=
  match nodes with
  | [] => Some []
  | n :: rest =>
      match (if FnFormKeyword n [":require"; ":import"]
             then sortImportRequire n else Some n) with
      | Some n' =>
          match sortEach rest with
          | Some rest' => Some (n' :: rest')
          | None => None
          end
      | None => None
      end
  end.

(** The children are sorted in place, so [ns] holds the new ones. *)
Definition sortNS (ns : Node) : option Node :=
  match Children ns with
  | [] => None
  | n0 :: rest =>
      match sortEach rest with
      | Some rest' => Some (SetChildren ns (n0 :: rest'))
      | None => None
      end
  end.

Definition holds (p : Node -> bool) (nodes : list Node) (i : nat) : bool :=
  match nodes !! i with
  | Some n => p n
  | None => false
  end.

(** The loop that trims [nodes]; [len] is [len(nodes)]. *)
Fixpoint trimLoop (len : nat) (nodes : list Node) : list Node :=
  match len with
  | O => nodes
  | S len' =>
      if (2 <=? len)%nat && holds Comment nodes (len - 2) then nodes
      else if negb (holds Newline nodes (len - 1)) then nodes
      else trimLoop len' (take len' nodes)
  end.

Definition trim (nodes : list Node) : list Node := trimLoop (length nodes) nodes.

(** The source trims the children and then visits those that are left;
    here the children are visited first, which keeps the recursion
    structural.  [removeTrailingNewlines_eq] below is the source's
    order. *)
Fixpoint removeTrailingNewlines (n : Node) : Node :=
  match n with
  | Composite t cs => Composite t (trim (map removeTrailingNewlines cs))
  | _ => n
  end.

Definition fixDefnArglist (defn : Node) : Node :=
  match Children defn with
  | n0 :: n1 :: n2 :: n3 :: n4 :: rest =>
      if negb (Newline n2) || Newline n4 then defn
      else if negb (Vector n3) then defn
      else SetChildren defn (n0 :: n1 :: n3 :: n2 :: n4 :: rest)
  | _ => defn
  end.

Definition fixDefmethodDispatchVal (defmethod : Node) : Node :=
  match Children defmethod with
  | n0 :: n1 :: n2 :: n3 :: n4 :: rest =>
      if negb (Newline n2) then defmethod
      else if negb (Keyword n3) then defmethod
      else if Newline n4
           then SetChildren defmethod (n0 :: n1 :: n3 :: n4 :: rest)
           else SetChildren defmethod (n0 :: n1 :: n3 :: n2 :: n4 :: rest)
  | _ => defmethod
  end.

(** [newlines] counts nodes of one slice. *)
Fixpoint collapse (newlines : nat) (nodes : list Node) : list Node :=
  match nodes with
  | [] => []
  | node :: rest =>
      let newlines := if Newline node then S newlines else O in
      if (newlines <=? 2)%nat
      then node :: collapse newlines rest
      else collapse newlines rest
  end.

Definition removeExtraBlankLines (nodes : list Node) : list Node :=
  collapse 0 nodes.

Definition collapseLong (nodes : list Node) : list Node :=
  if (2 <? length nodes)%nat then removeExtraBlankLines nodes else nodes.

(** As for [removeTrailingNewlines], the children are visited first;
    [removeExtraBlankLinesRecursive_eq] is the source's order. *)
Fixpoint removeExtraBlankLinesRecursive (n : Node) : Node :=
  match n with
  | Composite t cs =>
      Composite t (collapseLong (map removeExtraBlankLinesRecursive cs))
  | _ => n
  end.

Definition applyRoot (transforms : Transforms) (root : Node) : option Node :=
  match (if transforms TransformSortImportRequire && FnFormSymbol root ["ns"]
         then sortNS root else Some root) with
  | None => None
  | Some r1 =>
      let r2 := if transforms TransformRemoveTrailingNewlines
                then removeTrailingNewlines r1 else r1 in
      let r3 := if transforms TransformFixDefnArglistNewline
                   && FnFormSymbol r2 ["defn"]
                then fixDefnArglist r2 else r2 in
      let r4 := if transforms TransformFixDefmethodDispatchValNewline
                   && FnFormSymbol r3 ["defmethod"]
                then fixDefmethodDispatchVal r3 else r3 in
      Some (if transforms TransformRemoveExtraBlankLines
            then removeExtraBlankLinesRecursive r4 else r4)
  end.

Fixpoint applyRoots (transforms : Transforms) (roots : list Node) : option (list Node) :=
  match roots with
  | [] => Some []
  | root :: rest =>
      match applyRoot transforms root with
      | Some root' =>
          match applyRoots transforms rest with
          | Some rest' => Some (root' :: rest')
          | None => None
          end
      | None => None
      end
  end.

Definition applyTransforms (t : Tree) (transforms : Transforms) : option Tree :=
  match applyRoots transforms (Roots t) with
  | Some roots =>
      Some (mkTree (if transforms TransformRemoveExtraBlankLines
                    then removeExtraBlankLines roots else roots))
  | None => None
  end.

(** *** Induction on nodes *)

Definition atom (n : Node) : Prop :=
  match n with Composite _ _ => False | _ => True end.

Definition Node_induction (P : Node -> Prop)
    (HC : forall t cs, Forall P cs -> P (Composite t cs))
    (HA : forall n, atom n -> P n) : forall n, P n :=
  fix go (n : Node) : P n :=
    match n with
    | Composite t cs =>
        HC t cs ((fix all (l : list Node) : Forall P l :=
                    match l with
                    | [] => List.Forall_nil P
                    | c :: l' => List.Forall_cons P c l' (go c) (all l')
                    end) cs)
    | SymbolNode v => HA (SymbolNode v) I
    | KeywordNode v => HA (KeywordNode v) I
    | StringNode v => HA (StringNode v) I
    | NumberNode v => HA (NumberNode v) I
    | CommentNode c => HA (CommentNode c) I
    | NewlineNode => HA NewlineNode I
    end.

(** [l'] is [l] without some of its newline nodes. *)
Inductive dropNL : list Node -> list Node -> Prop :=
| dropNL_nil : dropNL [] []
| dropNL_keep x l l' : dropNL l l' -> dropNL (x :: l) (x :: l')
| dropNL_drop l l' : dropNL l l' -> dropNL (NewlineNode :: l) l'.

Lemma dropNL_refl l : dropNL l l.
Proof. induction l; constructor; auto. Qed.

Lemma dropNL_app l1 l1' l2 l2' :
  dropNL l1 l1' -> dropNL l2 l2' -> dropNL (l1 ++ l2) (l1' ++ l2').
Proof. induction 1; simpl; intros; try constructor; auto. Qed.

Lemma dropNL_trans l1 l2 l3 : dropNL l1 l2 -> dropNL l2 l3 -> dropNL l1 l3.
Proof.
  intros H. revert l3. induction H; intros l3 H3.
  - exact H3.
  - inversion H3; subst; constructor; auto.
  - constructor. auto.
Qed.

Lemma dropNL_flat_map {B} (h : Node -> list B) l l' :
  h NewlineNode = [] -> dropNL l l' -> flat_map h l' = flat_map h l.
Proof.
  intros Hh. induction 1; simpl; auto.
  - now f_equal.
  - now rewrite Hh.
Qed.

(** A function on nodes that keeps newlines and comments what they are. *)
Definition keepsClass (f : Node -> Node) : Prop :=
  forall n, Newline (f n) = Newline n /\ Comment (f n) = Comment n.

(** *** [removeTrailingNewlines] *)

Definition lastIs (p : Node -> bool) (l : list Node) : bool :=
  match last l with
  | Some n => p n
  | None => false
  end.

Lemma lastIs_snoc p l x : lastIs p (l ++ [x]) = p x.
Proof. unfold lastIs. now rewrite last_snoc. Qed.

Lemma lastIs_map p f l :
  (forall n, p (f n) = p n) -> lastIs p (map f l) = lastIs p l.
Proof.
  intros H. unfold lastIs. destruct l as [|x l _] using rev_ind; [reflexivity|].
  rewrite map_app. simpl. rewrite !last_snoc. apply H.
Qed.

Lemma trim_nil : trim [] = [].
Proof. reflexivity. Qed.

Lemma trim_snoc l x :
  trim (l ++ [x]) =
  if lastIs Comment l then l ++ [x]
  else if negb (Newline x) then l ++ [x]
  else trim l.
Proof.
  unfold trim. rewrite length_app. simpl length.
  replace (length l + 1)%nat with (S (length l)) by lia.
  cbn [trimLoop].
  assert (Hc : (2 <=? S (length l))%nat && holds Comment (l ++ [x]) (S (length l) - 2)
               = lastIs Comment l).
  { unfold holds, lastIs. destruct l as [|y l _] using rev_ind; [reflexivity|].
    rewrite last_snoc, length_app. cbn [length].
    replace (S (length l + 1) - 2)%nat with (length l) by lia.
    rewrite <- app_assoc. cbn [app].
    rewrite list_lookup_middle by reflexivity.
    destruct (Nat.leb_spec 2 (S (length l + 1))); [reflexivity|lia]. }
  rewrite Hc.
  assert (Hn : holds Newline (l ++ [x]) (S (length l) - 1) = Newline x).
  { unfold holds. replace (S (length l) - 1)%nat with (length l) by lia.
    rewrite list_lookup_middle by reflexivity. reflexivity. }
  rewrite Hn. rewrite take_app_length. reflexivity.
Qed.

Lemma trim_dropNL l : dropNL l (trim l).
Proof.
  induction l as [|x l IH] using rev_ind; [constructor|].
  rewrite trim_snoc. destruct (lastIs Comment l); [apply dropNL_refl|].
  destruct x; simpl; try apply dropNL_refl.
  rewrite <- (app_nil_r (trim l)). apply dropNL_app; [exact IH|].
  repeat constructor.
Qed.

Lemma trim_idem l : trim (trim l) = trim l.
Proof.
  induction l as [|x l IH] using rev_ind; [reflexivity|].
  rewrite trim_snoc. destruct (lastIs Comment l) eqn:Hc.
  - rewrite trim_snoc, Hc. reflexivity.
  - destruct (negb (Newline x)) eqn:Hn; [|exact IH].
    rewrite trim_snoc, Hc, Hn. reflexivity.
Qed.

Lemma trim_map f l : keepsClass f -> trim (map f l) = map f (trim l).
Proof.
  intros Hf. induction l as [|x l IH] using rev_ind; [reflexivity|].
  rewrite map_app. simpl map. rewrite !trim_snoc.
  rewrite (lastIs_map Comment f l) by apply Hf.
  destruct (lastIs Comment l); [now rewrite map_app|].
  rewrite (proj1 (Hf x)). destruct (negb (Newline x)); [now rewrite map_app|].
  exact IH.
Qed.

Lemma removeTrailingNewlines_class : keepsClass removeTrailingNewlines.
Proof. intros []; split; reflexivity. Qed.

(** The order of the source: trim, then visit the children left. *)
Lemma removeTrailingNewlines_eq t cs :
  removeTrailingNewlines (Composite t cs)
  = Composite t (map removeTrailingNewlines (trim cs)).
Proof.
  simpl. f_equal. apply trim_map, removeTrailingNewlines_class.
Qed.

Lemma removeTrailingNewlines_idem n :
  removeTrailingNewlines (removeTrailingNewlines n) = removeTrailingNewlines n.
Proof.
  induction n as [t cs IH|n Hn] using Node_induction.
  - rewrite !removeTrailingNewlines_eq. f_equal.
    rewrite (trim_map _ _ removeTrailingNewlines_class), trim_idem.
    rewrite map_map. apply map_ext_in. intros c Hc.
    rewrite Forall_forall in IH. apply IH.
    pose proof (trim_dropNL cs) as Hd. clear - Hd Hc.
    induction Hd; simpl in *; [contradiction| |right; auto].
    destruct Hc as [->|Hc]; [now left|right; auto].
  - destruct n; try contradiction; reflexivity.
Qed.

(** *** [removeExtraBlankLines] *)

Lemma collapse_dropNL l : forall k, dropNL l (collapse k l).
Proof.
  induction l as [|x l IH]; intros k; cbn [collapse]; [constructor|].
  destruct x; cbn [Newline]; try (constructor; apply IH).
  destruct (S k <=? 2)%nat; constructor; apply IH.
Qed.

Lemma collapse_high l : forall k k',
  (2 <= k)%nat -> (2 <= k')%nat -> collapse k l = collapse k' l.
Proof.
  induction l as [|x l IH]; intros k k' Hk Hk'; cbn [collapse]; [reflexivity|].
  destruct (Newline x); [|reflexivity].
  replace (S k <=? 2)%nat with false by (symmetry; apply Nat.leb_gt; lia).
  replace (S k' <=? 2)%nat with false by (symmetry; apply Nat.leb_gt; lia).
  apply IH; lia.
Qed.

Lemma collapse_idem l : forall k, collapse k (collapse k l) = collapse k l.
Proof.
  induction l as [|x l IH]; intros k; cbn [collapse]; [reflexivity|].
  destruct (Newline x) eqn:Hx.
  - destruct (S k <=? 2)%nat eqn:Hk.
    + cbn [collapse]. rewrite Hx, Hk. f_equal. apply IH.
    + apply Nat.leb_gt in Hk.
      rewrite (collapse_high (collapse (S k) l) k (S k)) by lia. apply IH.
  - cbn [collapse Nat.leb]. rewrite Hx. cbn [Nat.leb]. f_equal. apply IH.
Qed.

Lemma collapse_map f l : keepsClass f ->
  forall k, collapse k (map f l) = map f (collapse k l).
Proof.
  intros Hf. induction l as [|x l IH]; intros k; cbn [collapse map]; [reflexivity|].
  rewrite (proj1 (Hf x)). destruct (Newline x).
  - destruct (S k <=? 2)%nat; cbn [map]; now rewrite IH.
  - cbn [Nat.leb map]. now rewrite IH.
Qed.

Lemma collapse_short l : (length l <= 2)%nat -> collapse 0 l = l.
Proof.
  destruct l as [|a [|b [|c l]]]; simpl; intros H; try lia; try reflexivity.
  - destruct (Newline a); reflexivity.
  - destruct (Newline a), (Newline b); reflexivity.
Qed.

Lemma collapseLong_eq l : collapseLong l = removeExtraBlankLines l.
Proof.
  unfold collapseLong, removeExtraBlankLines.
  destruct (2 <? length l)%nat eqn:H; [reflexivity|].
  apply Nat.ltb_ge in H. symmetry. now apply collapse_short.
Qed.

Lemma removeExtraBlankLinesRecursive_class :
  keepsClass removeExtraBlankLinesRecursive.
Proof. intros []; split; reflexivity. Qed.

(** The order of the source: collapse (when there are more than two
    children), then visit the children left. *)
Lemma removeExtraBlankLinesRecursive_eq t cs :
  removeExtraBlankLinesRecursive (Composite t cs)
  = Composite t (map removeExtraBlankLinesRecursive (collapseLong cs)).
Proof.
  simpl. f_equal. rewrite !collapseLong_eq. unfold removeExtraBlankLines.
  apply collapse_map, removeExtraBlankLinesRecursive_class.
Qed.

Lemma dropNL_In l l' x : dropNL l l' -> In x l' -> In x l.
Proof.
  induction 1; simpl; auto.
  intros [->|H']; auto.
Qed.

Lemma removeExtraBlankLinesRecursive_idem n :
  removeExtraBlankLinesRecursive (removeExtraBlankLinesRecursive n)
  = removeExtraBlankLinesRecursive n.
Proof.
  induction n as [t cs IH|n Hn] using Node_induction.
  - rewrite !removeExtraBlankLinesRecursive_eq. f_equal.
    rewrite !collapseLong_eq. unfold removeExtraBlankLines.
    rewrite (collapse_map _ _ removeExtraBlankLinesRecursive_class).
    rewrite collapse_idem.
    rewrite map_map. apply map_ext_in. intros c Hc.
    rewrite Forall_forall in IH. apply IH.
    apply list_elem_of_In. eapply dropNL_In; [apply collapse_dropNL|exact Hc].
  - destruct n; try contradiction; reflexivity.
Qed.

(** *** [fixDefnArglist] and [fixDefmethodDispatchVal] *)

Lemma fixDefnArglist_idem n : fixDefnArglist (fixDefnArglist n) = fixDefnArglist n.
Proof.
  unfold fixDefnArglist.
  destruct n as [t [|n0 [|n1 [|n2 [|n3 [|n4 rest]]]]]| | | | | |]; try reflexivity.
  cbn [Children].
  destruct (negb (Newline n2) || Newline n4) eqn:H1; cbn [Children]; [now rewrite H1|].
  destruct (negb (Vector n3)) eqn:H2; cbn [Children]; [now rewrite H1, H2|].
  cbn [SetChildren Children].
  destruct n3 as [[] ?| | | | | |]; try discriminate H2. reflexivity.
Qed.

Lemma fixDefmethodDispatchVal_idem n :
  fixDefmethodDispatchVal (fixDefmethodDispatchVal n) = fixDefmethodDispatchVal n.
Proof.
  unfold fixDefmethodDispatchVal.
  destruct n as [t [|n0 [|n1 [|n2 [|n3 [|n4 rest]]]]]| | | | | |]; try reflexivity.
  cbn [Children].
  destruct (negb (Newline n2)) eqn:H1; cbn [Children]; [now rewrite H1|].
  destruct (negb (Keyword n3)) eqn:H2; cbn [Children]; [now rewrite H1, H2|].
  destruct n3; try discriminate H2.
  destruct (Newline n4) eqn:H3; cbn [SetChildren Children].
  - destruct rest; reflexivity.
  - reflexivity.
Qed.

Lemma fixDefnArglist_head n syms :
  FnFormSymbol (fixDefnArglist n) syms = FnFormSymbol n syms.
Proof.
  unfold fixDefnArglist.
  destruct n as [t [|n0 [|n1 [|n2 [|n3 [|n4 rest]]]]]| | | | | |]; try reflexivity.
  cbn [Children].
  destruct (negb (Newline n2) || Newline n4); [reflexivity|].
  destruct (negb (Vector n3)); reflexivity.
Qed.

Lemma fixDefmethodDispatchVal_head n syms :
  FnFormSymbol (fixDefmethodDispatchVal n) syms = FnFormSymbol n syms.
Proof.
  unfold fixDefmethodDispatchVal.
  destruct n as [t [|n0 [|n1 [|n2 [|n3 [|n4 rest]]]]]| | | | | |]; try reflexivity.
  cbn [Children].
  destruct (negb (Newline n2)); [reflexivity|].
  destruct (negb (Keyword n3)); [reflexivity|].
  destruct (Newline n4); reflexivity.
Qed.

(** C9 (as amended): on a form with at least five children whose third
    child is a newline and whose fourth is a keyword, the dispatch value
    comes to follow the name, with a newline after it: the two change
    places when the fifth child is no newline, and the newline before
    the dispatch value is dropped when the fifth child is one.  Every
    other form is left as it is. *)
Theorem fixDefmethodDispatchVal_spec defmethod :
  match Children defmethod with
  | n0 :: n1 :: NewlineNode :: KeywordNode k :: n4 :: rest =>
      fixDefmethodDispatchVal defmethod
      = SetChildren defmethod
          (n0 :: n1 :: KeywordNode k :: NewlineNode
              :: (if Newline n4 then rest else n4 :: rest))
  | _ => fixDefmethodDispatchVal defmethod = defmethod
  end.
Proof.
  unfold fixDefmethodDispatchVal.
  destruct (Children defmethod) as [|n0 [|n1 [|n2 [|n3 [|n4 rest]]]]];
    try reflexivity;
    destruct n2; try reflexivity; destruct n3; try reflexivity;
    destruct n4; reflexivity.
Qed.

(** The rewrite as the claim words it: in every form that starts with
    (defmethod, name, newline, keyword) the dispatch value and the
    newline before it change places, which also puts a newline after a
    dispatch value that had none. *)
Definition joinDispatchVal_stated (nodes : list Node) : list Node :=
  match nodes with
  | n0 :: n1 :: NewlineNode :: KeywordNode k :: rest =>
      n0 :: n1 :: KeywordNode k :: NewlineNode :: rest
  | _ => nodes
  end.

(** C9, as stated, fails: a form of four children is left as it is, and
    a dispatch value that is followed by a newline loses the newline
    before it instead of changing places with it. *)
Lemma fixDefmethodDispatchVal_counterexample :
  let short := [SymbolNode "defmethod"; SymbolNode "foo"; NewlineNode;
                KeywordNode ":bar"] in
  let spaced := [SymbolNode "defmethod"; SymbolNode "foo"; NewlineNode;
                 KeywordNode ":bar"; NewlineNode;
                 Composite VectorNode [SymbolNode "x"]] in
  Children (fixDefmethodDispatchVal (Composite ListNode short))
    <> joinDispatchVal_stated short
  /\ Children (fixDefmethodDispatchVal (Composite ListNode spaced))
       <> joinDispatchVal_stated spaced.
Proof. split; discriminate. Qed.

(** *** Insertion sort *)

Section Insertion.

Context {A : Type} (lt : A -> A -> bool).

(** [rp] is a sorted prefix, last element first; [x] moves down past the
    elements it is less than. *)
Fixpoint insertRev (x : A) (rp : list A) : list A :=
  match rp with
  | [] => [x]
  | p :: ps => if lt x p then p :: insertRev x ps else x :: p :: ps
  end.

Fixpoint insertAll (rp l : list A) : list A :=
  match l with
  | [] => rp
  | x :: l' => insertAll (insertRev x rp) l'
  end.

Definition isort (l : list A) : list A := rev (insertAll [] l).

Lemma insertRev_length x rp : length (insertRev x rp) = S (length rp).
Proof. induction rp as [|p ps IH]; simpl; [|destruct (lt x p); simpl]; auto. Qed.

Lemma insertRev_perm x rp : Permutation (insertRev x rp) (x :: rp).
Proof.
  induction rp as [|p ps IH]; simpl; [reflexivity|].
  destruct (lt x p); [|reflexivity].
  rewrite IH. apply perm_swap.
Qed.

Lemma insertAll_perm l : forall rp, Permutation (insertAll rp l) (rp ++ l).
Proof.
  induction l as [|x l IH]; intros rp; simpl; [now rewrite app_nil_r|].
  rewrite IH, insertRev_perm. simpl. now rewrite Permutation_middle.
Qed.

Lemma isort_perm l : Permutation (isort l) l.
Proof.
  unfold isort. rewrite <- Permutation_rev. apply (insertAll_perm l []).
Qed.

(** No element of [rp] is less than the one before it in the sorted
    order (the one after it in [rp]). *)
Fixpoint chain (rp : list A) : Prop :=
  match rp with
  | a :: (b :: _) as tl => lt a b = false /\ chain tl
  | _ => True
  end.

Lemma chain_app_r l1 l2 : chain (l1 ++ l2) -> chain l2.
Proof.
  induction l1 as [|a l1 IH]; simpl; [auto|].
  destruct (l1 ++ l2) eqn:E; [|intros [_ H]; auto].
  destruct l1; simpl in E; [subst; auto|discriminate].
Qed.

Lemma insertAll_fixed l : forall rp,
  chain (rev l ++ rp) -> insertAll rp l = rev l ++ rp.
Proof.
  induction l as [|x l IH]; intros rp H; simpl in *; [reflexivity|].
  rewrite <- app_assoc in *. simpl in *.
  assert (E : insertRev x rp = x :: rp).
  { apply chain_app_r in H. destruct rp as [|p ps]; [reflexivity|].
    simpl in *. destruct H as [-> _]. reflexivity. }
  rewrite E. now apply IH.
Qed.

Lemma isort_fixed l : chain (rev l) -> isort l = l.
Proof.
  intros H. unfold isort. rewrite insertAll_fixed.
  - now rewrite app_nil_r, rev_involutive.
  - now rewrite app_nil_r.
Qed.

Section Ordered.

(** [lt] is a strict weak order on the elements that satisfy [D]. *)
Variable D : A -> Prop.
Hypothesis lt_asym : forall a b, D a -> D b -> lt a b = true -> lt b a = false.
Hypothesis lt_negtrans : forall a b c, D a -> D b -> D c ->
  lt a b = false -> lt b c = false -> lt a c = false.

Definition descending (rp : list A) : Prop :=
  StronglySorted (fun a b => lt a b = false) rp.

Lemma insertRev_D x rp : D x -> Forall D rp -> Forall D (insertRev x rp).
Proof.
  intros Hx H. induction H as [|p ps Hp Hps IH]; simpl.
  - repeat constructor; auto.
  - destruct (lt x p); repeat constructor; auto.
Qed.

Lemma insertRev_descending x rp :
  D x -> Forall D rp -> descending rp -> descending (insertRev x rp).
Proof.
  intros Hx HD H. induction H as [|p ps Hps IH Hp]; simpl.
  - repeat constructor.
  - inversion HD as [|? ? Dp Dps]; subst. destruct (lt x p) eqn:E.
    + constructor; [apply IH, Dps|].
      rewrite insertRev_perm.
      constructor; [now apply lt_asym|exact Hp].
    + constructor; [constructor; auto|]. constructor; [exact E|].
      rewrite List.Forall_forall in *. intros y Hy.
      apply (lt_negtrans x p y); auto.
Qed.

Lemma insertAll_descending l : forall rp,
  Forall D l -> Forall D rp -> descending rp -> descending (insertAll rp l).
Proof.
  induction l as [|x l IH]; intros rp Hl Hrp H; simpl; [exact H|].
  inversion Hl; subst. apply IH; auto using insertRev_D, insertRev_descending.
Qed.

Lemma descending_chain rp : descending rp -> chain rp.
Proof.
  induction 1 as [|a l Hl IH Ha]; simpl; [exact I|].
  destruct l as [|b l]; [exact I|]. split; [|exact IH].
  now inversion Ha.
Qed.

(** Elements that tie with [z] keep their order. *)
Definition tied (z a : A) : bool := negb (lt z a) && negb (lt a z).

Lemma insertRev_stable z x rp :
  D z -> D x -> Forall D rp ->
  List.filter (tied z) (insertRev x rp) = List.filter (tied z) (x :: rp).
Proof.
  intros Hz Hx H. induction H as [|p ps Hp Hps IH]; [reflexivity|].
  cbn [insertRev]. destruct (lt x p) eqn:E; [|reflexivity].
  cbn [List.filter] in *. rewrite IH.
  destruct (tied z p) eqn:Tp, (tied z x) eqn:Tx; try reflexivity.
  unfold tied in Tp, Tx.
  apply andb_prop in Tp as [Tp1 Tp2]. apply andb_prop in Tx as [Tx1 Tx2].
  apply negb_true_iff in Tp1, Tp2, Tx1, Tx2.
  rewrite (lt_negtrans x z p) in E; auto. discriminate.
Qed.

Lemma filter_rev (f : A -> bool) l : List.filter f (rev l) = rev (List.filter f l).
Proof.
  induction l as [|a l IH]; [reflexivity|].
  simpl. rewrite List.filter_app, IH. simpl. destruct (f a); simpl;
    [reflexivity|now rewrite app_nil_r].
Qed.

Lemma insertAll_stable z l : forall rp,
  D z -> Forall D l -> Forall D rp ->
  List.filter (tied z) (insertAll rp l)
  = rev (List.filter (tied z) l) ++ List.filter (tied z) rp.
Proof.
  induction l as [|x l IH]; intros rp Hz Hl Hrp; [reflexivity|].
  inversion Hl; subst. cbn [insertAll]. rewrite IH; auto using insertRev_D.
  rewrite insertRev_stable; auto. cbn [List.filter].
  destruct (tied z x); [|reflexivity].
  simpl. now rewrite <- app_assoc.
Qed.

Lemma SSorted_snoc (R : A -> A -> Prop) l a :
  StronglySorted R l -> Forall (fun x => R x a) l -> StronglySorted R (l ++ [a]).
Proof.
  induction 1 as [|b l Hl IH Hb]; simpl; intros HF.
  - repeat constructor.
  - inversion HF; subst. constructor; [now apply IH|].
    apply Forall_app. split; [exact Hb|]. now repeat constructor.
Qed.

Lemma SSorted_rev (R : A -> A -> Prop) l :
  StronglySorted R l -> StronglySorted (fun a b => R b a) (rev l).
Proof.
  induction 1 as [|b l Hl IH Hb]; simpl; [constructor|].
  apply SSorted_snoc; [exact IH|].
  rewrite List.Forall_forall in *. intros x Hx. apply Hb. now apply in_rev.
Qed.

Lemma isort_sorted l : Forall D l ->
  StronglySorted (fun a b => lt b a = false) (isort l).
Proof.
  intros H. unfold isort.
  apply (SSorted_rev (fun a b => lt a b = false)).
  apply insertAll_descending; auto; constructor.
Qed.

Lemma isort_stable z l : D z -> Forall D l ->
  List.filter (tied z) (isort l) = List.filter (tied z) l.
Proof.
  intros Hz H. unfold isort.
  rewrite filter_rev, insertAll_stable by auto.
  simpl. now rewrite app_nil_r, rev_involutive.
Qed.

Lemma isort_idem l : Forall D l -> isort (isort l) = isort l.
Proof.
  intros H. apply isort_fixed. unfold isort. rewrite rev_involutive.
  apply descending_chain, insertAll_descending; auto; constructor.
Qed.

End Ordered.

End Insertion.

(** *** [sort.Stable] as an insertion sort on lists *)

Definition lessIR (a b : importRequire) : bool := lessNode (IRNode a) (IRNode b).

Lemma sift_insert rp : forall x post,
  sift (rev rp ++ x :: post) (length rp) = rev (insertRev lessIR x rp) ++ post.
Proof.
  induction rp as [|p ps IH]; intros x post; [reflexivity|].
  cbn [length sift rev insertRev].
  assert (L1 : ((rev ps ++ [p]) ++ x :: post) !! S (length ps) = Some x).
  { apply list_lookup_middle. rewrite length_app, length_rev. simpl. lia. }
  assert (L2 : ((rev ps ++ [p]) ++ x :: post) !! length ps = Some p).
  { rewrite <- app_assoc. apply list_lookup_middle. now rewrite length_rev. }
  unfold Less, Swap. rewrite L1, L2. fold (lessIR x p).
  destruct (lessIR x p).
  - replace (<[length ps := x]> (<[S (length ps) := p]> ((rev ps ++ [p]) ++ x :: post)))
      with (rev ps ++ x :: p :: post).
    + rewrite IH. cbn [rev]. now rewrite <- app_assoc.
    + rewrite <- app_assoc. cbn [app].
      rewrite (insert_app_r_alt (rev ps) _ (S (length ps))) by (rewrite length_rev; lia).
      rewrite length_rev. replace (S (length ps) - length ps)%nat with 1%nat by lia.
      cbn [list_insert insert].
      rewrite (insert_app_r_alt (rev ps) _ (length ps)) by (rewrite length_rev; lia).
      rewrite length_rev, Nat.sub_diag. reflexivity.
  - cbn [rev]. now rewrite <- !app_assoc.
Qed.

Lemma sift_all post : forall rp,
  fold_left sift (seq (length rp) (length post)) (rev rp ++ post)
  = rev (insertAll lessIR rp post).
Proof.
  induction post as [|x post IH]; intros rp; cbn [length seq fold_left insertAll].
  - now rewrite app_nil_r.
  - rewrite sift_insert. rewrite <- (insertRev_length lessIR x rp). apply IH.
Qed.

Lemma Stable_isort l : Stable l = isort lessIR l.
Proof.
  unfold Stable, isort, Len. destruct l as [|x l]; [reflexivity|].
  cbn [length insertAll insertRev].
  replace (S (length l) - 1)%nat with (length l) by lia.
  apply (sift_all l [x]).
Qed.

Lemma Stable_perm l : Permutation (Stable l) l.
Proof. rewrite Stable_isort. apply isort_perm. Qed.

(** *** The order of [Less] *)

Lemma ltb_irrefl s : String.ltb s s = false.
Proof.
  unfold String.ltb.
  pose proof (proj2 (OrderedTypeEx.String_as_OT.cmp_eq s s) eq_refl) as H.
  unfold OrderedTypeEx.String_as_OT.cmp in H. now rewrite H.
Qed.

Lemma ltb_asym a b : String.ltb a b = true -> String.ltb b a = false.
Proof.
  unfold String.ltb. rewrite (String.compare_antisym a b).
  destruct (String.compare b a); simpl; congruence.
Qed.

Lemma ltb_trans a b c :
  String.ltb a b = true -> String.ltb b c = true -> String.ltb a c = true.
Proof.
  unfold String.ltb. intros H1 H2.
  destruct (String.compare a b) eqn:E1; try discriminate.
  destruct (String.compare b c) eqn:E2; try discriminate.
  apply OrderedTypeEx.String_as_OT.cmp_lt in E1, E2.
  pose proof (OrderedTypeEx.String_as_OT.lt_trans _ _ _ E1 E2) as H.
  apply OrderedTypeEx.String_as_OT.cmp_lt in H.
  unfold OrderedTypeEx.String_as_OT.cmp in H. now rewrite H.
Qed.

Lemma ltb_total a b : String.ltb a b = false -> String.ltb b a = false -> a = b.
Proof.
  unfold String.ltb. rewrite (String.compare_antisym b a).
  destruct (String.compare a b) eqn:E; simpl; try discriminate.
  intros _ _. now apply String.compare_eq_iff.
Qed.

Lemma ltb_negtrans a b c :
  String.ltb a b = false -> String.ltb b c = false -> String.ltb a c = false.
Proof.
  intros H1 H2. destruct (String.ltb a c) eqn:H3; [|reflexivity].
  destruct (String.ltb b a) eqn:H4.
  - now rewrite (ltb_trans b a c H4 H3) in H2.
  - rewrite (ltb_total a b H1 H4) in H3. congruence.
Qed.

(** The entries [Less] orders: a bare symbol, or a list or vector that
    is not empty. *)
Definition orderly (n : Node) : bool :=
  match n with
  | SymbolNode _ => true
  | Composite ListNode (_ :: _) | Composite VectorNode (_ :: _) => true
  | _ => false
  end.

(** Symbols come first, then the lists and vectors led by a symbol, by
    that symbol, then the other lists and vectors. *)
Definition key (n : Node) : nat * string :=
  match n with
  | SymbolNode s => (0%nat, s)
  | Composite _ (SymbolNode s :: _) => (1%nat, s)
  | _ => (2%nat, "")
  end.

Definition klt (k1 k2 : nat * string) : bool :=
  (fst k1 <? fst k2)%nat || ((fst k1 =? fst k2)%nat && String.ltb (snd k1) (snd k2)).

Lemma lessNode_key a b :
  orderly a = true -> orderly b = true -> lessNode a b = klt (key a) (key b).
Proof.
  destruct a as [[] [|[] ?]| | | | | |]; try discriminate;
    destruct b as [[] [|[] ?]| | | | | |]; try discriminate;
    intros _ _; try reflexivity; unfold klt; simpl;
    try (symmetry; apply ltb_irrefl).
Qed.

Lemma klt_asym k1 k2 : klt k1 k2 = true -> klt k2 k1 = false.
Proof.
  unfold klt. destruct k1 as [i s], k2 as [j t]. simpl.
  destruct (Nat.ltb_spec i j), (Nat.ltb_spec j i), (Nat.eqb_spec i j),
    (Nat.eqb_spec j i); simpl; try lia; try discriminate; try reflexivity.
  apply ltb_asym.
Qed.

Lemma klt_negtrans k1 k2 k3 :
  klt k1 k2 = false -> klt k2 k3 = false -> klt k1 k3 = false.
Proof.
  unfold klt. destruct k1 as [i s], k2 as [j t], k3 as [k u]. simpl.
  destruct (Nat.ltb_spec i j), (Nat.ltb_spec j k), (Nat.ltb_spec i k),
    (Nat.eqb_spec i j), (Nat.eqb_spec j k), (Nat.eqb_spec i k);
    simpl; try lia; try discriminate; try reflexivity.
  apply ltb_negtrans.
Qed.

Definition orderlyIR (e : importRequire) : Prop := orderly (IRNode e) = true.

Lemma lessIR_asym a b :
  orderlyIR a -> orderlyIR b -> lessIR a b = true -> lessIR b a = false.
Proof.
  unfold lessIR, orderlyIR. intros Ha Hb.
  rewrite !lessNode_key by assumption. apply klt_asym.
Qed.

Lemma lessIR_negtrans a b c :
  orderlyIR a -> orderlyIR b -> orderlyIR c ->
  lessIR a b = false -> lessIR b c = false -> lessIR a c = false.
Proof.
  unfold lessIR, orderlyIR. intros Ha Hb Hc.
  rewrite !lessNode_key by assumption. apply klt_negtrans.
Qed.

Lemma Stable_idem l : Forall orderlyIR l -> Stable (Stable l) = Stable l.
Proof.
  intros H. rewrite !Stable_isort.
  apply (isort_idem lessIR orderlyIR lessIR_asym lessIR_negtrans l H).
Qed.

(** *** The loop of [sortImportRequire] *)

(** A semantic node is neither a newline nor a comment. *)
Definition semantic (n : Node) : bool := negb (Newline n) && negb (Comment n).

Lemma orderly_semantic n : orderly n = true -> semantic n = true.
Proof. destruct n; try discriminate; reflexivity. Qed.

Lemma scanNodes_app a : forall st b,
  scanNodes st (a ++ b)
  = match scanNodes st a with
    | Some st' => scanNodes st' b
    | None => None
    end.
Proof.
  induction a as [|x a IH]; intros st b; simpl; [reflexivity|].
  destruct (scanNode st x); [apply IH|reflexivity].
Qed.

Lemma setBeside_snoc l ir c :
  setBeside (l ++ [ir]) c
  = Some (l ++ [mkIR (CommentsAbove ir) (Some c) (IRNode ir)]).
Proof.
  unfold setBeside. rewrite rev_app_distr. simpl. now rewrite rev_involutive.
Qed.

(** While [afterSemanticNode] is set there is a last entry, and no
    comment waits for the next one. *)
Definition scanInv (st : scanState) : Prop :=
  afterSemanticNode st = true -> lineComments st = [] /\ sorted st <> [].

Lemma scanNode_semantic st n : semantic n = true ->
  scanNode st n = Some (mkScan (sorted st ++ [mkIR (lineComments st) None n]) [] true).
Proof. destruct n; try discriminate; reflexivity. Qed.

(** The loop does not panic, and the entries are the semantic nodes, in
    their order. *)
Lemma scanNodes_entries nodes : forall st,
  scanInv st ->
  exists st',
    scanNodes st nodes = Some st'
    /\ scanInv st'
    /\ map IRNode (sorted st') = map IRNode (sorted st) ++ List.filter semantic nodes.
Proof.
  induction nodes as [|n nodes IH]; intros st HI.
  - exists st. simpl. now rewrite app_nil_r.
  - cbn [scanNodes List.filter]. destruct (semantic n) eqn:Hs.
    + rewrite (scanNode_semantic st n Hs).
      destruct (IH (mkScan (sorted st ++ [mkIR (lineComments st) None n]) [] true))
        as (st' & E & HI' & Hm).
      { intros _. split; [reflexivity|]. simpl. now destruct (sorted st). }
      exists st'. split; [exact E|]. split; [exact HI'|].
      rewrite Hm. simpl. rewrite map_app. simpl. now rewrite <- app_assoc.
    + destruct n; try discriminate Hs.
      * cbn [scanNode]. destruct (afterSemanticNode st) eqn:Ha.
        -- destruct (HI Ha) as [HL HS].
           destruct (sorted st) as [|e l _] eqn:ES using rev_ind; [congruence|].
           rewrite setBeside_snoc.
           destruct (IH (mkScan (l ++ [mkIR (CommentsAbove e) (Some Text) (IRNode e)])
                           (lineComments st) true)) as (st' & E & HI' & Hm).
           { intros _. split; [exact HL|]. simpl. now destruct l. }
           exists st'. split; [exact E|]. split; [exact HI'|].
           rewrite Hm. simpl. now rewrite !map_app.
        -- destruct (IH (mkScan (sorted st) (lineComments st ++ [Text]) false))
             as (st' & E & HI' & Hm); [intros H; discriminate H|].
           exists st'. auto.
      * cbn [scanNode].
        destruct (IH (mkScan (sorted st) (lineComments st) false))
          as (st' & E & HI' & Hm); [intros H; discriminate H|].
        exists st'. auto.
Qed.

Definition scanStart : scanState := mkScan [] [] false.

Lemma scanInv_start : scanInv scanStart.
Proof. intros H. discriminate H. Qed.

(** Scanning what was emitted gives the entries and the comments back. *)
Lemma scan_lines L' : forall S L,
  scanNodes (mkScan S L false) (flat_map emitLine L') = Some (mkScan S (L ++ L') false).
Proof.
  induction L' as [|c L' IH]; intros S L; simpl; [now rewrite app_nil_r|].
  rewrite IH. now rewrite <- app_assoc.
Qed.

Lemma scan_emitEntry S ir : semantic (IRNode ir) = true ->
  scanNodes (mkScan S [] false) (emitEntry ir) = Some (mkScan (S ++ [ir]) [] false).
Proof.
  intros Hs. destruct ir as [above beside node]. unfold emitEntry. cbn [CommentsAbove IRNode CommentBeside].
  rewrite scanNodes_app, scan_lines. cbn [app].
  cbn [scanNodes]. rewrite (scanNode_semantic _ node Hs). cbn [sorted lineComments].
  destruct beside as [c|]; cbn [app scanNodes scanNode afterSemanticNode sorted lineComments].
  - rewrite setBeside_snoc. reflexivity.
  - reflexivity.
Qed.

Lemma scan_entries S' : forall S,
  Forall (fun ir => semantic (IRNode ir) = true) S' ->
  scanNodes (mkScan S [] false) (flat_map emitEntry S') = Some (mkScan (S ++ S') [] false).
Proof.
  induction S' as [|ir S' IH]; intros S H; simpl; [now rewrite app_nil_r|].
  inversion H; subst. rewrite scanNodes_app, scan_emitEntry by assumption.
  rewrite IH by assumption. now rewrite <- app_assoc.
Qed.

Definition emitted (S : importRequireList) (L : list string) : list Node :=
  flat_map emitEntry S ++ flat_map emitLine L.

Lemma scan_emitted S L :
  Forall (fun ir => semantic (IRNode ir) = true) S ->
  scanNodes scanStart (emitted S L) = Some (mkScan S L false).
Proof.
  intros H. unfold emitted, scanStart. rewrite scanNodes_app, scan_entries by assumption.
  simpl. apply scan_lines.
Qed.

(** What is emitted is empty or ends with a newline. *)
Lemma emitted_end S L :
  emitted S L = [] \/ exists body, emitted S L = body ++ [NewlineNode].
Proof.
  unfold emitted. destruct L as [|c L _] using rev_ind.
  - simpl. rewrite app_nil_r. destruct S as [|ir S _] using rev_ind; [now left|].
    right. rewrite flat_map_app. simpl. rewrite app_nil_r. unfold emitEntry.
    eexists. rewrite !app_assoc. reflexivity.
  - right. rewrite flat_map_app. simpl.
    exists (flat_map emitEntry S ++ flat_map emitLine L ++ [CommentNode c]).
    now rewrite <- !app_assoc.
Qed.

(** [dropTrailing] keeps the head, and the rest but perhaps its last
    newline. *)
Lemma dropTrailing_emitted n0 S L :
  exists body,
    dropTrailing ([n0] ++ emitted S L) = n0 :: body
    /\ (body = emitted S L \/ emitted S L = body ++ [NewlineNode]).
Proof.
  unfold dropTrailing.
  destruct (_ && _) eqn:E; [|exists (emitted S L); auto].
  destruct (emitted_end S L) as [H|[body H]]; rewrite H in *.
  - discriminate E.
  - exists body. split; [|now right].
    change ([n0] ++ body ++ [NewlineNode]) with ((n0 :: body) ++ [NewlineNode]).
    now rewrite removelast_last.
Qed.

Lemma scan_dropped S L body :
  Forall (fun ir => semantic (IRNode ir) = true) S ->
  body = emitted S L \/ emitted S L = body ++ [NewlineNode] ->
  exists st, scanNodes scanStart body = Some st
             /\ sorted st = S /\ lineComments st = L.
Proof.
  intros H [->|E].
  - exists (mkScan S L false). split; [now apply scan_emitted|auto].
  - pose proof (scan_emitted S L H) as Hs. rewrite E, scanNodes_app in Hs.
    destruct (scanNodes scanStart body) as [st|]; [|discriminate].
    exists st. split; [reflexivity|]. simpl in Hs. injection Hs as <- <-. auto.
Qed.

(** *** What the passes keep *)

(** The tree without its newline nodes. *)
Fixpoint squash (n : Node) : Node :=
  match n with
  | Composite t cs =>
      Composite t (flat_map (fun c => if Newline c then [] else [squash c]) cs)
  | _ => n
  end.

Definition squashAll (l : list Node) : list Node :=
  flat_map (fun c => if Newline c then [] else [squash c]) l.

(** The semantic content: the tree without its newline and comment
    nodes. *)
Fixpoint strip (n : Node) : Node :=
  match n with
  | Composite t cs =>
      Composite t (flat_map (fun c => if semantic c then [strip c] else []) cs)
  | _ => n
  end.

Definition stripAll (l : list Node) : list Node :=
  flat_map (fun c => if semantic c then [strip c] else []) l.

(** The comments of a tree, in the order of the text. *)
Fixpoint comments (n : Node) : list string :=
  match n with
  | CommentNode c => [c]
  | Composite _ cs => flat_map comments cs
  | _ => []
  end.

Definition commentsAll (l : list Node) : list string := flat_map comments l.

Lemma squash_class : keepsClass squash.
Proof. intros []; split; reflexivity. Qed.

Lemma semantic_class f n : keepsClass f -> semantic (f n) = semantic n.
Proof. intros H. unfold semantic. now rewrite (proj1 (H n)), (proj2 (H n)). Qed.

Lemma stripAll_squashAll l :
  Forall (fun c => strip (squash c) = strip c) l -> stripAll (squashAll l) = stripAll l.
Proof.
  induction 1 as [|c l Hc Hl IH]; [reflexivity|].
  unfold stripAll, squashAll in *. cbn [flat_map].
  destruct c; cbn [Newline semantic Comment negb andb app flat_map];
    rewrite ?IH; try reflexivity; cbn [Newline Comment negb andb app]; now rewrite Hc.
Qed.

Lemma strip_squash n : strip (squash n) = strip n.
Proof.
  induction n as [t cs IH|n Hn] using Node_induction.
  - cbn [squash strip]. f_equal. now apply stripAll_squashAll.
  - destruct n; try contradiction; reflexivity.
Qed.

Lemma commentsAll_squashAll l :
  Forall (fun c => comments (squash c) = comments c) l ->
  commentsAll (squashAll l) = commentsAll l.
Proof.
  induction 1 as [|c l Hc Hl IH]; [reflexivity|].
  unfold commentsAll, squashAll in *. cbn [flat_map].
  destruct c; cbn [Newline app flat_map]; rewrite ?IH; try reflexivity.
  now rewrite Hc.
Qed.

Lemma comments_squash n : comments (squash n) = comments n.
Proof.
  induction n as [t cs IH|n Hn] using Node_induction.
  - cbn [squash comments]. now apply commentsAll_squashAll.
  - destruct n; try contradiction; reflexivity.
Qed.

Lemma squashAll_dropNL l l' : dropNL l l' -> squashAll l' = squashAll l.
Proof. now apply dropNL_flat_map. Qed.

Lemma squashAll_map f l :
  keepsClass f -> Forall (fun c => squash (f c) = squash c) l ->
  squashAll (map f l) = squashAll l.
Proof.
  intros Hf. induction 1 as [|c l Hc Hl IH]; [reflexivity|].
  unfold squashAll in *. cbn [map flat_map].
  rewrite (proj1 (Hf c)), Hc, IH. reflexivity.
Qed.

Lemma squash_removeTrailingNewlines n : squash (removeTrailingNewlines n) = squash n.
Proof.
  induction n as [t cs IH|n Hn] using Node_induction.
  - cbn [removeTrailingNewlines squash]. f_equal.
    change (squashAll (trim (map removeTrailingNewlines cs)) = squashAll cs).
    rewrite (squashAll_dropNL _ _ (trim_dropNL _)).
    now apply squashAll_map; [apply removeTrailingNewlines_class|].
  - destruct n; try contradiction; reflexivity.
Qed.

Lemma squash_removeExtraBlankLinesRecursive n :
  squash (removeExtraBlankLinesRecursive n) = squash n.
Proof.
  induction n as [t cs IH|n Hn] using Node_induction.
  - cbn [removeExtraBlankLinesRecursive squash]. f_equal.
    change (squashAll (collapseLong (map removeExtraBlankLinesRecursive cs))
            = squashAll cs).
    rewrite collapseLong_eq.
    rewrite (squashAll_dropNL _ _ (collapse_dropNL _ 0)).
    now apply squashAll_map; [apply removeExtraBlankLinesRecursive_class|].
  - destruct n; try contradiction; reflexivity.
Qed.

Lemma squash_fixDefnArglist n : squash (fixDefnArglist n) = squash n.
Proof.
  unfold fixDefnArglist.
  destruct n as [t [|n0 [|n1 [|n2 [|n3 [|n4 rest]]]]]| | | | | |]; try reflexivity.
  cbn [Children].
  destruct (negb (Newline n2) || Newline n4) eqn:H1; [reflexivity|].
  destruct (negb (Vector n3)) eqn:H2; [reflexivity|].
  destruct n2; try discriminate H1.
  destruct n3 as [[] ?| | | | | |]; try discriminate H2.
  cbn [SetChildren squash flat_map Newline app].
  destruct (Newline n0), (Newline n1); reflexivity.
Qed.

Lemma squash_fixDefmethodDispatchVal n : squash (fixDefmethodDispatchVal n) = squash n.
Proof.
  unfold fixDefmethodDispatchVal.
  destruct n as [t [|n0 [|n1 [|n2 [|n3 [|n4 rest]]]]]| | | | | |]; try reflexivity.
  cbn [Children].
  destruct (negb (Newline n2)) eqn:H1; [reflexivity|].
  destruct (negb (Keyword n3)) eqn:H2; [reflexivity|].
  destruct n2; try discriminate H1. destruct n3; try discriminate H2.
  destruct (Newline n4); cbn [SetChildren squash flat_map Newline app];
    destruct (Newline n0), (Newline n1); reflexivity.
Qed.

Lemma fixDefnArglist_class : keepsClass fixDefnArglist.
Proof.
  intros n. unfold fixDefnArglist.
  destruct n as [t [|n0 [|n1 [|n2 [|n3 [|n4 rest]]]]]| | | | | |];
    try (split; reflexivity).
  cbn [Children]. destruct (negb (Newline n2) || Newline n4); [split; reflexivity|].
  destruct (negb (Vector n3)); split; reflexivity.
Qed.

Lemma fixDefmethodDispatchVal_class : keepsClass fixDefmethodDispatchVal.
Proof.
  intros n. unfold fixDefmethodDispatchVal.
  destruct n as [t [|n0 [|n1 [|n2 [|n3 [|n4 rest]]]]]| | | | | |];
    try (split; reflexivity).
  cbn [Children]. destruct (negb (Newline n2)); [split; reflexivity|].
  destruct (negb (Keyword n3)); [split; reflexivity|].
  destruct (Newline n4); split; reflexivity.
Qed.

(** The passes after the sort, as [applyRoot] chains them. *)
Definition afterSort (transforms : Transforms) (r1 : Node) : Node :=
  let r2 := if transforms TransformRemoveTrailingNewlines
            then removeTrailingNewlines r1 else r1 in
  let r3 := if transforms TransformFixDefnArglistNewline
               && FnFormSymbol r2 ["defn"]
            then fixDefnArglist r2 else r2 in
  let r4 := if transforms TransformFixDefmethodDispatchValNewline
               && FnFormSymbol r3 ["defmethod"]
            then fixDefmethodDispatchVal r3 else r3 in
  if transforms TransformRemoveExtraBlankLines
  then removeExtraBlankLinesRecursive r4 else r4.

Lemma squash_afterSort transforms r : squash (afterSort transforms r) = squash r.
Proof.
  unfold afterSort.
  repeat match goal with
         | |- context [if ?b then _ else _] => destruct b
         end;
    rewrite ?squash_removeExtraBlankLinesRecursive, ?squash_fixDefmethodDispatchVal,
      ?squash_fixDefnArglist, ?squash_removeTrailingNewlines; reflexivity.
Qed.

Lemma afterSort_class transforms : keepsClass (afterSort transforms).
Proof.
  intros r. unfold afterSort.
  repeat match goal with
         | |- context [if ?b then _ else _] => destruct b
         end;
    repeat match goal with
           | |- context [Newline (?f ?x)] =>
               first [ rewrite (proj1 (removeExtraBlankLinesRecursive_class x))
                     | rewrite (proj1 (fixDefmethodDispatchVal_class x))
                     | rewrite (proj1 (fixDefnArglist_class x))
                     | rewrite (proj1 (removeTrailingNewlines_class x)) ]
           | |- context [Comment (?f ?x)] =>
               first [ rewrite (proj2 (removeExtraBlankLinesRecursive_class x))
                     | rewrite (proj2 (fixDefmethodDispatchVal_class x))
                     | rewrite (proj2 (fixDefnArglist_class x))
                     | rewrite (proj2 (removeTrailingNewlines_class x)) ]
           end; split; reflexivity.
Qed.

(** *** [sortImportRequire] *)

Definition semanticIR (ir : importRequire) : Prop := semantic (IRNode ir) = true.

Lemma filter_semantic_all l : Forall (fun n => semantic n = true) (List.filter semantic l).
Proof.
  apply List.Forall_forall. intros n H. now apply List.filter_In in H.
Qed.

Lemma entries_semantic (S : importRequireList) l :
  map IRNode S = List.filter semantic l -> Forall semanticIR S.
Proof.
  intros E. pose proof (filter_semantic_all l) as H. rewrite <- E in H.
  clear E. induction S; inversion H; subst; constructor; auto.
Qed.

Lemma Stable_Forall (P : importRequire -> Prop) S : Forall P S -> Forall P (Stable S).
Proof. intros H. now rewrite Stable_perm. Qed.

(** What [sortImportRequire] returns on a list with a first child. *)
Lemma sortImportRequire_shape n0 rest :
  exists st body,
    scanNodes scanStart rest = Some st
    /\ map IRNode (sorted st) = List.filter semantic rest
    /\ sortImportRequire (Composite ListNode (n0 :: rest))
       = Some (Composite ListNode (n0 :: body))
    /\ (body = emitted (Stable (sorted st)) (lineComments st)
        \/ emitted (Stable (sorted st)) (lineComments st) = body ++ [NewlineNode]).
Proof.
  destruct (scanNodes_entries rest scanStart scanInv_start) as (st & E & _ & Hm).
  destruct (dropTrailing_emitted n0 (Stable (sorted st)) (lineComments st))
    as (body & Hd & Hb).
  exists st, body. split; [exact E|]. split; [exact Hm|]. split; [|exact Hb].
  unfold sortImportRequire. fold scanStart. rewrite E.
  unfold emitted in Hd. now rewrite Hd.
Qed.

Lemma FnFormKeyword_shape n kws :
  FnFormKeyword n kws = true ->
  exists v rest, n = Composite ListNode (KeywordNode v :: rest).
Proof.
  destruct n as [[] [|[] ?]| | | | | |]; try discriminate. eauto.
Qed.

Lemma FnFormSymbol_shape n syms :
  FnFormSymbol n syms = true ->
  exists v rest, n = Composite ListNode (SymbolNode v :: rest)
                 /\ existsb (String.eqb v) syms = true.
Proof.
  destruct n as [[] [|[] ?]| | | | | |]; try discriminate. eauto.
Qed.

Lemma stripAll_filter l : stripAll l = map strip (List.filter semantic l).
Proof.
  induction l as [|c l IH]; [reflexivity|].
  unfold stripAll in *. cbn [flat_map List.filter].
  destruct (semantic c); cbn [app map]; now rewrite IH.
Qed.

Lemma stripAll_app a b : stripAll (a ++ b) = stripAll a ++ stripAll b.
Proof. apply flat_map_app. Qed.

Lemma stripAll_lines L : stripAll (flat_map emitLine L) = [].
Proof. induction L; simpl; auto. Qed.

Lemma stripAll_entries S :
  Forall semanticIR S -> stripAll (flat_map emitEntry S) = map strip (map IRNode S).
Proof.
  induction 1 as [|ir S Hir HS IH]; [reflexivity|].
  cbn [flat_map map]. rewrite stripAll_app, IH. f_equal.
  unfold emitEntry. rewrite !stripAll_app, stripAll_lines.
  unfold stripAll at 1. cbn [flat_map]. rewrite Hir.
  destruct (CommentBeside ir); reflexivity.
Qed.

Lemma stripAll_emitted S L :
  Forall semanticIR S -> stripAll (emitted S L) = map strip (map IRNode S).
Proof.
  intros H. unfold emitted.
  now rewrite stripAll_app, stripAll_lines, app_nil_r, stripAll_entries.
Qed.

Lemma stripAll_body S L body :
  Forall semanticIR S ->
  body = emitted S L \/ emitted S L = body ++ [NewlineNode] ->
  stripAll body = map strip (map IRNode S).
Proof.
  intros H [->|E]; [now apply stripAll_emitted|].
  rewrite <- (stripAll_emitted S L H), E, stripAll_app. simpl.
  now rewrite app_nil_r.
Qed.

(** The sort keeps the head of the list and permutes the semantic nodes
    after it. *)
Lemma sortImportRequire_strip n0 rest :
  exists body,
    sortImportRequire (Composite ListNode (n0 :: rest))
    = Some (Composite ListNode (n0 :: body))
    /\ Permutation (stripAll rest) (stripAll body).
Proof.
  destruct (sortImportRequire_shape n0 rest) as (st & body & E & Hm & Hs & Hb).
  exists body. split; [exact Hs|].
  pose proof (entries_semantic _ _ Hm) as Hsem.
  rewrite (stripAll_body _ _ _ (Stable_Forall _ _ Hsem) Hb).
  rewrite stripAll_filter, <- Hm.
  apply Permutation_map, Permutation_map. symmetry. apply Stable_perm.
Qed.

(** Sorting what has been sorted. *)
Lemma sortImportRequire_idem n0 rest body :
  Forall (fun n => semantic n = true -> orderly n = true) rest ->
  sortImportRequire (Composite ListNode (n0 :: rest))
  = Some (Composite ListNode (n0 :: body)) ->
  sortImportRequire (Composite ListNode (n0 :: body))
  = Some (Composite ListNode (n0 :: body)).
Proof.
  intros Hord Hs.
  destruct (sortImportRequire_shape n0 rest) as (st & body' & E & Hm & Hs' & Hb).
  rewrite Hs in Hs'. injection Hs' as <-.
  pose proof (entries_semantic _ _ Hm) as Hsem.
  assert (Ho : Forall orderlyIR (sorted st)).
  { apply List.Forall_forall. intros ir Hir.
    rewrite List.Forall_forall in Hord, Hsem. unfold orderlyIR.
    apply Hord; [|apply Hsem, Hir].
    assert (Hin : In (IRNode ir) (map IRNode (sorted st))) by now apply in_map.
    rewrite Hm in Hin. now apply List.filter_In in Hin. }
  destruct (scan_dropped _ _ _ (Stable_Forall _ _ Hsem) Hb) as (st2 & E2 & HS2 & HL2).
  unfold sortImportRequire in *. fold scanStart in *. rewrite E in Hs. rewrite E2.
  rewrite HS2, HL2, (Stable_idem _ Ho). exact Hs.
Qed.

(** **** Comments *)

Section Gather.

(** [g] gathers comment texts: all those of a node, or its own. *)
Variable g : Node -> list string.
Hypothesis g_comment : forall c, g (CommentNode c) = [c].
Hypothesis g_newline : g NewlineNode = [].

Definition besideList (ir : importRequire) : list string :=
  match CommentBeside ir with
  | Some c => [c]
  | None => []
  end.

Definition irG (ir : importRequire) : list string :=
  CommentsAbove ir ++ g (IRNode ir) ++ besideList ir.

Definition stG (st : scanState) : list string :=
  flat_map irG (sorted st) ++ lineComments st.

(** No entry is followed, before the next newline, by two comments:
    [after] and [beside] say whether an entry was just read and whether
    it has its comment. *)
Fixpoint tidyFrom (after beside : bool) (nodes : list Node) : bool :=
  match nodes with
  | [] => true
  | CommentNode _ :: rest =>
      if after then negb beside && tidyFrom true true rest
      else tidyFrom false beside rest
  | NewlineNode :: rest => tidyFrom false beside rest
  | _ :: rest => tidyFrom true false rest
  end.

Definition besideOf (st : scanState) : bool :=
  match last (sorted st) with
  | Some ir => match CommentBeside ir with Some _ => true | None => false end
  | None => false
  end.

Lemma tidyFrom_semantic after beside n rest :
  semantic n = true -> tidyFrom after beside (n :: rest) = tidyFrom true false rest.
Proof. destruct n; try discriminate; reflexivity. Qed.

Lemma scan_gather nodes : forall st beside st',
  scanInv st ->
  (afterSemanticNode st = true -> besideOf st = beside) ->
  tidyFrom (afterSemanticNode st) beside nodes = true ->
  scanNodes st nodes = Some st' ->
  stG st' = stG st ++ flat_map g nodes.
Proof.
  induction nodes as [|n nodes IH]; intros st beside st' HI Hb Ht Hs.
  - injection Hs as <-. simpl. now rewrite app_nil_r.
  - cbn [scanNodes flat_map] in *. destruct (semantic n) eqn:Hsem.
    + rewrite (scanNode_semantic st n Hsem) in Hs.
      rewrite (tidyFrom_semantic _ _ n nodes Hsem) in Ht.
      match type of Hs with scanNodes ?s _ = _ => rewrite (IH s false st') end;
        [| | |exact Ht|exact Hs].
      * unfold stG, irG, besideList. cbn [sorted lineComments CommentsAbove IRNode CommentBeside].
        rewrite flat_map_app. cbn [flat_map]. rewrite !app_nil_r, <- !app_assoc.
        reflexivity.
      * intros _. split; [reflexivity|]. simpl. now destruct (sorted st).
      * intros _. unfold besideOf. cbn [sorted]. now rewrite last_snoc.
    + destruct n; try discriminate Hsem.
      * cbn [scanNode tidyFrom] in *. rewrite g_comment.
        destruct (afterSemanticNode st) eqn:Ha.
        -- destruct (HI Ha) as [HL HS]. specialize (Hb eq_refl).
           apply andb_prop in Ht as [Hnb Ht]. apply negb_true_iff in Hnb. subst beside.
           destruct (sorted st) as [|e l _] eqn:ES using rev_ind; [congruence|].
           rewrite setBeside_snoc in Hs.
           unfold besideOf in Hnb. rewrite ES, last_snoc in Hnb.
           destruct (CommentBeside e) eqn:EB; [discriminate|].
           match type of Hs with scanNodes ?s _ = _ => rewrite (IH s true st') end;
             [| | |exact Ht|exact Hs].
           ++ unfold stG, irG, besideList.
              cbn [sorted lineComments CommentsAbove IRNode CommentBeside].
              rewrite ES, HL, !flat_map_app. cbn [flat_map].
              rewrite EB, !app_nil_r, <- !app_assoc. reflexivity.
           ++ intros _. split; [exact HL|]. simpl. now destruct l.
           ++ intros _. unfold besideOf. cbn [sorted]. now rewrite last_snoc.
        -- match type of Hs with scanNodes ?s _ = _ => rewrite (IH s beside st') end;
             [| | |exact Ht|exact Hs].
           ++ unfold stG. cbn [sorted lineComments]. now rewrite <- !app_assoc.
           ++ intros H. discriminate H.
           ++ intros H. discriminate H.
      * cbn [scanNode tidyFrom] in *. rewrite g_newline.
        match type of Hs with scanNodes ?s _ = _ => rewrite (IH s beside st') end;
          [| | |exact Ht|exact Hs].
        -- reflexivity.
        -- intros H. discriminate H.
        -- intros H. discriminate H.
Qed.

Lemma gather_lines L : flat_map g (flat_map emitLine L) = L.
Proof.
  induction L as [|c L IH]; [reflexivity|].
  cbn [flat_map emitLine app]. rewrite g_comment, g_newline, IH. reflexivity.
Qed.

Lemma gather_emitted S L : flat_map g (emitted S L) = flat_map irG S ++ L.
Proof.
  unfold emitted. rewrite flat_map_app, gather_lines. f_equal.
  induction S as [|ir S IH]; [reflexivity|].
  cbn [flat_map]. rewrite flat_map_app, IH. f_equal.
  unfold emitEntry, irG, besideList. rewrite !flat_map_app, gather_lines.
  destruct (CommentBeside ir); cbn [flat_map app];
    rewrite ?g_comment, g_newline, ?app_nil_r; reflexivity.
Qed.

Lemma gather_body S L body :
  body = emitted S L \/ emitted S L = body ++ [NewlineNode] ->
  flat_map g body = flat_map irG S ++ L.
Proof.
  intros [->|E]; [apply gather_emitted|].
  rewrite <- gather_emitted, E, flat_map_app. cbn [flat_map].
  now rewrite g_newline, !app_nil_r.
Qed.

(** The sort keeps the comments of a tidy list, as a multiset. *)
Lemma sortImportRequire_gather n0 rest :
  tidyFrom false false rest = true ->
  exists body,
    sortImportRequire (Composite ListNode (n0 :: rest))
    = Some (Composite ListNode (n0 :: body))
    /\ Permutation (flat_map g body) (flat_map g rest).
Proof.
  intros Ht.
  destruct (sortImportRequire_shape n0 rest) as (st & body & E & Hm & Hs & Hb).
  exists body. split; [exact Hs|].
  rewrite (gather_body _ _ _ Hb).
  pose proof (scan_gather rest scanStart false st scanInv_start
                (fun H => ltac:(discriminate H)) Ht E) as Hg.
  assert (Hr : flat_map g rest = stG st) by (rewrite Hg; reflexivity).
  rewrite Hr. unfold stG. apply Permutation_app_tail.
  apply Permutation_flat_map, Stable_perm.
Qed.

End Gather.

Definition tidy (nodes : list Node) : bool := tidyFrom false false nodes.

(** The comments among the nodes themselves. *)
Definition ownComment (n : Node) : list string :=
  match n with
  | CommentNode c => [c]
  | _ => []
  end.

(** *** Lifting to [sortNS], [applyRoot] and [applyTransforms] *)

Definition kws : list string := [":require"; ":import"].

Lemma sortImportRequire_total n :
  FnFormKeyword n kws = true -> exists n', sortImportRequire n = Some n'.
Proof.
  intros H. destruct (FnFormKeyword_shape _ _ H) as (v & rest & ->).
  destruct (sortImportRequire_shape (KeywordNode v) rest) as (st & body & _ & _ & E & _).
  eauto.
Qed.

Lemma sortEach_Forall2 (R : Node -> Node -> Prop) (P : Node -> Prop) :
  (forall n, FnFormKeyword n kws = false -> R n n) ->
  (forall n n', P n -> FnFormKeyword n kws = true ->
                sortImportRequire n = Some n' -> R n n') ->
  forall nodes, Forall P nodes ->
  exists nodes', sortEach nodes = Some nodes' /\ Forall2 R nodes nodes'.
Proof.
  intros Hrefl Hsort. induction 1 as [|n nodes Hn Hnodes (nodes' & E & HF)].
  - exists []. split; [reflexivity|constructor].
  - cbn [sortEach]. fold kws. destruct (FnFormKeyword n kws) eqn:Hk.
    + destruct (sortImportRequire_total n Hk) as (n' & En). rewrite En, E.
      exists (n' :: nodes'). split; [reflexivity|]. constructor; auto.
    + rewrite E. exists (n :: nodes'). split; [reflexivity|]. constructor; auto.
Qed.

Lemma sortNS_Forall2 (R : Node -> Node -> Prop) (P : Node -> Prop) root :
  (forall n, FnFormKeyword n kws = false -> R n n) ->
  (forall n n', P n -> FnFormKeyword n kws = true ->
                sortImportRequire n = Some n' -> R n n') ->
  FnFormSymbol root ["ns"] = true ->
  Forall P (tail (Children root)) ->
  exists rest rest',
    root = Composite ListNode (SymbolNode "ns" :: rest)
    /\ sortNS root = Some (Composite ListNode (SymbolNode "ns" :: rest'))
    /\ Forall2 R rest rest'.
Proof.
  intros Hrefl Hsort Hns HP.
  destruct (FnFormSymbol_shape _ _ Hns) as (v & rest & -> & Hv).
  simpl in Hv. rewrite orb_false_r in Hv. apply String.eqb_eq in Hv. subst v.
  simpl in HP. destruct (sortEach_Forall2 R P Hrefl Hsort rest HP) as (rest' & E & HF).
  exists rest, rest'. split; [reflexivity|]. split; [|exact HF].
  unfold sortNS. cbn [Children]. rewrite E. reflexivity.
Qed.

Lemma applyRoot_eq transforms root :
  applyRoot transforms root
  = match (if transforms TransformSortImportRequire && FnFormSymbol root ["ns"]
           then sortNS root else Some root) with
    | None => None
    | Some r1 => Some (afterSort transforms r1)
    end.
Proof. reflexivity. Qed.

Lemma applyRoots_Forall2 (R : Node -> Node -> Prop) transforms :
  forall roots,
  Forall (fun root => exists root', applyRoot transforms root = Some root'
                                    /\ R root root') roots ->
  exists roots', applyRoots transforms roots = Some roots' /\ Forall2 R roots roots'.
Proof.
  induction 1 as [|root roots (root' & E & HR) _ (roots' & Es & HF)].
  - exists []. split; [reflexivity|constructor].
  - exists (root' :: roots'). cbn [applyRoots]. rewrite E, Es.
    split; [reflexivity|]. now constructor.
Qed.

Lemma applyRoots_nosort transforms roots :
  transforms TransformSortImportRequire = false ->
  applyRoots transforms roots = Some (map (afterSort transforms) roots).
Proof.
  intros H. induction roots as [|root roots IH]; [reflexivity|].
  cbn [applyRoots map]. rewrite applyRoot_eq, H, IH. reflexivity.
Qed.

(** The lists that the sort rewrites: the [:require] and [:import]
    children of the [ns] forms. *)
Definition requireLists (root : Node) : list Node :=
  if FnFormSymbol root ["ns"]
  then List.filter (fun n => FnFormKeyword n kws) (tail (Children root))
  else [].

Definition sortedLists (t : Tree) : list Node := flat_map requireLists (Roots t).

Lemma forallb_filter_Forall (c f : Node -> bool) l :
  forallb c (List.filter f l) = true ->
  Forall (fun n => f n = true -> c n = true) l.
Proof.
  induction l as [|n l IH]; cbn [List.filter]; intros H; [constructor|].
  destruct (f n) eqn:Hf.
  - cbn [forallb] in H. apply andb_prop in H as [H1 H2]. constructor; auto.
  - constructor; [congruence|auto].
Qed.

Lemma sortedLists_Forall (c : Node -> bool) t :
  forallb c (sortedLists t) = true ->
  Forall (fun root => FnFormSymbol root ["ns"] = true ->
            Forall (fun n => FnFormKeyword n kws = true -> c n = true)
                   (tail (Children root))) (Roots t).
Proof.
  unfold sortedLists. induction (Roots t) as [|root roots IH]; [constructor|].
  cbn [flat_map]. rewrite forallb_app. intros H. apply andb_prop in H as [H1 H2].
  constructor; [|auto]. intros Hns. unfold requireLists in H1. rewrite Hns in H1.
  now apply forallb_filter_Forall.
Qed.

(** **** Semantic content *)

Inductive reorderedEntry : Node -> Node -> Prop :=
| entry_same n : reorderedEntry n n
| entry_sorted k es es' :
    In k kws -> Permutation es es' ->
    reorderedEntry (Composite ListNode (KeywordNode k :: es))
                   (Composite ListNode (KeywordNode k :: es')).

Inductive reorderedRoot : Node -> Node -> Prop :=
| root_same n : reorderedRoot n n
| root_ns cs cs' :
    Forall2 reorderedEntry cs cs' ->
    reorderedRoot (Composite ListNode (SymbolNode "ns" :: cs))
                  (Composite ListNode (SymbolNode "ns" :: cs')).

Lemma Forall2_stripAll (Q : Node -> Node -> Prop) l l' :
  Forall2 (fun n n' => semantic n' = semantic n /\ Q (strip n) (strip n')) l l' ->
  Forall2 Q (stripAll l) (stripAll l').
Proof.
  induction 1 as [|n n' l l' [Hs HQ] _ IH]; [constructor|].
  unfold stripAll in *. cbn [flat_map]. rewrite Hs.
  destruct (semantic n); cbn [app]; [constructor|]; auto.
Qed.

Lemma existsb_eqb_In k l : existsb (String.eqb k) l = true -> In k l.
Proof.
  intros H. apply existsb_exists in H as (x & Hx & E).
  apply String.eqb_eq in E. now subst.
Qed.

Lemma sortImportRequire_reordered n n' :
  FnFormKeyword n kws = true -> sortImportRequire n = Some n' ->
  semantic n' = semantic n /\ reorderedEntry (strip n) (strip n').
Proof.
  intros Hk Hs. pose proof Hk as Hk'.
  destruct (FnFormKeyword_shape _ _ Hk) as (v & rest & ->).
  destruct (sortImportRequire_strip (KeywordNode v) rest) as (body & E & HP).
  rewrite E in Hs. injection Hs as <-. split; [reflexivity|].
  cbn [strip flat_map semantic Newline Comment negb andb app].
  apply entry_sorted; [|exact HP]. simpl in Hk'. now apply existsb_eqb_In.
Qed.

Lemma strip_afterSort transforms r : strip (afterSort transforms r) = strip r.
Proof.
  now rewrite <- strip_squash, squash_afterSort, strip_squash.
Qed.

Lemma applyRoot_reordered transforms root :
  exists root',
    applyRoot transforms root = Some root'
    /\ semantic root' = semantic root
    /\ reorderedRoot (strip root) (strip root').
Proof.
  rewrite applyRoot_eq.
  destruct (transforms TransformSortImportRequire && FnFormSymbol root ["ns"]) eqn:H.
  - apply andb_prop in H as [_ Hns].
    destruct (sortNS_Forall2
                (fun n n' => semantic n' = semantic n
                             /\ reorderedEntry (strip n) (strip n'))
                (fun _ => True) root) as (rest & rest' & -> & E & HF); auto.
    + intros n _. split; [reflexivity|constructor].
    + intros n n' _. apply sortImportRequire_reordered.
    + apply List.Forall_forall. auto.
    + rewrite E. eexists. split; [reflexivity|].
      rewrite (semantic_class _ _ (afterSort_class transforms)), strip_afterSort.
      split; [reflexivity|]. cbn [strip flat_map semantic Newline Comment negb andb app].
      apply root_ns. now apply Forall2_stripAll.
  - eexists. split; [reflexivity|].
    rewrite (semantic_class _ _ (afterSort_class transforms)), strip_afterSort.
    split; [reflexivity|constructor].
Qed.

Lemma stripAll_dropNL l l' : dropNL l l' -> stripAll l' = stripAll l.
Proof. now apply dropNL_flat_map. Qed.

Lemma stripAll_afterSort transforms roots :
  stripAll (map (afterSort transforms) roots) = stripAll roots.
Proof.
  induction roots as [|r roots IH]; [reflexivity|].
  unfold stripAll in *. cbn [map flat_map].
  now rewrite (semantic_class _ _ (afterSort_class transforms)), strip_afterSort, IH.
Qed.

(** C6: a run of the passes leaves the tree of semantic nodes as it was,
    but for the order of the entries of the [:require] and [:import]
    lists of the [ns] forms when the sort is enabled; the passes never
    panic. *)
Theorem semantic_content_preserved t transforms :
  exists t',
    applyTransforms t transforms = Some t'
    /\ if transforms TransformSortImportRequire
       then Forall2 reorderedRoot (stripAll (Roots t)) (stripAll (Roots t'))
       else stripAll (Roots t') = stripAll (Roots t).
Proof.
  unfold applyTransforms.
  destruct (transforms TransformSortImportRequire) eqn:Hsort.
  - destruct (applyRoots_Forall2
                (fun n n' => semantic n' = semantic n
                             /\ reorderedRoot (strip n) (strip n'))
                transforms (Roots t)) as (roots' & E & HF).
    { apply List.Forall_forall. intros root _. apply applyRoot_reordered. }
    rewrite E. eexists. split; [reflexivity|]. cbn [Roots].
    apply Forall2_stripAll in HF.
    destruct (transforms TransformRemoveExtraBlankLines); [|exact HF].
    unfold removeExtraBlankLines.
    now rewrite (stripAll_dropNL _ _ (collapse_dropNL roots' 0)).
  - rewrite (applyRoots_nosort _ _ Hsort). eexists. split; [reflexivity|].
    cbn [Roots]. destruct (transforms TransformRemoveExtraBlankLines).
    + unfold removeExtraBlankLines.
      rewrite (stripAll_dropNL _ _ (collapse_dropNL _ 0)).
      apply stripAll_afterSort.
    + apply stripAll_afterSort.
Qed.

(** **** Comments *)

Definition tidyTree (t : Tree) : bool :=
  forallb (fun n => tidy (tail (Children n))) (sortedLists t).

Lemma comments_afterSort transforms r : comments (afterSort transforms r) = comments r.
Proof.
  now rewrite <- comments_squash, squash_afterSort, comments_squash.
Qed.

Lemma commentsAll_dropNL l l' : dropNL l l' -> commentsAll l' = commentsAll l.
Proof. now apply dropNL_flat_map. Qed.

Lemma commentsAll_Forall2 l l' :
  Forall2 (fun n n' => Permutation (comments n') (comments n)) l l' ->
  Permutation (commentsAll l') (commentsAll l).
Proof.
  induction 1 as [|n n' l l' H _ IH]; [constructor|].
  unfold commentsAll in *. cbn [flat_map]. now apply Permutation_app.
Qed.

Lemma sortImportRequire_comments n n' :
  tidy (tail (Children n)) = true ->
  FnFormKeyword n kws = true -> sortImportRequire n = Some n' ->
  Permutation (comments n') (comments n)
  /\ Permutation (flat_map ownComment (Children n')) (flat_map ownComment (Children n)).
Proof.
  intros Ht Hk Hs. destruct (FnFormKeyword_shape _ _ Hk) as (v & rest & ->).
  cbn [Children tail] in Ht. split.
  - destruct (sortImportRequire_gather comments (fun _ => eq_refl) eq_refl
                (KeywordNode v) rest Ht) as (body & E & HP).
    rewrite E in Hs. injection Hs as <-. cbn [comments flat_map app]. exact HP.
  - destruct (sortImportRequire_gather ownComment (fun _ => eq_refl) eq_refl
                (KeywordNode v) rest Ht) as (body & E & HP).
    rewrite E in Hs. injection Hs as <-. cbn [Children flat_map ownComment app].
    exact HP.
Qed.

Lemma applyRoot_comments transforms root :
  (FnFormSymbol root ["ns"] = true ->
   Forall (fun n => FnFormKeyword n kws = true -> tidy (tail (Children n)) = true)
          (tail (Children root))) ->
  exists root',
    applyRoot transforms root = Some root'
    /\ Permutation (comments root') (comments root).
Proof.
  intros Htidy. rewrite applyRoot_eq.
  destruct (transforms TransformSortImportRequire && FnFormSymbol root ["ns"]) eqn:H.
  - apply andb_prop in H as [_ Hns].
    destruct (sortNS_Forall2
                (fun n n' => Permutation (comments n') (comments n))
                (fun n => FnFormKeyword n kws = true -> tidy (tail (Children n)) = true)
                root) as (rest & rest' & -> & E & HF); auto.
    + intros n n' Hn Hk Hs. apply (sortImportRequire_comments n n' (Hn Hk) Hk Hs).
    + rewrite E. eexists. split; [reflexivity|].
      rewrite comments_afterSort. cbn [comments flat_map app].
      now apply commentsAll_Forall2.
  - eexists. split; [reflexivity|]. now rewrite comments_afterSort.
Qed.

(** C10 (as amended): when no entry of a [:require] or [:import] list is
    followed by two comments before the next newline, a run of the
    passes keeps every comment of the tree, and the sort keeps the
    comments among the children of each list it rewrites. *)
Theorem comments_preserved t transforms :
  tidyTree t = true ->
  (exists t',
     applyTransforms t transforms = Some t'
     /\ Permutation (commentsAll (Roots t')) (commentsAll (Roots t)))
  /\ Forall (fun n => exists n',
               sortImportRequire n = Some n'
               /\ Permutation (flat_map ownComment (Children n'))
                              (flat_map ownComment (Children n)))
            (sortedLists t).
Proof.
  intros Ht. split.
  - pose proof (sortedLists_Forall _ _ Ht) as HF.
    unfold applyTransforms.
    destruct (applyRoots_Forall2
                (fun n n' => Permutation (comments n') (comments n))
                transforms (Roots t)) as (roots' & E & HF').
    { rewrite List.Forall_forall in *. intros root Hin.
      apply applyRoot_comments, HF, Hin. }
    rewrite E. eexists. split; [reflexivity|]. cbn [Roots].
    apply commentsAll_Forall2 in HF'.
    destruct (transforms TransformRemoveExtraBlankLines); [|exact HF'].
    unfold removeExtraBlankLines.
    now rewrite (commentsAll_dropNL _ _ (collapse_dropNL roots' 0)).
  - unfold tidyTree in Ht. rewrite forallb_forall in Ht.
    apply List.Forall_forall. intros n Hin.
    assert (Hk : FnFormKeyword n kws = true).
    { unfold sortedLists in Hin. apply in_flat_map in Hin as (root & _ & Hin).
      unfold requireLists in Hin. destruct (FnFormSymbol root ["ns"]); [|contradiction].
      now apply List.filter_In in Hin. }
    destruct (sortImportRequire_total n Hk) as (n' & E).
    exists n'. split; [exact E|].
    now apply (sortImportRequire_comments n n' (Ht n Hin) Hk E).
Qed.

Definition exampleNS (entries : list Node) : Tree :=
  mkTree [Composite ListNode
            [SymbolNode "ns"; SymbolNode "foo"; NewlineNode;
             Composite ListNode (KeywordNode ":require" :: entries)]].

(** [(ns foo (:require a ;x <newline> ;z <newline> [b])] *)
Definition commentedEntries : list Node :=
  [SymbolNode "a"; CommentNode ";x"; NewlineNode; CommentNode ";z"; NewlineNode;
   Composite VectorNode [SymbolNode "b"]].

Lemma comments_preserved_witness :
  tidyTree (exampleNS commentedEntries) = true
  /\ (exists t',
        applyTransforms (exampleNS commentedEntries) DefaultTransforms = Some t'
        /\ Permutation (commentsAll (Roots t'))
                       (commentsAll (Roots (exampleNS commentedEntries))))
  /\ Forall (fun n => exists n',
               sortImportRequire n = Some n'
               /\ Permutation (flat_map ownComment (Children n'))
                              (flat_map ownComment (Children n)))
            (sortedLists (exampleNS commentedEntries)).
Proof.
  split; [vm_compute; reflexivity|].
  apply (comments_preserved (exampleNS commentedEntries) DefaultTransforms).
  vm_compute; reflexivity.
Defined.

(** C10, as stated, fails: of two comments that follow an entry on its
    line the first is lost.  [(ns foo (:require a ;x ;y))] *)
Lemma comments_preserved_counterexample :
  exists t',
    applyTransforms
      (exampleNS [SymbolNode "a"; CommentNode ";x"; CommentNode ";y"])
      DefaultTransforms = Some t'
    /\ ~ Permutation
         (commentsAll (Roots t'))
         (commentsAll (Roots (exampleNS [SymbolNode "a"; CommentNode ";x";
                                         CommentNode ";y"]))).
Proof.
  exists (exampleNS [SymbolNode "a"; CommentNode ";y"; NewlineNode]).
  split; [vm_compute; reflexivity|].
  intros H. apply Permutation_length in H. vm_compute in H. discriminate H.
Qed.

(** **** Idempotence *)

Definition Transform_eqb (a b : Transform) : bool :=
  match a, b with
  | TransformSortImportRequire, TransformSortImportRequire
  | TransformRemoveTrailingNewlines, TransformRemoveTrailingNewlines
  | TransformFixDefnArglistNewline, TransformFixDefnArglistNewline
  | TransformFixDefmethodDispatchValNewline, TransformFixDefmethodDispatchValNewline
  | TransformRemoveExtraBlankLines, TransformRemoveExtraBlankLines => true
  | _, _ => false
  end.

(** The configuration that enables the pass [p] alone. *)
Definition only (p : Transform) : Transforms := fun q => Transform_eqb p q.

(** Every entry of the lists that the sort rewrites is a bare symbol or
    a list or vector that is not empty. *)
Definition sortable (t : Tree) : bool :=
  forallb (fun n => forallb (fun e => negb (semantic e) || orderly e)
                            (tail (Children n)))
          (sortedLists t).

Lemma nosort_idem transforms t :
  transforms TransformSortImportRequire = false ->
  (forall r, afterSort transforms (afterSort transforms r) = afterSort transforms r) ->
  exists t',
    applyTransforms t transforms = Some t'
    /\ applyTransforms t' transforms = Some t'.
Proof.
  intros Hs Hidem. unfold applyTransforms. rewrite (applyRoots_nosort _ _ Hs).
  eexists. split; [reflexivity|]. cbn [Roots]. rewrite (applyRoots_nosort _ _ Hs).
  f_equal. f_equal. destruct (transforms TransformRemoveExtraBlankLines).
  - unfold removeExtraBlankLines.
    rewrite <- (collapse_map _ _ (afterSort_class transforms)), collapse_idem.
    f_equal. rewrite map_map. apply map_ext. exact Hidem.
  - rewrite map_map. apply map_ext. exact Hidem.
Qed.

Lemma sortEach_fixed rest rest' :
  Forall2 (fun n n' => FnFormKeyword n' kws = FnFormKeyword n kws
                       /\ (FnFormKeyword n kws = true ->
                           sortImportRequire n' = Some n')) rest rest' ->
  sortEach rest' = Some rest'.
Proof.
  induction 1 as [|n n' rest rest' [Hk Hs] _ IH]; [reflexivity|].
  cbn [sortEach]. fold kws. rewrite Hk, IH.
  destruct (FnFormKeyword n kws); [now rewrite Hs|reflexivity].
Qed.

Lemma sortImportRequire_fixed n n' :
  forallb (fun e => negb (semantic e) || orderly e) (tail (Children n)) = true ->
  FnFormKeyword n kws = true -> sortImportRequire n = Some n' ->
  FnFormKeyword n' kws = FnFormKeyword n kws
  /\ (FnFormKeyword n kws = true -> sortImportRequire n' = Some n').
Proof.
  intros Ho Hk Hs. destruct (FnFormKeyword_shape _ _ Hk) as (v & rest & ->).
  destruct (sortImportRequire_shape (KeywordNode v) rest) as (st & body & _ & _ & E & _).
  rewrite E in Hs. injection Hs as <-. split; [reflexivity|]. intros _.
  apply (sortImportRequire_idem _ rest body); [|exact E].
  cbn [Children tail] in Ho. rewrite forallb_forall in Ho.
  apply List.Forall_forall. intros e Hin Hsem. specialize (Ho e Hin).
  now rewrite Hsem in Ho.
Qed.

Lemma applyRoots_fixed transforms (roots roots' : list Node) :
  Forall2 (fun _ root' => applyRoot transforms root' = Some root') roots roots' ->
  applyRoots transforms roots' = Some roots'.
Proof.
  induction 1 as [|root root' roots roots' Hr _ IH]; [reflexivity|].
  cbn [applyRoots]. now rewrite Hr, IH.
Qed.

Lemma sort_idem t :
  sortable t = true ->
  exists t',
    applyTransforms t (only TransformSortImportRequire) = Some t'
    /\ applyTransforms t' (only TransformSortImportRequire) = Some t'.
Proof.
  intros Hsortable. pose proof (sortedLists_Forall _ _ Hsortable) as HF.
  unfold applyTransforms. cbn [only Transform_eqb].
  destruct (applyRoots_Forall2
              (fun _ root' => applyRoot (only TransformSortImportRequire) root'
                              = Some root')
              (only TransformSortImportRequire) (Roots t)) as (roots' & E & HF').
  { rewrite List.Forall_forall in *. intros root Hin. specialize (HF root Hin).
    rewrite applyRoot_eq. cbn [only Transform_eqb andb].
    destruct (FnFormSymbol root ["ns"]) eqn:Hns.
    - destruct (sortNS_Forall2
                  (fun n n' => FnFormKeyword n' kws = FnFormKeyword n kws
                               /\ (FnFormKeyword n kws = true ->
                                   sortImportRequire n' = Some n'))
                  (fun n => FnFormKeyword n kws = true ->
                            forallb (fun e => negb (semantic e) || orderly e)
                                    (tail (Children n)) = true)
                  root) as (rest & rest' & -> & Es & HR); auto.
      + intros n Hn. split; [reflexivity|congruence].
      + intros n n' Hn Hk Hs. apply (sortImportRequire_fixed n n' (Hn Hk) Hk Hs).
      + rewrite Es. eexists. split; [reflexivity|].
        rewrite applyRoot_eq. cbn [only Transform_eqb andb afterSort FnFormSymbol
                                    existsb String.eqb Ascii.eqb Bool.eqb orb].
        unfold sortNS. cbn [Children]. now rewrite (sortEach_fixed _ _ HR).
    - eexists. split; [reflexivity|]. rewrite applyRoot_eq.
      cbn [only Transform_eqb andb afterSort]. now rewrite Hns. }
  rewrite E. eexists. split; [reflexivity|]. cbn [Roots].
  now rewrite (applyRoots_fixed _ _ _ HF').
Qed.

(** C7 (as amended): each pass, run alone and run again on its result,
    leaves that result as it is: the four passes other than the sort on
    every tree, and the sort on every tree whose [:require] and
    [:import] entries are bare symbols or lists and vectors that are not
    empty. *)
Theorem single_pass_idempotent p t :
  (p = TransformSortImportRequire -> sortable t = true) ->
  exists t',
    applyTransforms t (only p) = Some t'
    /\ applyTransforms t' (only p) = Some t'.
Proof.
  intros H. destruct p.
  - now apply sort_idem, H.
  - apply nosort_idem; [reflexivity|]. intros r. apply removeTrailingNewlines_idem.
  - apply nosort_idem; [reflexivity|]. intros r. unfold afterSort.
    cbn [only Transform_eqb andb].
    destruct (FnFormSymbol r ["defn"]) eqn:E.
    + now rewrite fixDefnArglist_head, E, fixDefnArglist_idem.
    + now rewrite E.
  - apply nosort_idem; [reflexivity|]. intros r. unfold afterSort.
    cbn [only Transform_eqb andb].
    destruct (FnFormSymbol r ["defmethod"]) eqn:E.
    + now rewrite fixDefmethodDispatchVal_head, E, fixDefmethodDispatchVal_idem.
    + now rewrite E.
  - apply nosort_idem; [reflexivity|]. intros r.
    apply removeExtraBlankLinesRecursive_idem.
Qed.

(** The require entries [[b.c] [a.b] c.d], one to a line. *)
Definition requireEntries : list Node :=
  [Composite VectorNode [SymbolNode "b.c"]; NewlineNode;
   Composite VectorNode [SymbolNode "a.b"]; NewlineNode;
   SymbolNode "c.d"].

Lemma single_pass_idempotent_witness :
  sortable (exampleNS requireEntries) = true
  /\ exists t',
       applyTransforms (exampleNS requireEntries) (only TransformSortImportRequire)
       = Some t'
       /\ applyTransforms t' (only TransformSortImportRequire) = Some t'.
Proof.
  split; [vm_compute; reflexivity|].
  apply (single_pass_idempotent TransformSortImportRequire (exampleNS requireEntries)).
  intros _. vm_compute. reflexivity.
Defined.

(** C7, as stated, fails: the sort exchanges two empty entries each time
    it runs.  [(ns foo (:require [] <newline> ()))] *)
Lemma single_pass_idempotent_counterexample :
  exists t1 t2,
    applyTransforms
      (exampleNS [Composite VectorNode []; NewlineNode; Composite ListNode []])
      (only TransformSortImportRequire) = Some t1
    /\ applyTransforms t1 (only TransformSortImportRequire) = Some t2
    /\ t2 <> t1.
Proof.
  exists (exampleNS [Composite ListNode []; NewlineNode; Composite VectorNode []]).
  exists (exampleNS [Composite VectorNode []; NewlineNode; Composite ListNode []]).
  split; [vm_compute; reflexivity|]. split; [vm_compute; reflexivity|].
  discriminate.
Qed.

(** **** The order of the entries *)

(** [out] is [entries] sorted by [Less], entries that tie being left in
    their order. *)
Definition stablySorted (entries out : importRequireList) : Prop :=
  Permutation out entries
  /\ StronglySorted (fun a b => lessIR b a = false) out
  /\ forall z, orderlyIR z ->
       List.filter (tied lessIR z) out = List.filter (tied lessIR z) entries.

(** [outs] is [ins] sorted by [Less], as it compares two nodes; nodes
    that tie are left in their order. *)
Definition sortedNodes (ins outs : list Node) : Prop :=
  Permutation outs ins
  /\ StronglySorted (fun a b => lessNode b a = false) outs
  /\ forall z, orderly z = true ->
       List.filter (tied lessNode z) outs = List.filter (tied lessNode z) ins.

(** How [Less] compares two nodes. *)
Definition lessFacts : Prop :=
  (forall a b, lessNode (SymbolNode a) (SymbolNode b) = String.ltb a b)
  /\ (forall s n, (forall s', n <> SymbolNode s') ->
     lessNode (SymbolNode s) n = true /\ lessNode n (SymbolNode s) = false)
  /\ (forall n1 n2 c cs, listOrVector n1 = true -> listOrVector n2 = true ->
        Children n1 = [] -> Children n2 = c :: cs ->
        lessNode n1 n2 = true /\ lessNode n2 n1 = false)
  /\ (forall n1 n2 a b r1 r2, listOrVector n1 = true -> listOrVector n2 = true ->
        Children n1 = SymbolNode a :: r1 -> Children n2 = SymbolNode b :: r2 ->
        lessNode n1 n2 = String.ltb a b)
  /\ (forall n1 n2 a c r1 r2, listOrVector n1 = true -> listOrVector n2 = true ->
        Children n1 = SymbolNode a :: r1 -> Children n2 = c :: r2 ->
        (forall b, c <> SymbolNode b) ->
        lessNode n1 n2 = true /\ lessNode n2 n1 = false)
  /\ (forall a b, orderly a = true -> orderly b = true ->
        lessNode a b = true -> lessNode b a = false)
  /\ (forall a b c, orderly a = true -> orderly b = true -> orderly c = true ->
        lessNode a b = false -> lessNode b c = false -> lessNode a c = false).

Lemma lessFacts_hold : lessFacts.
Proof.
  unfold lessFacts. split; [|split; [|split; [|split; [|split; [|split]]]]].
  - reflexivity.
  - intros s n Hn. destruct n as [[] ?|v| | | | |]; try (split; reflexivity).
    now destruct (Hn v).
  - intros n1 n2 c cs.
    destruct n1 as [[] ?| | | | | |]; try discriminate;
      destruct n2 as [[] ?| | | | | |]; try discriminate;
      cbn [Children]; intros _ _ -> ->; split; try reflexivity;
      destruct c; reflexivity.
  - intros n1 n2 a b r1 r2.
    destruct n1 as [[] ?| | | | | |]; try discriminate;
      destruct n2 as [[] ?| | | | | |]; try discriminate;
      cbn [Children]; intros _ _ -> ->; reflexivity.
  - intros n1 n2 a c r1 r2.
    destruct n1 as [[] ?| | | | | |]; try discriminate;
      destruct n2 as [[] ?| | | | | |]; try discriminate;
      cbn [Children]; intros _ _ -> -> Hc;
      destruct c as [? ?|v| | | | |]; try (split; reflexivity);
      now destruct (Hc v).
  - intros a b Ha Hb. rewrite !lessNode_key by assumption. apply klt_asym.
  - intros a b c Ha Hb Hc. rewrite !lessNode_key by assumption. apply klt_negtrans.
Qed.

Lemma Stable_stablySorted (entries : importRequireList) :
  Forall orderlyIR entries -> stablySorted entries (Stable entries).
Proof.
  intros H. unfold stablySorted. rewrite Stable_isort.
  split; [apply isort_perm|]. split.
  - apply (isort_sorted lessIR orderlyIR lessIR_asym lessIR_negtrans _ H).
  - intros z Hz.
    apply (isort_stable lessIR orderlyIR lessIR_negtrans z _ Hz H).
Qed.

Lemma filter_tied_nodes z (l : importRequireList) :
  List.filter (tied lessNode z) (map IRNode l)
  = map IRNode (List.filter (tied lessIR (mkIR [] None z)) l).
Proof.
  induction l as [|ir l IH]; [reflexivity|]. cbn [map List.filter].
  change (tied lessIR (mkIR [] None z) ir) with (tied lessNode z (IRNode ir)).
  destruct (tied lessNode z (IRNode ir)); cbn [map]; now rewrite IH.
Qed.

(** The order of the entries is the order of their nodes. *)
Lemma stablySorted_nodes entries out :
  stablySorted entries out -> sortedNodes (map IRNode entries) (map IRNode out).
Proof.
  intros (Hp & Hs & Ht). split; [now apply Permutation_map|]. split.
  - clear Hp Ht. induction Hs as [|a l Hs IH Ha]; [constructor|].
    cbn [map]. constructor; [exact IH|].
    clear -Ha. induction Ha; constructor; auto.
  - intros z Hz. rewrite !filter_tied_nodes. f_equal. apply Ht. exact Hz.
Qed.

(** The entries that [sortImportRequire] reads from children whose
    nodes, comments and newlines apart, are bare symbols or lists and
    vectors that are not empty. *)
Lemma entries_orderly rest (st : scanState) :
  Forall (fun n => semantic n = true -> orderly n = true) rest ->
  map IRNode (sorted st) = List.filter semantic rest ->
  Forall orderlyIR (sorted st).
Proof.
  intros Hord Hm. pose proof (entries_semantic _ _ Hm) as Hsem.
  apply List.Forall_forall. intros ir Hir.
  rewrite List.Forall_forall in Hord, Hsem. unfold orderlyIR.
  apply Hord; [|apply Hsem, Hir].
  assert (Hin : In (IRNode ir) (map IRNode (sorted st))) by now apply in_map.
  rewrite Hm in Hin. now apply List.filter_In in Hin.
Qed.

(** C8 (as amended): [sort.Stable] sorts entries that are bare symbols
    or lists and vectors that are not empty by [Less], which is a strict
    weak order on them, and entries that tie keep their order; so does
    [sortImportRequire] with the children of every list whose nodes,
    comments and newlines apart, are of these kinds: the nodes it writes
    are the nodes it read, sorted by [Less], those that tie in their
    order.  Two bare symbols are compared by their text; a bare symbol
    comes before every other node, an empty list or vector before one
    that is not empty; lists and vectors led by a symbol are compared by
    the text of that symbol and come before those led by another node;
    [[b.c] [a.b] c.d] is sorted to [c.d], [[a.b]], [[b.c]]. *)
Theorem import_require_order (entries : importRequireList) (n0 : Node)
    (rest : list Node) :
  Forall orderlyIR entries ->
  Forall (fun n => semantic n = true -> orderly n = true) rest ->
  stablySorted entries (Stable entries)
  /\ (exists body,
        sortImportRequire (Composite ListNode (n0 :: rest))
        = Some (Composite ListNode (n0 :: body))
        /\ sortedNodes (List.filter semantic rest) (List.filter semantic body))
  /\ lessFacts
  /\ sortImportRequire (Composite ListNode (KeywordNode ":require" :: requireEntries))
     = Some (Composite ListNode
               [KeywordNode ":require";
                SymbolNode "c.d"; NewlineNode;
                Composite VectorNode [SymbolNode "a.b"]; NewlineNode;
                Composite VectorNode [SymbolNode "b.c"]]).
Proof.
  intros H Hrest. split; [now apply Stable_stablySorted|].
  split; [|split; [apply lessFacts_hold|vm_compute; reflexivity]].
  destruct (sortImportRequire_shape n0 rest) as (st & body & E & Hm & Hs & Hb).
  pose proof (entries_semantic _ _ Hm) as Hsem.
  pose proof (entries_orderly _ _ Hrest Hm) as Ho.
  destruct (scan_dropped _ _ _ (Stable_Forall _ _ Hsem) Hb) as (st2 & E2 & HS2 & HL2).
  destruct (scanNodes_entries body scanStart scanInv_start) as (st3 & E3 & _ & Hm3).
  rewrite E2 in E3. injection E3 as <-. cbn [scanStart sorted map app] in Hm3.
  exists body. split; [exact Hs|].
  rewrite <- Hm, <- Hm3, HS2. now apply stablySorted_nodes, Stable_stablySorted.
Qed.

Definition requireIRs : importRequireList :=
  [mkIR [] None (Composite VectorNode [SymbolNode "b.c"]);
   mkIR [] None (Composite VectorNode [SymbolNode "a.b"]);
   mkIR [] None (SymbolNode "c.d")].

Lemma import_require_order_witness :
  Forall orderlyIR requireIRs
  /\ Forall (fun n => semantic n = true -> orderly n = true) requireEntries
  /\ stablySorted requireIRs (Stable requireIRs)
  /\ (exists body,
        sortImportRequire (Composite ListNode (KeywordNode ":require" :: requireEntries))
        = Some (Composite ListNode (KeywordNode ":require" :: body))
        /\ sortedNodes (List.filter semantic requireEntries)
                       (List.filter semantic body))
  /\ lessFacts
  /\ sortImportRequire (Composite ListNode (KeywordNode ":require" :: requireEntries))
     = Some (Composite ListNode
               [KeywordNode ":require";
                SymbolNode "c.d"; NewlineNode;
                Composite VectorNode [SymbolNode "a.b"]; NewlineNode;
                Composite VectorNode [SymbolNode "b.c"]]).
Proof.
  assert (H : Forall orderlyIR requireIRs) by (repeat constructor).
  assert (Hr : Forall (fun n => semantic n = true -> orderly n = true) requireEntries).
  { repeat (apply List.Forall_cons; [vm_compute; auto|]). apply List.Forall_nil. }
  split; [exact H|]. split; [exact Hr|].
  exact (import_require_order requireIRs (KeywordNode ":require") requireEntries H Hr).
Defined.

(** C8, as stated, fails: [Less] is no strict order, an empty vector
    being less than itself, and two empty entries, which tie, are
    exchanged.  [(:require [] <newline> ())] *)
Lemma import_require_order_counterexample :
  lessNode (Composite VectorNode []) (Composite VectorNode []) = true
  /\ sortImportRequire
       (Composite ListNode [KeywordNode ":require"; Composite VectorNode [];
                            NewlineNode; Composite ListNode []])
     = Some (Composite ListNode [KeywordNode ":require"; Composite ListNode [];
                                 NewlineNode; Composite VectorNode []]).
Proof. split; vm_compute; reflexivity. Qed.

(** *** Further properties of the passes *)

(** **** Blank lines *)

(** No three newline nodes in a row. *)
Definition tripleFree (l : list Node) : Prop :=
  forall a b, l <> a ++ NewlineNode :: NewlineNode :: NewlineNode :: b.

(** The number of newline nodes that start [l]. *)
Fixpoint leading (l : list Node) : nat :=
  match l with
  | n :: rest => if Newline n then S (leading rest) else O
  | [] => O
  end.

Lemma collapse_leading l : forall k, (leading (collapse k l) <= 2 - k)%nat.
Proof.
  induction l as [|n l IH]; intros k; [simpl; lia|].
  cbn [collapse]. destruct (Newline n) eqn:Hn.
  - destruct (Nat.leb_spec (S k) 2).
    + cbn [leading]. rewrite Hn. specialize (IH (S k)). lia.
    + specialize (IH (S k)). lia.
  - cbn [Nat.leb leading]. rewrite Hn. lia.
Qed.

Lemma tripleFree_cons x l : leading (x :: l) <= 2 -> tripleFree l -> tripleFree (x :: l).
Proof.
  intros Hl Hf a b E. destruct a as [|y a]; simpl in E.
  - injection E as -> ->. simpl in Hl. lia.
  - injection E as _ E. exact (Hf a b E).
Qed.

Lemma tripleFree_tail x l : tripleFree (x :: l) -> tripleFree l.
Proof. intros H a b E. apply (H (x :: a) b). now rewrite E. Qed.

Lemma tripleFree_leading l : tripleFree l -> (leading l <= 2)%nat.
Proof.
  intros H. destruct l as [|[] [|[] [|[] l]]]; simpl; try lia.
  exfalso. exact (H [] l eq_refl).
Qed.

Lemma collapse_tripleFree l : forall k, tripleFree (collapse k l).
Proof.
  induction l as [|n l IH]; intros k.
  - intros a b E. now destruct a.
  - cbn [collapse]. destruct (Newline n) eqn:Hn.
    + destruct (Nat.leb_spec (S k) 2); [|apply IH].
      apply tripleFree_cons; [|apply IH].
      cbn [leading]. rewrite Hn. pose proof (collapse_leading l (S k)). lia.
    + cbn [Nat.leb]. apply tripleFree_cons; [|apply IH].
      cbn [leading]. rewrite Hn. lia.
Qed.

Lemma collapse_fixed l : forall k,
  tripleFree l -> (leading l <= 2 - k)%nat -> collapse k l = l.
Proof.
  induction l as [|n l IH]; intros k Hf Hl; [reflexivity|].
  cbn [collapse]. cbn [leading] in Hl. destruct (Newline n) eqn:Hn.
  - destruct (Nat.leb_spec (S k) 2); [|lia].
    f_equal. apply IH; [eapply tripleFree_tail, Hf|lia].
  - cbn [Nat.leb]. f_equal. apply IH; [eapply tripleFree_tail, Hf|].
    apply tripleFree_tail, tripleFree_leading in Hf. lia.
Qed.

(** [removeExtraBlankLines] drops newline nodes only, leaves no three of
    them in a row, and changes nothing where there were no three in a
    row. *)
Theorem removeExtraBlankLines_spec nodes :
  dropNL nodes (removeExtraBlankLines nodes)
  /\ tripleFree (removeExtraBlankLines nodes)
  /\ (tripleFree nodes -> removeExtraBlankLines nodes = nodes).
Proof.
  unfold removeExtraBlankLines. split; [apply collapse_dropNL|].
  split; [apply collapse_tripleFree|].
  intros H. apply collapse_fixed; [exact H|].
  apply tripleFree_leading in H. lia.
Qed.

(** [everywhere P n]: the children of [n], and of every node below [n],
    satisfy [P]. *)
Inductive everywhere (P : list Node -> Prop) : Node -> Prop :=
| everywhere_atom n : atom n -> everywhere P n
| everywhere_composite t cs :
    P cs -> Forall (everywhere P) cs -> everywhere P (Composite t cs).

Lemma dropNL_Forall (P : Node -> Prop) l l' : dropNL l l' -> Forall P l -> Forall P l'.
Proof.
  intros Hd Hf. apply List.Forall_forall. intros x Hx.
  rewrite List.Forall_forall in Hf. apply Hf. eapply dropNL_In; eauto.
Qed.

Lemma Forall_map_IH (f : Node -> Node) (P : Node -> Prop) cs :
  Forall (fun c => P (f c)) cs -> Forall P (map f cs).
Proof. induction 1; constructor; auto. Qed.

Lemma removeExtraBlankLinesRecursive_everywhere n :
  everywhere tripleFree (removeExtraBlankLinesRecursive n).
Proof.
  induction n as [t cs IH|n Ha] using Node_induction.
  - cbn [removeExtraBlankLinesRecursive]. apply everywhere_composite.
    + rewrite collapseLong_eq. apply collapse_tripleFree.
    + rewrite collapseLong_eq.
      eapply dropNL_Forall; [apply collapse_dropNL|]. now apply Forall_map_IH.
  - destruct n; try contradiction; now apply everywhere_atom.
Qed.

Lemma applyRoot_total transforms root :
  exists r1, applyRoot transforms root = Some (afterSort transforms r1).
Proof.
  destruct (applyRoot_reordered transforms root) as (root' & E & _).
  rewrite applyRoot_eq in E |- *.
  destruct (if transforms TransformSortImportRequire && FnFormSymbol root ["ns"]
            then sortNS root else Some root) as [r1|]; [|discriminate].
  now exists r1.
Qed.

Lemma applyRoots_after (P : Node -> Prop) transforms roots :
  (forall r, P (afterSort transforms r)) ->
  exists roots', applyRoots transforms roots = Some roots' /\ Forall P roots'.
Proof.
  intros HP.
  destruct (applyRoots_Forall2 (fun _ root' => P root') transforms roots)
    as (roots' & E & HF).
  - apply List.Forall_forall. intros root _.
    destruct (applyRoot_total transforms root) as (r1 & E).
    exists (afterSort transforms r1). split; [exact E|apply HP].
  - exists roots'. split; [exact E|].
    clear E. induction HF; constructor; auto.
Qed.

(** With [TransformRemoveExtraBlankLines] on, the tree that
    [applyTransforms] leaves has no three newline nodes in a row, neither
    among the top-level forms nor among the children of any node. *)
Theorem no_long_blank_runs t transforms :
  transforms TransformRemoveExtraBlankLines = true ->
  exists t',
    applyTransforms t transforms = Some t'
    /\ tripleFree (Roots t')
    /\ Forall (everywhere tripleFree) (Roots t').
Proof.
  intros Hon. unfold applyTransforms.
  destruct (applyRoots_after (everywhere tripleFree) transforms (Roots t))
    as (roots' & E & HF).
  - intros r. unfold afterSort. rewrite Hon.
    apply removeExtraBlankLinesRecursive_everywhere.
  - rewrite E, Hon. eexists. split; [reflexivity|]. cbn [Roots].
    split; [apply collapse_tripleFree|].
    eapply dropNL_Forall; [apply collapse_dropNL|exact HF].
Qed.

(** **** Trailing newlines *)

(** A list of children that [removeTrailingNewlines] leaves alone: it
    does not end with a newline node, unless a comment comes right before
    that newline. *)
Definition trimmed (l : list Node) : Prop :=
  lastIs Newline l = true -> lastIs Comment (removelast l) = true.

(** [trim], the loop of [removeTrailingNewlines], takes newline nodes
    off the end of the children, and nothing else; it stops at the first
    node that is no newline, and it leaves the newline that ends a
    comment; children that are trimmed already are left as they are. *)
Theorem trim_spec nodes :
  (exists k, nodes = trim nodes ++ repeat NewlineNode k)
  /\ trimmed (trim nodes)
  /\ (trimmed nodes -> trim nodes = nodes).
Proof.
  induction nodes as [|x l (IH1 & IH2 & IH3)] using rev_ind.
  - split; [exists 0%nat; reflexivity|]. split; [discriminate|reflexivity].
  - rewrite trim_snoc. unfold trimmed.
    rewrite lastIs_snoc, removelast_last.
    destruct (lastIs Comment l) eqn:Hc; [|destruct (Newline x) eqn:Hn; simpl].
    + rewrite lastIs_snoc, removelast_last, Hc.
      split; [exists 0%nat; now rewrite app_nil_r|]. split; auto.
    + destruct x; try discriminate Hn.
      split; [|split; [exact IH2|intros H; discriminate (H eq_refl)]].
      destruct IH1 as [k IH1]. exists (S k).
      rewrite IH1 at 1. rewrite <- app_assoc. f_equal.
      cbn [repeat]. symmetry. apply repeat_cons.
    + rewrite lastIs_snoc, Hn.
      split; [exists 0%nat; now rewrite app_nil_r|]. split; [discriminate|auto].
Qed.


Lemma trim_trimmed l : trimmed (trim l).
Proof.
  induction l as [|x l IH] using rev_ind; [discriminate|].
  rewrite trim_snoc. unfold trimmed.
  destruct (lastIs Comment l) eqn:Hc; [|destruct (Newline x) eqn:Hn; simpl].
  - now rewrite lastIs_snoc, removelast_last, Hc.
  - exact IH.
  - rewrite lastIs_snoc, Hn. discriminate.
Qed.

Lemma removeTrailingNewlines_everywhere n :
  everywhere trimmed (removeTrailingNewlines n).
Proof.
  induction n as [t cs IH|n Ha] using Node_induction.
  - cbn [removeTrailingNewlines]. apply everywhere_composite.
    + apply trim_trimmed.
    + eapply dropNL_Forall; [apply trim_dropNL|]. now apply Forall_map_IH.
  - destruct n; try contradiction; now apply everywhere_atom.
Qed.

(** Whether a list is trimmed is decided by its last two nodes. *)
Lemma trimmed_two pre y x : trimmed (pre ++ [y; x]) <-> (Newline x = true -> Comment y = true).
Proof.
  unfold trimmed. change (pre ++ [y; x]) with (pre ++ [y] ++ [x]).
  rewrite app_assoc, lastIs_snoc, removelast_last, lastIs_snoc. reflexivity.
Qed.

Lemma trimmed_app pre pre' tl :
  (2 <= length tl)%nat -> trimmed (pre ++ tl) -> trimmed (pre' ++ tl).
Proof.
  intros Hlen. destruct tl as [|x tl _] using rev_ind; [simpl in Hlen; lia|].
  destruct tl as [|y tl _] using rev_ind.
  { simpl in Hlen. lia. }
  rewrite <- (app_assoc tl [y] [x]). cbn [app]. rewrite !app_assoc.
  rewrite !trimmed_two. auto.
Qed.

Lemma trimmed_keeps_last pre x :
  Newline x = false -> trimmed (pre ++ [x]).
Proof. intros Hx. unfold trimmed. rewrite lastIs_snoc, Hx. discriminate. Qed.

Lemma everywhere_children P t cs :
  everywhere P (Composite t cs) -> P cs /\ Forall (everywhere P) cs.
Proof. intros H. inversion H; subst; [contradiction|]. auto. Qed.

Lemma fixDefnArglist_everywhere n :
  everywhere trimmed n -> everywhere trimmed (fixDefnArglist n).
Proof.
  intros H. destruct n as [t cs| | | | | |]; try exact H.
  unfold fixDefnArglist. cbn [Children].
  destruct cs as [|n0 [|n1 [|n2 [|n3 [|n4 rest]]]]]; try exact H.
  destruct (negb (Newline n2) || Newline n4) eqn:E; [exact H|].
  destruct (negb (Vector n3)); [exact H|].
  apply orb_false_iff in E as [_ E4].
  apply everywhere_children in H as [Ht Hf]. cbn [SetChildren].
  apply everywhere_composite.
  - destruct rest as [|x rest].
    + apply (trimmed_keeps_last [n0; n1; n3; n2] n4 E4).
    + apply (trimmed_app [n0; n1; n2; n3] [n0; n1; n3; n2] (n4 :: x :: rest));
        [simpl; lia|exact Ht].
  - inversion Hf as [|? ? H0 Hf1]; subst. inversion Hf1 as [|? ? H1 Hf2]; subst.
    inversion Hf2 as [|? ? H2 Hf3]; subst. inversion Hf3 as [|? ? H3 Hf4]; subst.
    repeat (apply List.Forall_cons; [assumption|]). assumption.
Qed.

Lemma fixDefmethodDispatchVal_everywhere n :
  everywhere trimmed n -> everywhere trimmed (fixDefmethodDispatchVal n).
Proof.
  intros H. destruct n as [t cs| | | | | |]; try exact H.
  unfold fixDefmethodDispatchVal. cbn [Children].
  destruct cs as [|n0 [|n1 [|n2 [|n3 [|n4 rest]]]]]; try exact H.
  destruct (negb (Newline n2)); [exact H|].
  destruct (negb (Keyword n3)) eqn:E3; [exact H|].
  apply negb_false_iff in E3.
  apply everywhere_children in H as [Ht Hf]. cbn [SetChildren].
  inversion Hf as [|? ? H0 Hf1]; subst. inversion Hf1 as [|? ? H1 Hf2]; subst.
  inversion Hf2 as [|? ? H2 Hf3]; subst. inversion Hf3 as [|? ? H3 Hf4]; subst.
  destruct (Newline n4) eqn:E4; apply everywhere_composite.
  - destruct rest as [|x rest].
    + apply (trimmed_two [n0; n1; n2] n3 n4) in Ht.
      specialize (Ht E4). destruct n3; discriminate.
    + apply (trimmed_app [n0; n1; n2; n3] [n0; n1; n3] (n4 :: x :: rest));
        [simpl; lia|exact Ht].
  - repeat (apply List.Forall_cons; [assumption|]). assumption.
  - destruct rest as [|x rest].
    + apply (trimmed_keeps_last [n0; n1; n3; n2] n4 E4).
    + apply (trimmed_app [n0; n1; n2; n3] [n0; n1; n3; n2] (n4 :: x :: rest));
        [simpl; lia|exact Ht].
  - repeat (apply List.Forall_cons; [assumption|]). assumption.
Qed.

(** The count of newline nodes that [removeExtraBlankLines] holds after
    [l], from the count [k] before it. *)
Fixpoint runAfter (k : nat) (l : list Node) : nat :=
  match l with
  | [] => k
  | n :: rest => runAfter (if Newline n then S k else O) rest
  end.

Lemma collapse_app l m : forall k,
  collapse k (l ++ m) = collapse k l ++ collapse (runAfter k l) m.
Proof.
  induction l as [|n l IH]; intros k; [reflexivity|].
  cbn [app collapse runAfter]. rewrite IH.
  destruct (_ <=? 2)%nat; reflexivity.
Qed.

Lemma runAfter_app l m : forall k, runAfter k (l ++ m) = runAfter (runAfter k l) m.
Proof. induction l as [|n l IH]; intros k; [reflexivity|]. cbn [app runAfter]. apply IH. Qed.

Lemma collapse_last k x : Newline x = false -> collapse k [x] = [x].
Proof. intros Hx. cbn [collapse]. rewrite Hx. reflexivity. Qed.

Lemma collapse_trimmed l : trimmed l -> trimmed (collapse 0 l).
Proof.
  intros H. destruct l as [|x l _] using rev_ind; [discriminate|].
  rewrite collapse_app. destruct (Newline x) eqn:Hx.
  - unfold trimmed in H. rewrite lastIs_snoc, removelast_last in H.
    specialize (H Hx). destruct l as [|c l _] using rev_ind; [discriminate H|].
    rewrite lastIs_snoc in H.
    assert (Hc : Newline c = false) by (destruct c; try discriminate H; reflexivity).
    rewrite runAfter_app, collapse_app, (collapse_last _ c Hc).
    cbn [runAfter collapse]. rewrite Hc, Hx. cbn [Nat.leb collapse].
    rewrite <- app_assoc. cbn [app]. apply trimmed_two. auto.
  - rewrite (collapse_last _ x Hx). apply (trimmed_keeps_last _ x Hx).
Qed.

Lemma trimmed_map f l : keepsClass f -> trimmed l -> trimmed (map f l).
Proof.
  intros Hf H. destruct l as [|x l _] using rev_ind; [discriminate|].
  unfold trimmed in *. rewrite map_app in *. cbn [map].
  rewrite lastIs_snoc, removelast_last in *.
  rewrite (proj1 (Hf x)), (lastIs_map Comment f l) by apply Hf. exact H.
Qed.

Lemma removeExtraBlankLinesRecursive_keeps_trimmed n :
  everywhere trimmed n -> everywhere trimmed (removeExtraBlankLinesRecursive n).
Proof.
  induction n as [t cs IH|n Ha] using Node_induction; intros H.
  - apply everywhere_children in H as [Ht Hf].
    rewrite removeExtraBlankLinesRecursive_eq, collapseLong_eq.
    apply everywhere_composite.
    + apply trimmed_map; [apply removeExtraBlankLinesRecursive_class|].
      now apply collapse_trimmed.
    + apply Forall_map_IH. eapply dropNL_Forall; [apply collapse_dropNL|].
      rewrite List.Forall_forall in *. auto.
  - destruct n; try contradiction; exact H.
Qed.

Lemma cond_keeps (P : Node -> Prop) (c : bool) (f : Node -> Node) r :
  (P r -> P (f r)) -> P r -> P (if c then f r else r).
Proof. destruct c; auto. Qed.

(** With [TransformRemoveTrailingNewlines] on, no node of the tree that
    [applyTransforms] leaves has children that end with a newline node,
    unless a comment comes right before it: the passes that run after
    [removeTrailingNewlines] do not bring a trailing newline back. *)
Theorem no_trailing_newlines t transforms :
  transforms TransformRemoveTrailingNewlines = true ->
  exists t',
    applyTransforms t transforms = Some t'
    /\ Forall (everywhere trimmed) (Roots t').
Proof.
  intros Hon. unfold applyTransforms.
  destruct (applyRoots_after (everywhere trimmed) transforms (Roots t))
    as (roots' & E & HF).
  - intros r. unfold afterSort. rewrite Hon. cbv zeta.
    destruct (transforms TransformRemoveExtraBlankLines);
      [apply removeExtraBlankLinesRecursive_keeps_trimmed|];
      (apply (cond_keeps _ _ fixDefmethodDispatchVal);
       [apply fixDefmethodDispatchVal_everywhere|]);
      (apply (cond_keeps _ _ fixDefnArglist); [apply fixDefnArglist_everywhere|]);
      apply removeTrailingNewlines_everywhere.
  - rewrite E. eexists. split; [reflexivity|]. cbn [Roots].
    destruct (transforms TransformRemoveExtraBlankLines); [|exact HF].
    eapply dropNL_Forall; [apply collapse_dropNL|exact HF].
Qed.

(** **** What the passes leave alone *)

(** With the sorting pass off, the passes only add, remove or move
    newline nodes: with the newline nodes left out at every level, the
    tree after the passes is the tree before them, comments included. *)
Theorem newlines_only t transforms :
  transforms TransformSortImportRequire = false ->
  exists t',
    applyTransforms t transforms = Some t'
    /\ squashAll (Roots t') = squashAll (Roots t).
Proof.
  intros Hoff. unfold applyTransforms. rewrite (applyRoots_nosort _ _ Hoff).
  eexists. split; [reflexivity|]. cbn [Roots].
  assert (Hm : squashAll (map (afterSort transforms) (Roots t)) = squashAll (Roots t)).
  { apply squashAll_map; [apply afterSort_class|].
    apply List.Forall_forall. intros x _. apply squash_afterSort. }
  destruct (transforms TransformRemoveExtraBlankLines); [|exact Hm].
  rewrite <- Hm. apply squashAll_dropNL, collapse_dropNL.
Qed.

(** No pass runs of its own: with every transform off, the tree is left
    as it is. *)
Theorem no_transform_identity t transforms :
  (forall p, transforms p = false) -> applyTransforms t transforms = Some t.
Proof.
  intros Hoff. unfold applyTransforms. rewrite (applyRoots_nosort _ _ (Hoff _)).
  rewrite Hoff. destruct t as [roots]. cbn [Roots]. do 2 f_equal.
  rewrite <- (map_id roots) at 2. apply map_ext. intros r.
  unfold afterSort. now rewrite !Hoff.
Qed.

(** **** The order of the entries *)

(** [Less] holds both ways of two entries exactly when both are lists or
    vectors without children: there it is no strict order, and nowhere
    else does it contradict itself. *)
Theorem lessNode_both n1 n2 :
  lessNode n1 n2 = true /\ lessNode n2 n1 = true
  <-> (listOrVector n1 = true /\ Children n1 = [])
      /\ (listOrVector n2 = true /\ Children n2 = []).
Proof.
  split.
  - intros [H1 H2].
    destruct n1 as [[] [|c1 cs1]|s1| | | | |], n2 as [[] [|c2 cs2]|s2| | | | |];
      cbn in H1, H2 |- *; try discriminate; try tauto;
      repeat match goal with
             | H : context [match ?c with _ => _ end] |- _ =>
                 is_var c; destruct c; try discriminate
             end;
      match goal with
      | Ha : String.ltb ?a ?b = true, Hb : String.ltb ?b ?a = true |- _ =>
          rewrite (ltb_asym _ _ Ha) in Hb; discriminate
      end.
  - intros [[L1 C1] [L2 C2]].
    destruct n1 as [[] cs1| | | | | |]; try discriminate L1;
      destruct n2 as [[] cs2| | | | | |]; try discriminate L2;
      cbn in C1, C2; subst; split; reflexivity.
Qed.

(** **** Sorting, read again *)

(** Reading the children that [sortImportRequire] wrote gives back the
    entries in their sorted order, each with the comments it had, and the
    same comments at the bottom: the layout loses nothing of what the
    first reading found. *)
Theorem sortImportRequire_round_trip n0 rest :
  exists st body st',
    scanNodes scanStart rest = Some st
    /\ sortImportRequire (Composite ListNode (n0 :: rest))
       = Some (Composite ListNode (n0 :: body))
    /\ scanNodes scanStart body = Some st'
    /\ sorted st' = Stable (sorted st)
    /\ lineComments st' = lineComments st.
Proof.
  destruct (sortImportRequire_shape n0 rest) as (st & body & E & Hm & Hs & Hb).
  pose proof (entries_semantic _ _ Hm) as Hsem.
  destruct (scan_dropped _ _ _ (Stable_Forall _ _ Hsem) Hb) as (st' & E' & HS & HL).
  exists st, body, st'. auto.
Qed.

(** [sortImportRequire] panics on a node that is no list and on a list
    without children, and on nothing else: the index into [sorted] is
    never out of range. *)
Theorem sortImportRequire_panics n :
  sortImportRequire n = None
  <-> forall n0 rest, n <> Composite ListNode (n0 :: rest).
Proof.
  split.
  - intros H n0 rest ->.
    destruct (sortImportRequire_shape n0 rest) as (st & body & _ & _ & E & _).
    congruence.
  - intros H. destruct n as [[] [|n0 rest]| | | | | |]; try reflexivity.
    exfalso. exact (H n0 rest eq_refl).
Qed.

(** [sortNS] leaves the first child of the [ns] form and every child
    that is no [:require] or [:import] list as they are, and a list it
    sorts is still a [:require] or [:import] list. *)
Theorem sortNS_touches_requires_only ns ns' :
  sortNS ns = Some ns' ->
  head (Children ns') = head (Children ns)
  /\ Forall2 (fun n n' => (FnFormKeyword n kws = false -> n' = n)
                          /\ FnFormKeyword n' kws = FnFormKeyword n kws)
             (tail (Children ns)) (tail (Children ns')).
Proof.
  unfold sortNS. destruct ns as [t [|n0 rest]| | | | | |]; try discriminate.
  cbn [Children SetChildren].
  destruct (sortEach_Forall2
              (fun n n' => (FnFormKeyword n kws = false -> n' = n)
                           /\ FnFormKeyword n' kws = FnFormKeyword n kws)
              (fun _ => True)) with (nodes := rest) as (rest' & E & HF).
  - intros n Hn. split; reflexivity.
  - intros n n' _ Hk Hs. split; [congruence|].
    destruct (FnFormKeyword_shape _ _ Hk) as (v & es & ->).
    destruct (sortImportRequire_shape (KeywordNode v) es) as (st & body & _ & _ & E & _).
    rewrite E in Hs. injection Hs as <-. reflexivity.
  - apply List.Forall_forall. auto.
  - rewrite E. intros [= <-]. cbn [Children head tail]. auto.
Qed.

(** **** The argument list of a [defn] *)

(** [fixDefnArglist] reorders the children and keeps every node that is
    no newline in its place among the others; after it, no argument
    vector in fourth place stands between a newline and a node that is
    no newline. *)
Theorem fixDefnArglist_spec defn :
  Permutation (Children (fixDefnArglist defn)) (Children defn)
  /\ List.filter (fun n => negb (Newline n)) (Children (fixDefnArglist defn))
     = List.filter (fun n => negb (Newline n)) (Children defn)
  /\ match Children (fixDefnArglist defn) with
     | _ :: _ :: n2 :: n3 :: n4 :: _ =>
         Newline n2 && Vector n3 && negb (Newline n4) = false
     | _ => True
     end.
Proof.
  unfold fixDefnArglist.
  destruct (Children defn) as [|n0 [|n1 [|n2 [|n3 [|n4 rest]]]]] eqn:E;
    try (rewrite E; auto; fail).
  destruct (Newline n2) eqn:E2; cbn [negb orb].
  - destruct (Newline n4) eqn:E4.
    + rewrite E, E2, E4. split; [reflexivity|]. split; [reflexivity|].
      now rewrite andb_false_r.
    + destruct (Vector n3) eqn:E3; cbn [negb].
      * destruct defn; try discriminate E. cbn [SetChildren Children].
        split; [do 2 apply perm_skip; apply perm_swap|].
        split.
        -- cbn [List.filter]. rewrite E2. cbn [negb].
           destruct (negb (Newline n0)), (negb (Newline n1)), (negb (Newline n3));
             reflexivity.
        -- destruct n3 as [[] ?| | | | | |]; try discriminate E3. reflexivity.
      * rewrite E, E2, E3. auto.
  - rewrite E, E2. auto.
Qed.


(** **** Instances *)

(** A tree with blank lines at the top level and in a form, and with a
    newline before a closing parenthesis. *)
Definition spacedTree : Tree :=
  mkTree [SymbolNode "a"; NewlineNode; NewlineNode; NewlineNode; NewlineNode;
          Composite ListNode
            [SymbolNode "f"; NewlineNode; NewlineNode; NewlineNode;
             Composite VectorNode [SymbolNode "x"; NewlineNode]; NewlineNode]].

Lemma no_long_blank_runs_witness :
  DefaultTransforms TransformRemoveExtraBlankLines = true
  /\ exists t',
       applyTransforms spacedTree DefaultTransforms = Some t'
       /\ tripleFree (Roots t')
       /\ Forall (everywhere tripleFree) (Roots t').
Proof.
  split; [reflexivity|].
  exact (no_long_blank_runs spacedTree DefaultTransforms eq_refl).
Defined.

Lemma no_trailing_newlines_witness :
  DefaultTransforms TransformRemoveTrailingNewlines = true
  /\ exists t',
       applyTransforms spacedTree DefaultTransforms = Some t'
       /\ Forall (everywhere trimmed) (Roots t').
Proof.
  split; [reflexivity|].
  exact (no_trailing_newlines spacedTree DefaultTransforms eq_refl).
Defined.

Lemma newlines_only_witness :
  only TransformRemoveExtraBlankLines TransformSortImportRequire = false
  /\ exists t',
       applyTransforms spacedTree (only TransformRemoveExtraBlankLines) = Some t'
       /\ squashAll (Roots t') = squashAll (Roots spacedTree).
Proof.
  split; [reflexivity|].
  exact (newlines_only spacedTree (only TransformRemoveExtraBlankLines) eq_refl).
Defined.

Definition noTransforms : Transforms := fun _ => false.

Lemma no_transform_identity_witness :
  (forall p, noTransforms p = false)
  /\ applyTransforms spacedTree noTransforms = Some spacedTree.
Proof.
  split; [intros p; reflexivity|].
  exact (no_transform_identity spacedTree noTransforms (fun p => eq_refl)).
Defined.

Definition nsForm (entries : list Node) : Node :=
  Composite ListNode
    [SymbolNode "ns"; SymbolNode "foo"; NewlineNode;
     Composite ListNode (KeywordNode ":require" :: entries)].

Definition requireEntriesSorted : list Node :=
  [SymbolNode "c.d"; NewlineNode;
   Composite VectorNode [SymbolNode "a.b"]; NewlineNode;
   Composite VectorNode [SymbolNode "b.c"]].

Lemma sortNS_touches_requires_only_witness :
  sortNS (nsForm requireEntries) = Some (nsForm requireEntriesSorted)
  /\ head (Children (nsForm requireEntriesSorted))
     = head (Children (nsForm requireEntries))
  /\ Forall2 (fun n n' => (FnFormKeyword n kws = false -> n' = n)
                          /\ FnFormKeyword n' kws = FnFormKeyword n kws)
             (tail (Children (nsForm requireEntries)))
             (tail (Children (nsForm requireEntriesSorted))).
Proof.
  assert (E : sortNS (nsForm requireEntries) = Some (nsForm requireEntriesSorted))
    by (vm_compute; reflexivity).
  split; [exact E|].
  exact (sortNS_touches_requires_only (nsForm requireEntries)
           (nsForm requireEntriesSorted) E).
Defined.


(** **** The layout that sorting writes *)

(** [blankFree prev l]: no two newline nodes of [l] are next to each
    other, and [l] does not start with a newline node when [prev] says
    that one came right before it. *)
Fixpoint blankFree (prev : bool) (l : list Node) : bool :=
  match l with
  | [] => true
  | n :: rest =>
      if Newline n then negb prev && blankFree true rest
      else blankFree false rest
  end.

Lemma blankFree_prefix a b : forall prev,
  blankFree prev (a ++ b) = true -> blankFree prev a = true.
Proof.
  induction a as [|n a IH]; intros prev H; [reflexivity|].
  cbn [app blankFree] in *. destruct (Newline n).
  - apply andb_true_iff in H as [H1 H2]. rewrite H1. cbn [andb]. now apply IH.
  - now apply IH.
Qed.

Lemma blankFree_lines L rest prev :
  blankFree true rest = true -> blankFree prev (flat_map emitLine L ++ rest) = true.
Proof.
  intros H. revert prev. induction L as [|c L IH]; intros prev.
  - cbn [flat_map app]. destruct rest as [|n rest]; [reflexivity|].
    cbn [blankFree] in *. destruct (Newline n); [|exact H].
    discriminate H.
  - cbn [flat_map emitLine app blankFree Newline negb andb]. apply IH.
Qed.

Lemma blankFree_entries S rest :
  Forall semanticIR S ->
  blankFree true rest = true -> blankFree true (flat_map emitEntry S ++ rest) = true.
Proof.
  intros HS H. induction HS as [|ir S Hir HS IH]; [exact H|].
  cbn [flat_map]. unfold emitEntry. rewrite <- !app_assoc.
  apply blankFree_lines. cbn [app blankFree].
  assert (Hn : Newline (IRNode ir) = false).
  { unfold semanticIR, semantic in Hir. now destruct (Newline (IRNode ir)). }
  rewrite Hn. destruct (CommentBeside ir); cbn [app blankFree Newline negb andb];
    exact IH.
Qed.

Lemma blankFree_emitted S L :
  Forall semanticIR S -> blankFree true (emitted S L) = true.
Proof.
  intros HS. unfold emitted. apply blankFree_entries; [exact HS|].
  rewrite <- (app_nil_r (flat_map emitLine L)). now apply blankFree_lines.
Qed.

(** What is emitted ends with a node that is no newline and the newline
    after it. *)
Lemma emitted_last S L :
  Forall semanticIR S ->
  emitted S L = []
  \/ exists e y, emitted S L = e ++ [y; NewlineNode] /\ Newline y = false.
Proof.
  intros HS. unfold emitted. destruct L as [|c L _] using rev_ind.
  - simpl. rewrite app_nil_r. destruct S as [|ir S _] using rev_ind; [now left|].
    right. rewrite flat_map_app. simpl. rewrite app_nil_r. unfold emitEntry.
    apply Forall_app in HS as [_ Hir]. inversion Hir as [|? ? Hsem _]; subst.
    assert (Hn : Newline (IRNode ir) = false).
    { unfold semanticIR, semantic in Hsem. now destruct (Newline (IRNode ir)). }
    destruct (CommentBeside ir) as [c|].
    + exists (flat_map emitEntry S ++ flat_map emitLine (CommentsAbove ir) ++ [IRNode ir]),
             (CommentNode c).
      split; [now rewrite <- !app_assoc|reflexivity].
    + exists (flat_map emitEntry S ++ flat_map emitLine (CommentsAbove ir)), (IRNode ir).
      split; [now rewrite <- !app_assoc|exact Hn].
  - right. rewrite flat_map_app. simpl.
    exists (flat_map emitEntry S ++ flat_map emitLine L), (CommentNode c).
    split; [now rewrite <- !app_assoc|reflexivity].
Qed.

Lemma dropTrailing_trimmed n0 (es : importRequireList) L :
  Forall semanticIR es -> Newline n0 = false ->
  trimmed (dropTrailing ([n0] ++ emitted es L)).
Proof.
  intros HS H0. destruct (emitted_last es L HS) as [E|(e & y & E & Hy)]; rewrite E.
  - apply (trimmed_keeps_last [] n0 H0).
  - unfold dropTrailing.
    change ([n0] ++ e ++ [y; NewlineNode]) with ((n0 :: e) ++ [y; NewlineNode]).
    assert (Hlen : length ((n0 :: e) ++ [y; NewlineNode]) = S (S (length (n0 :: e)))).
    { rewrite length_app. simpl. lia. }
    rewrite Hlen. cbn [Nat.leb andb].
    replace (S (S (length (n0 :: e))) - 2)%nat with (length (n0 :: e)) by lia.
    rewrite list_lookup_middle by reflexivity.
    destruct (Comment y) eqn:Hc; cbn [negb].
    + apply trimmed_two. auto.
    + change ((n0 :: e) ++ [y; NewlineNode]) with ((n0 :: e) ++ [y] ++ [NewlineNode]).
      rewrite app_assoc, removelast_last.
      apply (trimmed_keeps_last _ y Hy).
Qed.

(** The children that [sortImportRequire] writes for a [:require] or
    [:import] list hold no blank line, the blank lines between the
    entries being dropped, and no trailing newline that
    [removeTrailingNewlines] would take off. *)
Theorem sorted_layout n n' :
  FnFormKeyword n kws = true -> sortImportRequire n = Some n' ->
  trimmed (Children n')
  /\ blankFree true (tail (Children n')) = true.
Proof.
  intros Hk Hs. destruct (FnFormKeyword_shape _ _ Hk) as (v & rest & ->).
  destruct (scanNodes_entries rest scanStart scanInv_start) as (st & E & _ & Hm).
  pose proof (Stable_Forall _ _ (entries_semantic _ _ Hm)) as Hsem.
  unfold sortImportRequire in Hs. fold scanStart in Hs. rewrite E in Hs.
  injection Hs as <-. cbn [Children].
  fold (emitted (Stable (sorted st)) (lineComments st)).
  split; [now apply dropTrailing_trimmed|].
  destruct (dropTrailing_emitted (KeywordNode v) (Stable (sorted st)) (lineComments st))
    as (body & Hd & Hb).
  cbn [app] in Hd. rewrite Hd. cbn [tail]. destruct Hb as [-> | Hb].
  - now apply blankFree_emitted.
  - apply (blankFree_prefix body [NewlineNode]). rewrite <- Hb.
    now apply blankFree_emitted.
Qed.

Lemma sorted_layout_witness :
  FnFormKeyword (Composite ListNode (KeywordNode ":require" :: requireEntries)) kws = true
  /\ sortImportRequire (Composite ListNode (KeywordNode ":require" :: requireEntries))
     = Some (Composite ListNode (KeywordNode ":require" :: requireEntriesSorted))
  /\ trimmed (Children (Composite ListNode (KeywordNode ":require" :: requireEntriesSorted)))
  /\ blankFree true
       (tail (Children (Composite ListNode
                          (KeywordNode ":require" :: requireEntriesSorted)))) = true.
Proof.
  assert (E : sortImportRequire
                (Composite ListNode (KeywordNode ":require" :: requireEntries))
              = Some (Composite ListNode (KeywordNode ":require" :: requireEntriesSorted)))
    by (vm_compute; reflexivity).
  split; [reflexivity|]. split; [exact E|].
  exact (sorted_layout (Composite ListNode (KeywordNode ":require" :: requireEntries))
           (Composite ListNode (KeywordNode ":require" :: requireEntriesSorted))
           eq_refl E).
Defined.


End Format.
